(** * Dynamic form builder: the derived-field engine, verified

    A shallow embedding of the evaluation and reconciliation logic of the
    form builder (the standalone preview renderer [PreviewForm], the
    builder's live preview [CreateForm] and the saved-forms list
    [MyForms]), followed by the properties of that logic.

    Conventions of the embedding.
    - A JavaScript value is a [value]; objects carry a reference, and
      strict equality compares references, as the language does.
    - A JavaScript object used as a map ([Record<string, any>]) is a
      [gmap string value] holding its own properties: a key is either
      absent or bound, possibly to [VUndefined].  The value map and the
      error map are keyed by field ids (uuids), so no key of theirs
      names a member of [Object.prototype] and [k in m] is
      [is_Some (m !! k)].  The context of a formula is keyed by names
      made from labels, and the object [getAllForms] fills by the keys
      of the store: these can be any text, and the assignment
      [o[k] = v] is [assign], which leaves out the one key the
      prototype intercepts, [__proto__].
    - A string is the sequence of its UTF-16 code units, each below 256
      (Latin-1 text): [toLowerCase], the class [\s] and [trim] are
      modelled on all of that range.  Text with other characters is
      outside the embedding.
    - Numbers are the integral doubles, as [Z], with [VNaN] apart.
    - What belongs to the platform and not to the repository (the
      expression engine behind [new Function], [JSON.parse], [Date]) is a
      parameter of the definitions that use it. *)

From Stdlib Require Import ZArith String Ascii List Bool Lia.
From stdpp Require Import base option list strings gmap fin_maps pretty.

Local Open Scope string_scope.
Local Open Scope Z_scope.

(** ** JavaScript values *)

Module JS.

Inductive value : Type :=
| VUndefined
| VNull
| VBool (b : bool)
| VNum (n : Z)
| VNaN
| VStr (s : string)
| VArr (ref : nat) (items : list string)
| VObj (ref : nat).

(** [ToBoolean]: what [!v] and [v && ...] look at. *)
Definition truthy (v : value) : bool :=
  match v with
  | VUndefined | VNull | VNaN => false
  | VBool b => b
  | VNum n => negb (Z.eqb n 0)
  | VStr s => negb (String.eqb s EmptyString)
  | VArr _ _ | VObj _ => true
  end.

(** [a === b]. [NaN] differs from itself; objects are equal when they
    are the same object. *)
Definition strict_eq (a b : value) : bool :=
  match a, b with
  | VUndefined, VUndefined => true
  | VNull, VNull => true
  | VBool x, VBool y => Bool.eqb x y
  | VNum x, VNum y => Z.eqb x y
  | VStr x, VStr y => String.eqb x y
  | VArr r _, VArr r' _ => Nat.eqb r r'
  | VObj r, VObj r' => Nat.eqb r r'
  | _, _ => false
  end.

(** [a !== b] *)
Definition strict_neq (a b : value) : bool := negb (strict_eq a b).

(** [m[k]]: reading an absent key gives [undefined]. *)
Definition get (m : gmap string value) (k : string) : value :=
  default VUndefined (m !! k).

(** [k in m] *)
Definition has (m : gmap string value) (k : string) : bool :=
  bool_decide (is_Some (m !! k)).

(** [o[k] = v] on a plain object whose keys can be any text: the key
    [__proto__] reaches the setter [Object.prototype] has for it, which
    creates no own property (it changes the prototype when [v] is an
    object or [null], and nothing otherwise); what reads the object
    afterwards ([Object.values], [Object.keys], the spread) sees own
    properties only. *)
Definition assign {A : Type} (o : gmap string A) (k : string) (v : A)
    : gmap string A :=
  if String.eqb k "__proto__" then o else <[k := v]> o.

(** [Object.values(m)] *)
Definition values (m : gmap string value) : list value :=
  (map_to_list m).*2.

(** [Array.isArray(v)] *)
Definition isArray (v : value) : bool :=
  match v with VArr _ _ => true | _ => false end.

(** [v.length] of an array *)
Definition arrayLength (v : value) : nat :=
  match v with VArr _ items => List.length items | _ => O end.

(** The result of running code that may throw. *)
Inductive outcome (A : Type) : Type :=
| Returned (a : A)
| Thrown.
Arguments Returned {A} a.
Arguments Thrown {A}.

(** Sequencing: a throw in [o] skips what follows. *)
Definition bind {A B : Type} (o : outcome A) (k : A -> outcome B) : outcome B :=
  match o with
  | Returned a => k a
  | Thrown => Thrown
  end.

(** [try { body } catch { handler }] *)
Definition tryCatch {A : Type} (body handler : outcome A) : outcome A :=
  match body with
  | Returned a => Returned a
  | Thrown => handler
  end.

(** [l.forEach(a => body)] over a state the body updates: a throw in
    the body ends the loop and leaves it. *)
Fixpoint forEach {S A : Type} (body : S -> A -> outcome S) (l : list A) (s : S)
    : outcome S :=
  match l with
  | [] => Returned s
  | a :: rest => bind (body s a) (forEach body rest)
  end.

(** [l.map(f)]: a throw in the callback leaves the call. *)
Fixpoint mapArray {A B : Type} (f : A -> outcome B) (l : list A)
    : outcome (list B) :=
  match l with
  | [] => Returned []
  | a :: rest =>
      bind (f a) (fun b => bind (mapArray f rest) (fun bs => Returned (b :: bs)))
  end.

(** ** Strings *)

(** The code units below 256 that [toLowerCase] changes: [A] to [Z], and
    the capital letters of Latin-1, 192 to 222 but for the multiplication
    sign 215. Each of them has its lower-case letter 32 above it. *)
Definition isUpper (c : ascii) : bool :=
  let n := nat_of_ascii c in
  (Nat.leb 65 n && Nat.leb n 90
   || Nat.leb 192 n && Nat.leb n 222 && negb (Nat.eqb n 215))%bool.

Definition lowerChar (c : ascii) : ascii :=
  if isUpper c then ascii_of_nat (nat_of_ascii c + 32) else c.

(** [s.toLowerCase()] *)
Fixpoint toLowerCase (s : string) : string :=
  match s with
  | EmptyString => EmptyString
  | String c r => String (lowerChar c) (toLowerCase r)
  end.

(** The class [\s], which is also what [trim] removes: among the code
    units below 256, tab, line feed, vertical tab, form feed, carriage
    return, space and the no-break space (160). *)
Definition isWhiteSpace (c : ascii) : bool :=
  let n := nat_of_ascii c in
  (Nat.leb 9 n && Nat.leb n 13 || Nat.eqb n 32 || Nat.eqb n 160)%bool.

(** The class [\d]. *)
Definition isDigit (c : ascii) : bool :=
  let n := nat_of_ascii c in (Nat.leb 48 n && Nat.leb n 57)%bool.

Fixpoint allChars (p : ascii -> bool) (s : string) : bool :=
  match s with
  | EmptyString => true
  | String c r => p c && allChars p r
  end.

(** [s.replace(/\s+/g, r)], scanning left to right: [inRun] tells that
    the character before belonged to the match being consumed. *)
Fixpoint replaceWsRuns (r : string) (inRun : bool) (s : string) : string :=
  match s with
  | EmptyString => EmptyString
  | String c rest =>
      if isWhiteSpace c then
        if inRun then replaceWsRuns r true rest
        else r +:+ replaceWsRuns r true rest
      else String c (replaceWsRuns r false rest)
  end.

Definition replace_ws (s r : string) : string := replaceWsRuns r false s.

(** ** Regular expressions

    The three patterns of [validateField] are written as regular
    expressions over character classes and matched by derivatives;
    [test_anchored] is [/^r$/.test(s)] and [test_anywhere] is
    [/r/.test(s)]. *)

Inductive regex : Type :=
| RNone
| REps
| RClass (p : ascii -> bool)
| RSeq (r1 r2 : regex)
| RAlt (r1 r2 : regex)
| RStar (r : regex).

Fixpoint nullable (r : regex) : bool :=
  match r with
  | RNone => false
  | REps => true
  | RClass _ => false
  | RSeq r1 r2 => nullable r1 && nullable r2
  | RAlt r1 r2 => nullable r1 || nullable r2
  | RStar _ => true
  end.

Fixpoint deriv (c : ascii) (r : regex) : regex :=
  match r with
  | RNone | REps => RNone
  | RClass p => if p c then REps else RNone
  | RSeq r1 r2 =>
      if nullable r1 then RAlt (RSeq (deriv c r1) r2) (deriv c r2)
      else RSeq (deriv c r1) r2
  | RAlt r1 r2 => RAlt (deriv c r1) (deriv c r2)
  | RStar r1 => RSeq (deriv c r1) (RStar r1)
  end.

Fixpoint test_anchored (r : regex) (s : string) : bool :=
  match s with
  | EmptyString => nullable r
  | String c rest => test_anchored (deriv c r) rest
  end.

Definition RPlus (r : regex) : regex := RSeq r (RStar r).
Definition RChar (c : ascii) : regex := RClass (Ascii.eqb c).
(** [\S] *)
Definition RNonSpace : regex := RClass (fun c => negb (isWhiteSpace c)).
(** [\d] *)
Definition RDigit : regex := RClass isDigit.
(** [.]: any character but a line terminator. *)
Definition RDot : regex :=
  RClass (fun c => negb (Nat.eqb (nat_of_ascii c) 10 || Nat.eqb (nat_of_ascii c) 13)).
Definition RAny : regex := RClass (fun _ => true).

Fixpoint RRepeat (n : nat) (r : regex) : regex :=
  match n with
  | O => REps
  | S k => RSeq r (RRepeat k r)
  end.

Definition test_anywhere (r : regex) (s : string) : bool :=
  test_anchored (RSeq (RStar RAny) (RSeq r (RStar RAny))) s.

(** [a.includes(x)] on an array of strings *)
Definition includes (x : string) (a : list string) : bool :=
  existsb (String.eqb x) a.

(** [Array.isArray(v) ? v : []] *)
Definition arrayOr (v : value) : list string :=
  match v with VArr _ items => items | _ => [] end.

(** [s.trim()] *)
Fixpoint trimLeft (s : string) : string :=
  match s with
  | EmptyString => EmptyString
  | String c r => if isWhiteSpace c then trimLeft r else s
  end.

Fixpoint trimRight (s : string) : string :=
  match s with
  | EmptyString => EmptyString
  | String c r =>
      match trimRight r with
      | EmptyString => if isWhiteSpace c then EmptyString else String c EmptyString
      | r' => String c r'
      end
  end.

Definition trim (s : string) : string := trimRight (trimLeft s).

End JS.
Export JS.

Notation "'do' x <- e ; k" := (JS.bind e (fun x => k))
  (at level 10, x name, e at level 100, k at level 200).
Notation "'do' ' p <- e ; k" := (JS.bind e (fun p => k))
  (at level 10, p pattern, e at level 100, k at level 200).

(** ** The data model ([interface Validation], [Field], [FormSchema]) *)

Record Validation : Type := mkValidation {
  required : bool;
  minLength : option Z;
  maxLength : option Z;
  email : option bool;
  password : option bool;
  correctAnswers : option (list string);
  correctAnswer : option string
}.

Record Field : Type := mkField {
  derived : option bool;
  parentFields : option (list string);
  formula : option string;
  id : string;
  type : string;
  label : string;
  defaultValue : option string;
  options : option (list string);
  validation : Validation
}.

Record FormSchema : Type := mkFormSchema {
  name : string;
  fields : list Field
}.

(** [field.derived] as a condition. *)
Definition isDerived (f : Field) : bool :=
  match derived f with Some true => true | _ => false end.

(** [fields.find(f => f.id === parentId)] *)
Definition findField (fs : list Field) (parentId : string) : option Field :=
  List.find (fun f => String.eqb (id f) parentId) fs.

(** [parentField.label.toLowerCase().replace(/\s+/g, '_')] *)
Definition variableName (lbl : string) : string :=
  replace_ws (toLowerCase lbl) "_".

(** The body of [field.parentFields.forEach(parentId => ...)], shared by
    both components: the state is [(context, hasAllParents)]; the values
    are read from the map the reconciler was called with. *)
Definition resolveParent (fs : list Field) (values : gmap string value)
    (st : gmap string value * bool) (parentId : string)
    : gmap string value * bool :=
  let '(context, hasAllParents) := st in
  match findField fs parentId with
  | Some parentField =>
      if JS.has values parentId then
        (assign context (variableName (label parentField)) (JS.get values parentId),
         hasAllParents)
      else (context, false)
  | None => (context, false)
  end.

Definition buildContext (fs : list Field) (values : gmap string value)
    (parents : list string) : gmap string value * bool :=
  fold_left (resolveParent fs values) parents (∅, true).

(** The guard [field.derived && field.parentFields && field.formula]:
    an array is truthy even when empty, a string only when non-empty. *)
Definition derivation (f : Field) : option (list string * string) :=
  if isDerived f then
    match parentFields f, formula f with
    | Some ps, Some fm =>
        if String.eqb fm EmptyString then None else Some (ps, fm)
    | _, _ => None
    end
  else None.

(** [val === '' || val === undefined || val === null] *)
Definition isBlank (val : value) : bool :=
  strict_eq val (VStr EmptyString) || strict_eq val VUndefined || strict_eq val VNull.

(** ** The helper [calculateAge]

    The same arrow function is bound in both copies of [evalFormula].
    [Date] is the platform's: [newDate v] stands for [new Date(v)] read
    through [getFullYear], [getMonth] (zero-based) and [getDate], and is
    [None] when [getTime()] is [NaN]; [today] is [new Date()] read the
    same way. *)

Record LocalDate : Type := mkLocalDate {
  getFullYear : Z;
  getMonth : Z;
  getDate : Z
}.

Module Helpers.
Section WithDate.
Variable newDate : value -> option LocalDate.
Variable today : LocalDate.

Definition calculateAge (birthDate : value) : Z :=
  if negb (truthy birthDate) then 0
  else
    match newDate birthDate with
    | None => 0
    | Some birth =>
        let age := getFullYear today - getFullYear birth in
        let monthDiff := getMonth today - getMonth birth in
        if (monthDiff <? 0)
           || ((monthDiff =? 0) && (getDate today <? getDate birth))
        then age - 1
        else age
    end.
End WithDate.
End Helpers.

(** ** Client-side storage

    [localStorage] is the list of its records [(key, text)] in the order
    [Object.keys] gives them. *)

Module Storage.
(** [localStorage.getItem(key)]: [None] is [null]. *)
Definition getItem (store : list (string * string)) (key : string)
    : option string :=
  snd <$> List.find (fun kv => String.eqb (fst kv) key) store.

(** [Object.keys(localStorage)] *)
Definition keys (store : list (string * string)) : list string := store.*1.
(** [localStorage.setItem(key, text)]: the record is replaced where it
    stands, or added. (A full store makes the platform throw; the store
    here has no quota.) *)
Definition setItem (store : list (string * string)) (key text : string)
    : list (string * string) :=
  if existsb (fun kv => String.eqb (fst kv) key) store then
    map (fun kv => if String.eqb (fst kv) key then (key, text) else kv) store
  else (store ++ [(key, text)])%list.

(** [localStorage.removeItem(key)] *)
Definition removeItem (store : list (string * string)) (key : string)
    : list (string * string) :=
  List.filter (fun kv => negb (String.eqb (fst kv) key)) store.

(** [localStorage.key(i)] *)
Definition key (store : list (string * string)) (i : nat) : option string :=
  nth_error (store.*1) i.

(** [localStorage.length] *)
Definition length (store : list (string * string)) : nat := List.length store.
End Storage.

(** ** The standalone preview renderer *)

Module PreviewForm.
Section WithPlatform.
(** [run formula evalContext] is
    [new Function(...params, `"use strict"; return (${formula});`)(...values)]
    over the context and the helpers: [Thrown] when the construction or
    the call throws. *)
Variable run : string -> gmap string value -> outcome value.
(** [JSON.parse(stored) as FormSchema] *)
Variable JSON_parse : string -> outcome FormSchema.

Definition evalFormula (formula : string) (context : gmap string value)
    : outcome value :=
  tryCatch
    (let contextValues := JS.values context in
     if existsb isBlank contextValues then Returned (VStr EmptyString)
     else run formula context)
    (Returned (VStr "Error")).

(** The body of [schema.fields.forEach(field => ...)]: the state is
    [(newValues, hasChanges)]. *)
Definition reconcileField (fs : list Field) (currentValues : gmap string value)
    (st : gmap string value * bool) (field : Field)
    : outcome (gmap string value * bool) :=
  let '(newValues, hasChanges) := st in
  match derivation field with
  | Some (parents, fm) =>
      let '(context, hasAllParents) := buildContext fs currentValues parents in
      if hasAllParents then
        do computedValue <- evalFormula fm context;
        if strict_neq (JS.get newValues (id field)) computedValue then
          Returned (<[id field := computedValue]> newValues, true)
        else Returned (newValues, hasChanges)
      else
        if JS.has newValues (id field) then
          Returned (delete (id field) newValues, true)
        else Returned (newValues, hasChanges)
  | None => Returned (newValues, hasChanges)
  end.

(** [updateDerivedFields(currentValues)]. The second component tells
    whether the object returned is a new one, which is how the callers
    read it ([updatedValues !== values]). *)
Definition updateDerivedFields (schema : option FormSchema)
    (currentValues : gmap string value) : outcome (gmap string value * bool) :=
  match schema with
  | None => Returned (currentValues, false)
  | Some sch =>
      do '(newValues, hasChanges) <-
        forEach (reconcileField (fields sch) currentValues) (fields sch)
                (currentValues, false);
      if hasChanges then Returned (newValues, true)
      else Returned (currentValues, false)
  end.

(** [n && p(n)] for an optional number [n]: absent and [0] are falsy. *)
Definition whenSet (o : option Z) (p : Z -> bool) : bool :=
  match o with
  | Some n => negb (n =? 0) && p n
  | None => false
  end.

(** [${n}] *)
Definition numText (o : option Z) : string :=
  match o with
  | Some n => pretty n
  | None => "undefined"
  end.

Definition flag (o : option bool) : bool := default false o.

(** [/^\S+@\S+\.\S+$/] *)
Definition emailPattern : regex :=
  RSeq (RPlus RNonSpace)
    (RSeq (RChar "@") (RSeq (RPlus RNonSpace) (RSeq (RChar ".") (RPlus RNonSpace)))).

(** [/^.{8,}$/] *)
Definition eightOrMore : regex := RSeq (RRepeat 8 RDot) (RStar RDot).

Definition validateField (field : Field) (v : value) : string :=
  let vd := validation field in
  if required vd
     && (negb (truthy v) || (isArray v && Nat.eqb (arrayLength v) 0))
  then "This field is required."
  else
    match v with
    | VStr s =>
        let len := Z.of_nat (String.length s) in
        if whenSet (minLength vd) (fun n => len <? n) then
          "Minimum length is " +:+ numText (minLength vd)
        else if whenSet (maxLength vd) (fun n => n <? len) then
          "Maximum length is " +:+ numText (maxLength vd)
        else if flag (email vd) && truthy v && negb (test_anchored emailPattern s) then
          "Invalid email format."
        else if flag (password vd) && truthy v
                && (negb (test_anchored eightOrMore s)
                    || negb (test_anywhere RDigit s)) then
          "Password must be at least 8 characters and contain a number."
        else EmptyString
    | _ => EmptyString
    end.

(** [handleChange(id, value)], the value map it sets. *)
Definition handleChange (schema : option FormSchema)
    (values : gmap string value) (fid : string) (v : value)
    : outcome (gmap string value) :=
  let newValues := <[fid := v]> values in
  do updatedValues <- updateDerivedFields schema newValues;
  Returned updatedValues.1.

(** The first loop of [handleSubmit]: the state is [newErrors]. *)
Definition submitField (values : gmap string value)
    (newErrors : gmap string string) (field : Field) : gmap string string :=
  if negb (isDerived field) then
    let err := validateField field (JS.get values (id field)) in
    if negb (String.eqb err EmptyString) then <[id field := err]> newErrors
    else newErrors
  else newErrors.

Definition submitErrors (schema : option FormSchema)
    (values : gmap string value) : gmap string string :=
  match schema with
  | Some sch => fold_left (submitField values) (fields sch) ∅
  | None => ∅
  end.

(** The loop that seeds the value map on load. A checkbox gets a new
    empty array: [next] is the next free reference. *)
Definition seedField (st : gmap string value * nat) (f : Field)
    : gmap string value * nat :=
  let '(defaults, next) := st in
  if negb (isDerived f) then
    match defaultValue f with
    | Some d =>
        if negb (String.eqb d EmptyString) then (<[id f := VStr d]> defaults, next)
        else if String.eqb (type f) "checkbox"
             then (<[id f := VArr next []]> defaults, S next)
             else (<[id f := VStr EmptyString]> defaults, next)
    | None =>
        if String.eqb (type f) "checkbox"
        then (<[id f := VArr next []]> defaults, S next)
        else (<[id f := VStr EmptyString]> defaults, next)
    end
  else (defaults, next).

(** The component's state after the load effect. *)
Record State : Type := mkState {
  st_schema : option FormSchema;
  st_values : gmap string value
}.

Definition initialState : State := mkState None ∅.

(** The effect run on mount: [formId] is the route parameter. There is
    no handler around [JSON.parse], so what it throws leaves the
    effect. *)
Definition loadEffect (store : list (string * string)) (next : nat)
    (formId : option string) (st : State) : outcome State :=
  match formId with
  | None => Returned st
  | Some fid =>
      if String.eqb fid EmptyString then Returned st
      else
        match Storage.getItem store fid with
        | None => Returned st
        | Some stored =>
            if String.eqb stored EmptyString then Returned st
            else
              do parsed <- JSON_parse stored;
              let defaults := (fold_left seedField (fields parsed) (∅, next)).1 in
              Returned (mkState (Some parsed) defaults)
        end
  end.

(** What the component renders: the loading text while there is no
    schema. *)
Definition showsLoading (st : State) : bool :=
  match st_schema st with None => true | Some _ => false end.
(** The line feed that ends a line of feedback. *)
Definition newline : string := String (ascii_of_nat 10) EmptyString.

(** [`${field.label}: Incorrect answer.\n`] *)
Definition incorrectLine (field : Field) : string :=
  label field +:+ ": Incorrect answer." +:+ newline.

(** The body of the second loop of [handleSubmit]: the state is
    [(correct, feedback)]. *)
Definition scoreField (values : gmap string value) (st : bool * string)
    (field : Field) : bool * string :=
  let fieldValue := JS.get values (id field) in
  let st1 :=
    match correctAnswer (validation field) with
    | Some answer =>
        if (String.eqb (type field) "radio" || String.eqb (type field) "select")
           && negb (String.eqb answer EmptyString)
        then
          if strict_neq fieldValue (VStr answer)
          then (false, st.2 +:+ incorrectLine field)
          else st
        else st
    | None => st
    end in
  match correctAnswers (validation field) with
  | Some correct =>
      if String.eqb (type field) "checkbox" then
        let userAnswers := arrayOr fieldValue in
        if negb (Nat.eqb (List.length userAnswers) (List.length correct))
           || negb (forallb (fun ans => includes ans userAnswers) correct)
        then (false, st1.2 +:+ incorrectLine field)
        else st1
      else st1
  | None => st1
  end.

(** What [handleSubmit] hands to [setResult]:
    [correct ? 'All answers are correct!' : feedback || 'Some answers are incorrect.'] *)
Definition scoreResult (schema : option FormSchema) (values : gmap string value)
    : string :=
  let '(correct, feedback) :=
    match schema with
    | Some sch => fold_left (scoreField values) (fields sch) (true, EmptyString)
    | None => (true, EmptyString)
    end in
  if correct then "All answers are correct!"
  else if negb (String.eqb feedback EmptyString) then feedback
  else "Some answers are incorrect.".

(** [Object.keys(newErrors).length === 0]: the form is accepted. *)
Definition submitAccepted (schema : option FormSchema) (values : gmap string value)
    : bool :=
  Nat.eqb (size (submitErrors schema values)) 0.

(** The error map [handleChange(id, value)] sets. *)
Definition changeErrors (schema : option FormSchema) (errors : gmap string string)
    (fid : string) (v : value) : gmap string string :=
  match schema with
  | Some sch =>
      match findField (fields sch) fid with
      | Some field =>
          if negb (isDerived field) then <[fid := validateField field v]> errors
          else errors
      | None => errors
      end
  | None => errors
  end.

(** A checkbox option is shown checked when
    [Array.isArray(value) && value.includes(opt)]. *)
Definition optionChecked (v : value) (opt : string) : bool :=
  isArray v && includes opt (arrayOr v).

(** The items of the array a checkbox option hands to [handleChange]:
    [checked ? [...currentValue, opt] : currentValue.filter(v => v !== opt)]. *)
Definition optionToggled (v : value) (opt : string) (checked : bool) : list string :=
  let currentValue := arrayOr v in
  if checked then (currentValue ++ [opt])%list
  else List.filter (fun x => negb (String.eqb x opt)) currentValue.

(** The effect on [schema] and [values]: [Some m] is the call
    [setValues(m)], made when the reconciler returned a new object. *)
Definition deriveEffect (schema : option FormSchema) (values : gmap string value)
    : outcome (option (gmap string value)) :=
  match schema with
  | None => Returned None
  | Some _ =>
      if Nat.eqb (size values) 0 then Returned None
      else
        do '(updatedValues, isNew) <- updateDerivedFields schema values;
        if isNew then Returned (Some updatedValues) else Returned None
  end.

(** The effect depends on [values], so it runs again after each
    [setValues]. [settle fuel] follows at most [fuel] runs: [Some m] is
    the map the component rests on, [None] tells that the last of these
    runs still called [setValues]. Here the engine answers every run
    alike; [settleEach] below lets it answer each run in its own way. *)
Fixpoint settle (fuel : nat) (schema : option FormSchema)
    (values : gmap string value) : outcome (option (gmap string value)) :=
  match fuel with
  | O => Returned None
  | S n =>
      do next <- deriveEffect schema values;
      match next with
      | None => Returned (Some values)
      | Some m => settle n schema m
      end
  end.
End WithPlatform.

(** A formula need not give the same value each time it is evaluated:
    an array or object literal gives a new object every time, and
    [Math.random()] or [new Date()] another result. [runs k] is the
    engine as it answers during run [k] of the effect; [settleEach]
    follows the runs from run [k] on. (Within one run each derived field
    is evaluated once, and the values of two fields are never compared.) *)
Fixpoint settleEach (runs : nat -> string -> gmap string value -> outcome value)
    (k fuel : nat) (schema : option FormSchema) (values : gmap string value)
    : outcome (option (gmap string value)) :=
  match fuel with
  | O => Returned None
  | S n =>
      do next <- deriveEffect (runs k) schema values;
      match next with
      | None => Returned (Some values)
      | Some m => settleEach runs (S k) n schema m
      end
  end.
End PreviewForm.

(** ** The builder and its live preview *)

Module CreateForm.
Section WithPlatform.
Variable run : string -> gmap string value -> outcome value.

(** The builder's copy of the evaluator: it runs the formula on
    whatever the context holds. *)
Definition evalFormula (formula : string) (context : gmap string value)
    : outcome value :=
  tryCatch (run formula context) (Returned (VStr "Error")).

(** The body of [fields.forEach(field => ...)]; there is no branch for
    a missing parent. *)
Definition reconcileField (fs : list Field) (values : gmap string value)
    (st : gmap string value * bool) (field : Field)
    : outcome (gmap string value * bool) :=
  let '(newValues, hasChanges) := st in
  match derivation field with
  | Some (parents, fm) =>
      let '(context, hasAllParents) := buildContext fs values parents in
      if hasAllParents then
        do computedValue <- evalFormula fm context;
        if strict_neq (JS.get newValues (id field)) computedValue then
          Returned (<[id field := computedValue]> newValues, true)
        else Returned (newValues, hasChanges)
      else Returned (newValues, hasChanges)
  | None => Returned (newValues, hasChanges)
  end.

(** [updateDerivedFields(values)] returns nothing; its effect is the
    call [setPreviewValues(newValues)], made when something changed:
    [Some newValues] is that call. *)
Definition updateDerivedFields (fs : list Field) (values : gmap string value)
    : outcome (option (gmap string value)) :=
  do '(newValues, hasChanges) <- forEach (reconcileField fs values) fs (values, false);
  if hasChanges then Returned (Some newValues) else Returned None.

(** [handlePreviewChange(fieldId, value)], the preview values it leaves. *)
Definition handlePreviewChange (fs : list Field)
    (previewValues : gmap string value) (fieldId : string) (v : value)
    : outcome (gmap string value) :=
  let newValues := <[fieldId := v]> previewValues in
  do set <- updateDerivedFields fs newValues;
  Returned (default newValues set).
End WithPlatform.

(** [type FieldType] *)
Inductive FieldType : Type :=
| TText | TNumber | TTextarea | TSelect | TRadio | TCheckbox | TDate.

Definition typeName (t : FieldType) : string :=
  match t with
  | TText => "text"
  | TNumber => "number"
  | TTextarea => "textarea"
  | TSelect => "select"
  | TRadio => "radio"
  | TCheckbox => "checkbox"
  | TDate => "date"
  end.

(** [addField], with the identifier [uuidv4()] gave. *)
Definition addField (uuid : string) (newField : FieldType) (fs : list Field)
    : list Field :=
  let field :=
    mkField None None None uuid (typeName newField) EmptyString None
      (match newField with TSelect => Some [] | _ => None end)
      (mkValidation false None None None None None None) in
  let field :=
    if existsb (String.eqb (typeName newField)) ["select"; "radio"; "checkbox"]
    then mkField (derived field) (parentFields field) (formula field) (id field)
           (type field) (label field) (defaultValue field)
           (Some ["Option 1"; "Option 2"]) (validation field)
    else field in
  (fs ++ [field])%list.

(** [Partial<Field>]: a key is absent ([None]) or given, an optional key
    possibly as [undefined]. *)
Record PartialField : Type := mkPartial {
  p_id : option string;
  p_type : option string;
  p_label : option string;
  p_defaultValue : option (option string);
  p_options : option (option (list string));
  p_validation : option Validation;
  p_derived : option (option bool);
  p_parentFields : option (option (list string));
  p_formula : option (option string)
}.

Definition noUpdate : PartialField :=
  mkPartial None None None None None None None None None.

(** [{ ...field, ...updated }] *)
Definition merge (field : Field) (updated : PartialField) : Field :=
  mkField (default (derived field) (p_derived updated))
          (default (parentFields field) (p_parentFields updated))
          (default (formula field) (p_formula updated))
          (default (id field) (p_id updated))
          (default (type field) (p_type updated))
          (default (label field) (p_label updated))
          (default (defaultValue field) (p_defaultValue updated))
          (default (options field) (p_options updated))
          (default (validation field) (p_validation updated)).

Definition updateField (fid : string) (updated : PartialField) (fs : list Field)
    : list Field :=
  map (fun field => if String.eqb (id field) fid then merge field updated else field) fs.

(** [deleteField(id)]: the field list and the preview values it leaves. *)
Definition deleteField (fid : string) (fs : list Field)
    (previewValues : gmap string value) : list Field * gmap string value :=
  (List.filter (fun field => negb (String.eqb (id field) fid)) fs,
   delete fid previewValues).

Definition getAvailableParentFields (fs : list Field) (currentFieldId : string)
    : list Field :=
  List.filter
    (fun f => negb (String.eqb (id f) currentFieldId)
              && negb (isDerived f)
              && negb (String.eqb (trim (label f)) EmptyString))
    fs.

(** The parent checkbox of a derived field: the update it passes to
    [updateField]. *)
Definition parentToggled (field : Field) (parentId : string) (checked : bool)
    : PartialField :=
  let current := default [] (parentFields field) in
  let updated :=
    if checked then (current ++ [parentId])%list
    else List.filter (fun x => negb (String.eqb x parentId)) current in
  mkPartial None None None None None None None (Some (Some updated)) None.

(** The option editor. An index is that of a rendered option; the delete
    button is rendered only while there are more than two options. *)
Definition optionEdited (field : Field) (optIdx : nat) (text : string)
    : PartialField :=
  let newOptions := <[optIdx := text]> (default [] (options field)) in
  mkPartial None None None None (Some (Some newOptions)) None None None None.

Definition deleteShown (field : Field) : bool :=
  match options field with
  | Some opts => Nat.ltb 2 (List.length opts)
  | None => false
  end.

Definition optionDeleted (field : Field) (optIdx : nat) : PartialField :=
  let newOptions := delete optIdx (default [] (options field)) in
  mkPartial None None None None (Some (Some newOptions)) None None None None.

(** [Add Option] reads [field.options!.length]: without options the
    handler throws. *)
Definition optionAdded (field : Field) : outcome PartialField :=
  match options field with
  | Some opts =>
      let newOptions :=
        (opts ++ ["Option " +:+ pretty (Z.of_nat (List.length opts) + 1)])%list in
      Returned (mkPartial None None None None (Some (Some newOptions)) None None None None)
  | None => Thrown
  end.

(** The component's state, as far as saving goes. *)
Record State : Type := mkState {
  st_fields : list Field;
  st_formName : string;
  st_openDialog : bool;
  st_previewValues : gmap string value
}.

Section Saving.
(** [JSON.stringify({ name, fields, createdAt })] *)
Variable JSON_stringify : FormSchema -> string -> string.

(** [saveForm], at the instant [createdAt]: the state and the store it
    leaves. *)
Definition saveForm (createdAt : string) (st : State)
    (store : list (string * string)) : State * list (string * string) :=
  let formSchema := mkFormSchema (st_formName st) (st_fields st) in
  (mkState [] EmptyString false ∅,
   Storage.setItem store ("form_" +:+ st_formName st)
     (JSON_stringify formSchema createdAt)).
End Saving.
End CreateForm.

(** ** The list of saved forms *)

Module MyForms.
Section WithPlatform.
(** [JSON.parse(raw) as FormSchema] *)
Variable JSON_parse : string -> outcome FormSchema.

(** The callback of [formKeys.map(...)]: [None] is the [null] that
    [filter(Boolean)] drops. *)
Definition loadForm (store : list (string * string)) (key : string)
    : outcome (option (string * FormSchema)) :=
  match Storage.getItem store key with
  | None => Returned None
  | Some raw =>
      if String.eqb raw EmptyString then Returned None
      else
        tryCatch (do data <- JSON_parse raw; Returned (Some (key, data)))
                 (Returned None)
  end.

(** The effect run on mount: the forms it hands to [setForms]. *)
Definition loadedForms (store : list (string * string))
    : outcome (list (string * FormSchema)) :=
  let formKeys := List.filter (String.prefix "form_") (Storage.keys store) in
  do loaded <- mapArray (loadForm store) formKeys;
  Returned (omap (fun r => r) loaded).
End WithPlatform.
End MyForms.

(** ** The storage helpers of [types/index.ts]

    [formConfig] is typed [any]: [A] is the type of the configurations
    stored, which [JSON.stringify] writes and [JSON.parse] reads. *)

Module StorageUtils.
Section WithPlatform.
Variable A : Type.
Variable JSON_stringify : A -> string.
Variable JSON_parse : string -> outcome A.

Definition saveForm (store : list (string * string)) (formId : string)
    (formConfig : A) : list (string * string) :=
  Storage.setItem store formId (JSON_stringify formConfig).

(** [None] is the [null] returned when nothing is stored. *)
Definition getForm (store : list (string * string)) (formId : string)
    : outcome (option A) :=
  match Storage.getItem store formId with
  | Some formConfig =>
      if negb (String.eqb formConfig EmptyString)
      then do parsed <- JSON_parse formConfig; Returned (Some parsed)
      else Returned None
  | None => Returned None
  end.

(** The body of the loop of [getAllForms]. *)
Definition collectForm (store : list (string * string))
    (forms : gmap string A) (i : nat) : outcome (gmap string A) :=
  match Storage.key store i with
  | Some key =>
      if negb (String.eqb key EmptyString) then
        let text :=
          match Storage.getItem store key with
          | Some t => if String.eqb t EmptyString then "{}" else t
          | None => "{}"
          end in
        do parsed <- JSON_parse text; Returned (assign forms key parsed)
      else Returned forms
  | None => Returned forms
  end.

Definition getAllForms (store : list (string * string)) : outcome (gmap string A) :=
  forEach (collectForm store) (seq 0 (Storage.length store)) ∅.

Definition deleteForm (store : list (string * string)) (formId : string)
    : list (string * string) :=
  Storage.removeItem store formId.
End WithPlatform.
End StorageUtils.

(** ** A fragment of the expression engine

    The engine behind [new Function] is the platform's. For the concrete
    scenarios a fragment of it is written out: formulas made of decimal
    integer literals, identifiers bound by the context, the operators
    [+], [-] and [*] and parentheses, over primitive values, with the
    conversions the language applies ([ToNumber], [ToString]). Whatever
    the fragment does not cover is [None]: it never guesses. *)

Module Engine.

Inductive token : Type :=
| TNum (n : Z)
| TIdent (x : string)
| TPlus
| TMinus
| TStar
| TLParen
| TRParen.

Inductive binop : Type := Add | Sub | Mul.

Inductive expr : Type :=
| ENum (n : Z)
| EVar (x : string)
| EBin (op : binop) (l r : expr).

Definition isLetter (c : ascii) : bool :=
  let n := nat_of_ascii c in
  (Nat.leb 97 n && Nat.leb n 122) || (Nat.leb 65 n && Nat.leb n 90) || Nat.eqb n 95.

Definition digitValue (c : ascii) : Z := Z.of_nat (nat_of_ascii c) - 48.

(** The largest integer up to which every integer is a double. *)
Definition maxSafe : Z := 9007199254740992.

Definition inRange (n : Z) : bool := (- maxSafe <=? n) && (n <=? maxSafe).

(** The token being read. *)
Inductive pending : Type :=
| PNone
| PNum (digits : string)
| PIdent (x : string).

Fixpoint digitsValue (acc : Z) (s : string) : Z :=
  match s with
  | EmptyString => acc
  | String c r => digitsValue (10 * acc + digitValue c) r
  end.

(** A literal with a leading zero is the legacy octal form: left out. *)
Definition flush (p : pending) : option (list token) :=
  match p with
  | PNone => Some []
  | PNum ds =>
      match ds with
      | String "0" (String _ _) => None
      | _ => let n := digitsValue 0 ds in
             if inRange n then Some [TNum n] else None
      end
  | PIdent x => Some [TIdent x]
  end.

Definition symbol (c : ascii) : option token :=
  if Ascii.eqb c "+" then Some TPlus
  else if Ascii.eqb c "-" then Some TMinus
  else if Ascii.eqb c "*" then Some TStar
  else if Ascii.eqb c "(" then Some TLParen
  else if Ascii.eqb c ")" then Some TRParen
  else None.

Fixpoint lex (p : pending) (s : string) : option (list token) :=
  match s with
  | EmptyString => flush p
  | String c r =>
      if isDigit c then
        match p with
        | PNone => lex (PNum (String c EmptyString)) r
        | PNum ds => lex (PNum (ds +:+ String c EmptyString)) r
        | PIdent x => lex (PIdent (x +:+ String c EmptyString)) r
        end
      else if isLetter c then
        match p with
        | PNone => lex (PIdent (String c EmptyString)) r
        | PIdent x => lex (PIdent (x +:+ String c EmptyString)) r
        | PNum _ => None
        end
      else if Ascii.eqb c " " then
        ts1 ← flush p; ts2 ← lex PNone r; Some (ts1 ++ ts2)%list
      else
        match symbol c with
        | Some t => ts1 ← flush p; ts2 ← lex PNone r; Some (ts1 ++ t :: ts2)%list
        | None => None
        end
  end.

Definition parseAtom (sub : list token -> option (expr * list token))
    (ts : list token) : option (expr * list token) :=
  match ts with
  | TNum n :: r => Some (ENum n, r)
  | TIdent x :: r => Some (EVar x, r)
  | TLParen :: r =>
      match sub r with
      | Some (e, TRParen :: r') => Some (e, r')
      | _ => None
      end
  | _ => None
  end.

(** [atom ( * atom )*], left associative. *)
Fixpoint parseMulTail (sub : list token -> option (expr * list token))
    (n : nat) (lhs : expr) (ts : list token) : option (expr * list token) :=
  match ts with
  | TStar :: r =>
      match n with
      | O => None
      | S n' =>
          match parseAtom sub r with
          | Some (e, r') => parseMulTail sub n' (EBin Mul lhs e) r'
          | None => None
          end
      end
  | _ => Some (lhs, ts)
  end.

Definition parseTerm (sub : list token -> option (expr * list token))
    (n : nat) (ts : list token) : option (expr * list token) :=
  match parseAtom sub ts with
  | Some (e, r) => parseMulTail sub n e r
  | None => None
  end.

(** [term ( (+|-) term )*], left associative. *)
Fixpoint parseAddTail (sub : list token -> option (expr * list token))
    (n : nat) (lhs : expr) (ts : list token) : option (expr * list token) :=
  match ts with
  | TPlus :: r =>
      match n with
      | O => None
      | S n' =>
          match parseTerm sub n' r with
          | Some (e, r') => parseAddTail sub n' (EBin Add lhs e) r'
          | None => None
          end
      end
  | TMinus :: r =>
      match n with
      | O => None
      | S n' =>
          match parseTerm sub n' r with
          | Some (e, r') => parseAddTail sub n' (EBin Sub lhs e) r'
          | None => None
          end
      end
  | _ => Some (lhs, ts)
  end.

Fixpoint parseExpr (fuel : nat) (ts : list token) : option (expr * list token) :=
  match fuel with
  | O => None
  | S k =>
      match parseTerm (parseExpr k) (List.length ts) ts with
      | Some (e, r) => parseAddTail (parseExpr k) (List.length ts) e r
      | None => None
      end
  end.

Definition parse (ts : list token) : option expr :=
  match parseExpr (S (List.length ts)) ts with
  | Some (e, []) => Some e
  | _ => None
  end.

(** [ToNumber] gives a number or [NaN]. *)
Inductive num : Type :=
| NInt (n : Z)
| NNaN.

Definition isAlpha (c : ascii) : bool :=
  let n := nat_of_ascii c in
  (Nat.leb 97 n && Nat.leb n 122) || (Nat.leb 65 n && Nat.leb n 90).

Fixpoint trimStart (s : string) : string :=
  match s with
  | EmptyString => EmptyString
  | String c r => if isWhiteSpace c then trimStart r else s
  end.

Fixpoint trimEnd (s : string) : string :=
  match s with
  | EmptyString => EmptyString
  | String c r =>
      match trimEnd r with
      | EmptyString => if isWhiteSpace c then EmptyString else String c EmptyString
      | r' => String c r'
      end
  end.

Definition digitsToNumber (sign : Z) (ds : string) : option num :=
  match ds with
  | EmptyString => None
  | _ =>
      if allChars isDigit ds then
        let n := sign * digitsValue 0 ds in
        if inRange n then Some (NInt n) else None
      else None
  end.

(** [ToNumber] of a string: blank is [0], a signed run of digits is
    its value, a word of letters other than [Infinity] is [NaN]. *)
Definition stringToNumber (s : string) : option num :=
  match trimEnd (trimStart s) with
  | EmptyString => Some (NInt 0)
  | String c r as t =>
      if Ascii.eqb c "-" then digitsToNumber (-1) r
      else if Ascii.eqb c "+" then digitsToNumber 1 r
      else if isDigit c then digitsToNumber 1 t
      else if allChars isAlpha t && negb (String.eqb t "Infinity") then Some NNaN
      else None
  end.

Definition toNumber (v : value) : option num :=
  match v with
  | VUndefined | VNaN => Some NNaN
  | VNull => Some (NInt 0)
  | VBool b => Some (NInt (if b then 1 else 0))
  | VNum n => if inRange n then Some (NInt n) else None
  | VStr s => stringToNumber s
  | VArr _ _ | VObj _ => None
  end.

Definition toString (v : value) : option string :=
  match v with
  | VUndefined => Some "undefined"
  | VNull => Some "null"
  | VBool b => Some (if b then "true" else "false")
  | VNum n => if inRange n then Some (pretty n) else None
  | VNaN => Some "NaN"
  | VStr s => Some s
  | VArr _ _ | VObj _ => None
  end.

Definition ofNum (n : num) : value :=
  match n with
  | NInt z => VNum z
  | NNaN => VNaN
  end.

Definition arith (f : Z -> Z -> Z) (a b : value) : option value :=
  x ← toNumber a; y ← toNumber b;
  match x, y with
  | NInt m, NInt n => if inRange (f m n) then Some (VNum (f m n)) else None
  | _, _ => Some VNaN
  end.

(** [a + b]: concatenation as soon as one side is a string. *)
Definition plus (a b : value) : option value :=
  match a, b with
  | VStr _, _ | _, VStr _ =>
      x ← toString a; y ← toString b; Some (VStr (x +:+ y))
  | _, _ => arith Z.add a b
  end.

Fixpoint evalExpr (context : gmap string value) (e : expr) : option value :=
  match e with
  | ENum n => Some (VNum n)
  | EVar x => context !! x
  | EBin op l r =>
      a ← evalExpr context l; b ← evalExpr context r;
      match op with
      | Add => plus a b
      | Sub => arith Z.sub a b
      | Mul => arith Z.mul a b
      end
  end.

(** Names that a formula or a parameter list reads otherwise than as a
    plain variable: the reserved words, the names strict mode refuses
    as parameters, and the helpers, which shadow the context. *)
Definition specialNames : list string :=
  [ "break"; "case"; "catch"; "class"; "const"; "continue"; "debugger";
    "default"; "delete"; "do"; "else"; "enum"; "export"; "extends";
    "false"; "finally"; "for"; "function"; "if"; "import"; "in";
    "instanceof"; "new"; "null"; "return"; "super"; "switch"; "this";
    "throw"; "true"; "try"; "typeof"; "var"; "void"; "while"; "with";
    "let"; "static"; "implements"; "interface"; "package"; "private";
    "protected"; "public"; "yield"; "await"; "async"; "eval"; "arguments";
    "Date"; "Math"; "parseInt"; "parseFloat"; "calculateAge" ].

Definition plainName (x : string) : bool :=
  match x with
  | EmptyString => false
  | String c _ =>
      isLetter c
      && allChars (fun d => isLetter d || isDigit d) x
      && negb (existsb (String.eqb x) specialNames)
  end.

Definition countToken (t : token) (ts : list token) : nat :=
  List.length
    (List.filter
       (fun u => match t, u with
                 | TLParen, TLParen | TRParen, TRParen => true
                 | _, _ => false
                 end) ts).

(** The fragment: [None] outside it. Inside it, a formula whose
    parentheses do not pair up is a [SyntaxError] at construction; a
    formula that parses returns its value. *)
Definition fragment (formula : string) (context : gmap string value)
    : option (outcome value) :=
  if forallb plainName ((map_to_list context).*1) then
    match lex PNone formula with
    | Some ts =>
        if negb (Nat.eqb (countToken TLParen ts) (countToken TRParen ts))
        then Some Thrown
        else e ← parse ts; v ← evalExpr context e; Some (Returned v)
    | None => None
    end
  else None.

(** The engine used in the scenarios. Each scenario's formulas lie
    inside the fragment; the default is never what a result rests on. *)
Definition run (formula : string) (context : gmap string value) : outcome value :=
  default Thrown (fragment formula context).
End Engine.


(** ** The variable name, in the words of the specification

    Lower-case the label and replace every run of whitespace with a
    single underscore: the lower-cased label is cut into its maximal
    blocks of whitespace and of other characters, and each block of
    whitespace gives one underscore. Lower case and whitespace are
    given here by their tables, apart from the definitions the code's
    side uses. *)

(** The white-space characters below 256, one by one. *)
Definition whiteSpaceCodes : list nat := [9; 10; 11; 12; 13; 32; 160]%nat.

Definition isSpace (c : ascii) : bool :=
  existsb (Nat.eqb (nat_of_ascii c)) whiteSpaceCodes.








(** ** Schemas of the scenarios *)

Definition noValidation : Validation :=
  mkValidation false None None None None None None.

Definition requiredOnly : Validation :=
  mkValidation true None None None None None None.

(** An input field, as [addField] creates it and the author labels it. *)
Definition inputField (fid ty lbl : string) (vd : Validation) : Field :=
  mkField None None None fid ty lbl None None vd.

(** A field the author marks as derived. *)
Definition derivedField (fid lbl : string) (parents : list string) (fm : string)
    (vd : Validation) : Field :=
  mkField (Some true) (Some parents) (Some fm) fid "text" lbl None None vd.





Definition protoSchema : FormSchema :=
  mkFormSchema "proto"
    [ inputField "p" "text" "__PROTO__" noValidation;
      derivedField "d" "One" ["p"] "1" noValidation ].

(** Field A, a number labelled [Score], and field B derived from it by
    [score * 2]. *)
Definition scoreSchema : FormSchema :=
  mkFormSchema "scores"
    [ inputField "A" "number" "Score" noValidation;
      derivedField "B" "Double" ["A"] "score * 2" noValidation ].

(** An input [n], a derived field whose formula does not parse, and a
    derived field after it whose formula does. *)
Definition faultySchema : FormSchema :=
  mkFormSchema "faulty"
    [ inputField "n" "number" "Age" noValidation;
      derivedField "bad" "Broken" ["n"] "bad(((" noValidation;
      derivedField "good" "Next" ["n"] "age + 1" noValidation ].

(** A chain: B is derived from the input A, and C from B, which stands
    before it in the schema. *)
Definition chainSchema : FormSchema :=
  mkFormSchema "chain"
    [ inputField "A" "number" "a" noValidation;
      derivedField "B" "b" ["A"] "a * 2" noValidation;
      derivedField "C" "c" ["B"] "b * 2" noValidation ].

(** A text field labelled [Name] and a field derived from it by
    [name * 2]. *)
Definition nameSchema : FormSchema :=
  mkFormSchema "names"
    [ inputField "n" "text" "Name" noValidation;
      derivedField "d" "Twice" ["n"] "name * 2" noValidation ].

(** A required text field and a derived field that carries the same
    validation block. *)
Definition requiredSchema : FormSchema :=
  mkFormSchema "required"
    [ inputField "t" "text" "Name" requiredOnly;
      derivedField "d" "Copy" ["t"] "name" requiredOnly ].

(** The reading of the birth date in the age scenario. The text
    [2000-06-15] has the date-only form, which the platform takes as
    midnight UTC of that day; [getFullYear], [getMonth] and [getDate]
    then give the local day of that instant: the same day in a zone at
    or east of UTC, the day before in a zone west of it. The text
    [soon] is one the platform cannot read. Nothing else is read in the
    scenario. *)
Definition isLeapYear (y : Z) : bool :=
  (y mod 4 =? 0) && (negb (y mod 100 =? 0) || (y mod 400 =? 0)).

(** The days of a month, counted from [0] as [getMonth] does. *)
Definition daysInMonth (y m : Z) : Z :=
  if m =? 1 then (if isLeapYear y then 29 else 28)
  else if (m =? 3) || (m =? 5) || (m =? 8) || (m =? 10) then 30
  else 31.

Definition dayBefore (d : LocalDate) : LocalDate :=
  if 1 <? getDate d then mkLocalDate (getFullYear d) (getMonth d) (getDate d - 1)
  else if 0 <? getMonth d
       then mkLocalDate (getFullYear d) (getMonth d - 1)
              (daysInMonth (getFullYear d) (getMonth d - 1))
       else mkLocalDate (getFullYear d - 1) 11 31.

(** The local day of midnight UTC of a day. *)
Definition localDay (westOfUTC : bool) (utcDay : LocalDate) : LocalDate :=
  if westOfUTC then dayBefore utcDay else utcDay.

Definition readBirthDate (westOfUTC : bool) (v : value) : option LocalDate :=
  match v with
  | VStr s =>
      if String.eqb s "2000-06-15"
      then Some (localDay westOfUTC (mkLocalDate 2000 5 15))
      else None
  | _ => None
  end.

(** The stored records of the listing scenario: two saved forms, a
    record that is not JSON, and a key that is not a form. [dq] is the
    double quote. *)
Definition dq : string := String (ascii_of_nat 34) EmptyString.

Definition savedText (nm : string) : string :=
  "{" +:+ dq +:+ "name" +:+ dq +:+ ":" +:+ dq +:+ nm +:+ dq +:+ ","
  +:+ dq +:+ "fields" +:+ dq +:+ ":[]}".

Definition savedStore : list (string * string) :=
  [ ("form_A", savedText "A");
    ("form_broken", "{not json");
    ("theme", "dark");
    ("form_B", savedText "B") ].

(** [JSON.parse] on the texts of the scenario: the two saved forms
    parse to their schemas, the other texts are not JSON. *)
Definition parseSaved (raw : string) : outcome FormSchema :=
  if String.eqb raw (savedText "A") then Returned (mkFormSchema "A" [])
  else if String.eqb raw (savedText "B") then Returned (mkFormSchema "B" [])
  else Thrown.

(** Order on calendar days, and the day [n] years after a day. *)
Definition dateLt (a b : LocalDate) : Prop :=
  getFullYear a < getFullYear b
  \/ (getFullYear a = getFullYear b
      /\ (getMonth a < getMonth b
          \/ (getMonth a = getMonth b /\ getDate a < getDate b))).



(** ** The reconciler as a total function

    Neither copy of the reconciler can throw; what each returns is
    written here as a plain fold, the form the proofs work on. [ev] is
    the evaluator's value and [clears] tells whether a field whose
    parents are incomplete loses its entry (the preview renderer) or
    keeps it (the builder). *)

Module Total.
Section WithPlatform.
Variable run : string -> gmap string value -> outcome value.

Definition orError (o : outcome value) : value :=
  match o with
  | Returned v => v
  | Thrown => VStr "Error"
  end.

Definition previewValue (fm : string) (context : gmap string value) : value :=
  if existsb isBlank (JS.values context) then VStr EmptyString
  else orError (run fm context).

Definition builderValue (fm : string) (context : gmap string value) : value :=
  orError (run fm context).

Definition step (ev : string -> gmap string value -> value) (clears : bool)
    (fs : list Field) (cur : gmap string value)
    (st : gmap string value * bool) (field : Field)
    : gmap string value * bool :=
  match derivation field with
  | Some (parents, fm) =>
      if (buildContext fs cur parents).2 then
        let computedValue := ev fm (buildContext fs cur parents).1 in
        if strict_neq (JS.get st.1 (id field)) computedValue then
          (<[id field := computedValue]> st.1, true)
        else st
      else
        if clears && JS.has st.1 (id field) then (delete (id field) st.1, true)
        else st
  | None => st
  end.

Definition pass (ev : string -> gmap string value -> value) (clears : bool)
    (fs : list Field) (cur : gmap string value) : gmap string value * bool :=
  fold_left (step ev clears fs cur) fs (cur, false).

(** What [MyForms] keeps of one key. *)
Definition listed (JSON_parse : string -> outcome FormSchema)
    (store : list (string * string)) (key : string)
    : option (string * FormSchema) :=
  match Storage.getItem store key with
  | Some raw =>
      if String.eqb raw EmptyString then None
      else match JSON_parse raw with
           | Returned data => Some (key, data)
           | Thrown => None
           end
  | None => None
  end.

(** The entry a step leaves for its own field, read off the entry it
    found. *)
Definition entryAfter (ev : string -> gmap string value -> value) (clears : bool)
    (fs : list Field) (cur : gmap string value)
    (found : option value) (f : Field) : option value :=
  match derivation f with
  | Some (parents, fm) =>
      if (buildContext fs cur parents).2 then
        let computedValue := ev fm (buildContext fs cur parents).1 in
        if strict_neq (default VUndefined found) computedValue
        then Some computedValue else found
      else if clears then None else found
  | None => found
  end.
End WithPlatform.

(** What one parent contributes to the context: its variable name and
    its value in the map the reconciler was called with, when the id
    resolves in the schema and has an entry. *)
Definition binding (fs : list Field) (cur : gmap string value)
    (parentId : string) : option (string * value) :=
  match findField fs parentId with
  | Some parentField =>
      if JS.has cur parentId
      then Some (variableName (label parentField), JS.get cur parentId)
      else None
  | None => None
  end.
End Total.

(** ** The language of a regular expression *)

Inductive matches : regex -> string -> Prop :=
| MEps : matches REps EmptyString
| MClass p c : p c = true -> matches (RClass p) (String c EmptyString)
| MSeq r1 r2 s1 s2 :
    matches r1 s1 -> matches r2 s2 -> matches (RSeq r1 r2) (s1 +:+ s2)
| MAltL r1 r2 s : matches r1 s -> matches (RAlt r1 r2) s
| MAltR r1 r2 s : matches r2 s -> matches (RAlt r1 r2) s
| MStarNil r : matches (RStar r) EmptyString
| MStarCons r s1 s2 :
    matches r s1 -> matches (RStar r) s2 -> matches (RStar r) (s1 +:+ s2).

(** A string made of three non-empty parts without whitespace, joined
    by an at sign and a dot. *)
Definition emailShape (s : string) : Prop :=
  exists a b c,
    s = a +:+ "@" +:+ b +:+ "." +:+ c
    /\ a <> EmptyString /\ b <> EmptyString /\ c <> EmptyString
    /\ allChars (fun x => negb (isSpace x)) s = true.

(** A character that ends a line: line feed or carriage return. *)
Definition isLineEnd (c : ascii) : bool :=
  Nat.eqb (nat_of_ascii c) 10 || Nat.eqb (nat_of_ascii c) 13.

Definition anyChar (p : ascii -> bool) (s : string) : bool :=
  negb (allChars (fun c => negb (p c)) s).

(** At least eight characters, none of them ending a line, and a digit
    among them. *)
Definition passwordShape (s : string) : Prop :=
  (8 <= String.length s)%nat
  /\ allChars (fun c => negb (isLineEnd c)) s = true
  /\ anyChar isDigit s = true.

(** ** Scoring, field by field *)

(** The answer to a scored field is wrong: a radio or select field with
    a correct answer set whose value is not that answer; a checkbox
    field with correct answers set whose checked options differ from
    them in number or miss one of them. *)
Definition answeredWrong (values : gmap string value) (field : Field) : bool :=
  if String.eqb (type field) "radio" || String.eqb (type field) "select" then
    match correctAnswer (validation field) with
    | Some answer =>
        negb (String.eqb answer EmptyString)
        && strict_neq (JS.get values (id field)) (VStr answer)
    | None => false
    end
  else if String.eqb (type field) "checkbox" then
    match correctAnswers (validation field) with
    | Some correct =>
        let userAnswers := arrayOr (JS.get values (id field)) in
        negb (Nat.eqb (List.length userAnswers) (List.length correct))
        || negb (forallb (fun ans => includes ans userAnswers) correct)
    | None => false
    end
  else false.

(** The feedback lines of a list of fields, one after the other. *)
Fixpoint feedbackLines (fs : list Field) : string :=
  match fs with
  | [] => EmptyString
  | f :: rest => PreviewForm.incorrectLine f +:+ feedbackLines rest
  end.

(** ** Seeding *)

(** [v] is the value the load effect seeds field [f] with:
    [f.defaultValue || (f.type === 'checkbox' ? [] : '')]. *)
Definition isDefaultOf (f : Field) (v : value) : Prop :=
  match defaultValue f with
  | Some d =>
      if String.eqb d EmptyString then
        if String.eqb (type f) "checkbox" then exists r, v = VArr r []
        else v = VStr EmptyString
      else v = VStr d
  | None =>
      if String.eqb (type f) "checkbox" then exists r, v = VArr r []
      else v = VStr EmptyString
  end.

(** An input field that is seeded with the empty string. *)
Definition seededBlank (f : Field) : Prop :=
  isDerived f = false
  /\ type f <> "checkbox"
  /\ (defaultValue f = None \/ defaultValue f = Some EmptyString).

(** A checkbox question with two correct answers. *)
Definition quizField : Field :=
  mkField None None None "q" "checkbox" "Pick" None (Some ["a"; "b"; "c"])
    (mkValidation false None None None None (Some ["a"; "b"]) None).

(** A stored form with an input and a field derived from it. *)
Definition storedSchema : FormSchema :=
  mkFormSchema "stored"
    [ inputField "A" "number" "Score" noValidation;
      derivedField "B" "Double" ["A"] "score * 2" noValidation ].

Definition storedStore : list (string * string) := [ ("form_stored", "stored") ].

(** [JSON.parse] on the one text of that store. *)
Definition parseStored (raw : string) : outcome FormSchema :=
  if String.eqb raw "stored" then Returned storedSchema else Thrown.

(** ** Options of a choice field *)

(** The field has options, and at least two of them. *)
Definition hasTwoOptions (f : Field) : Prop :=
  exists opts, options f = Some opts /\ (2 <= List.length opts)%nat.

(** ** Stored records *)

(** The text [getAllForms] parses for a key:
    [localStorage.getItem(key) || '{}']. *)
Definition recordText (store : list (string * string)) (key : string) : string :=
  match Storage.getItem store key with
  | Some t => if String.eqb t EmptyString then "{}" else t
  | None => "{}"
  end.

(** [JSON.stringify] on the one schema of that store. *)
Definition stringifyStored (sch : FormSchema) (createdAt : string) : string :=
  "stored".

(** The body of the loop of [getAllForms], read by key. *)
Definition collectKey {A : Type} (JSON_parse : string -> outcome A)
    (store : list (string * string)) (forms : gmap string A) (key : string)
    : outcome (gmap string A) :=
  if negb (String.eqb key EmptyString) then
    do parsed <- JSON_parse (recordText store key);
    Returned (assign forms key parsed)
  else Returned forms.

(** ** Values that compare equal from one evaluation to the next *)

(** A value that [===] finds equal to the same value computed again: a
    primitive other than [NaN]. [NaN] differs from itself, and an array
    or object made by a formula is a new one at each evaluation. *)
Definition isPlain (v : value) : bool :=
  match v with
  | VNaN | VArr _ _ | VObj _ => false
  | _ => true
  end.

(** * Properties *)

(** Distinct ids, for a schema written out. *)
Ltac distinct_ids :=
  refine (@bool_decide_unpack _ (NoDup_dec _) _); vm_compute; exact I.

(** ** Loops that cannot throw *)

Lemma forEach_total {S A : Type} (body : S -> A -> outcome S) (g : S -> A -> S)
    (l : list A) (s : S) :
  (forall s' a, body s' a = Returned (g s' a)) ->
  forEach body l s = Returned (fold_left g l s).
Proof.
  intros Hbody. revert s.
  induction l as [|a l IH]; intros s; simpl; [reflexivity|].
  rewrite Hbody. simpl. apply IH.
Qed.

Section Reconciler.
Variable run : string -> gmap string value -> outcome value.

Lemma preview_evalFormula_total fm context :
  PreviewForm.evalFormula run fm context = Returned (Total.previewValue run fm context).
Proof.
  unfold PreviewForm.evalFormula, Total.previewValue.
  destruct (existsb isBlank (JS.values context)); [reflexivity|].
  destruct (run fm context); reflexivity.
Qed.

Lemma builder_evalFormula_total fm context :
  CreateForm.evalFormula run fm context = Returned (Total.builderValue run fm context).
Proof.
  unfold CreateForm.evalFormula, Total.builderValue.
  destruct (run fm context); reflexivity.
Qed.

Lemma preview_reconcileField_total fs cur st field :
  PreviewForm.reconcileField run fs cur st field
  = Returned (Total.step (Total.previewValue run) true fs cur st field).
Proof.
  unfold PreviewForm.reconcileField, Total.step.
  destruct st as [newValues hasChanges]; simpl.
  destruct (derivation field) as [[parents fm]|]; [|reflexivity].
  destruct (buildContext fs cur parents) as [context hasAll]; simpl.
  destruct hasAll.
  - rewrite preview_evalFormula_total. simpl.
    destruct (strict_neq _ _); reflexivity.
  - destruct (JS.has newValues (id field)); reflexivity.
Qed.

Lemma builder_reconcileField_total fs cur st field :
  CreateForm.reconcileField run fs cur st field
  = Returned (Total.step (Total.builderValue run) false fs cur st field).
Proof.
  unfold CreateForm.reconcileField, Total.step.
  destruct st as [newValues hasChanges]; simpl.
  destruct (derivation field) as [[parents fm]|]; [|reflexivity].
  destruct (buildContext fs cur parents) as [context hasAll]; simpl.
  destruct hasAll; [|reflexivity].
  rewrite builder_evalFormula_total. simpl.
  destruct (strict_neq _ _); reflexivity.
Qed.

(** What the preview renderer's [updateDerivedFields] returns. *)
Lemma preview_update_total sch cur :
  PreviewForm.updateDerivedFields run (Some sch) cur
  = Returned
      (let st := Total.pass (Total.previewValue run) true (fields sch) cur in
       if st.2 then (st.1, true) else (cur, false)).
Proof.
  unfold PreviewForm.updateDerivedFields, Total.pass.
  rewrite (forEach_total _ _ _ _ (preview_reconcileField_total (fields sch) cur)).
  simpl. destruct (fold_left _ _ _) as [m c]; simpl. destruct c; reflexivity.
Qed.

(** What the builder's [updateDerivedFields] hands to [setPreviewValues]. *)
Lemma builder_update_total fs cur :
  CreateForm.updateDerivedFields run fs cur
  = Returned
      (let st := Total.pass (Total.builderValue run) false fs cur in
       if st.2 then Some st.1 else None).
Proof.
  unfold CreateForm.updateDerivedFields, Total.pass.
  rewrite (forEach_total _ _ _ _ (builder_reconcileField_total fs cur)).
  simpl. destruct (fold_left _ _ _) as [m c]; simpl. destruct c; reflexivity.
Qed.
End Reconciler.

(** ** One pass, field by field *)

Section Pass.
Variable ev : string -> gmap string value -> value.
Variable clears : bool.
Variable fs : list Field.
Variable cur : gmap string value.

Local Abbreviation step := (Total.step ev clears fs cur).
Local Abbreviation entryAfter := (Total.entryAfter ev clears fs cur).

Lemma step_frame st f k :
  (is_Some (derivation f) -> id f <> k) ->
  (step st f).1 !! k = st.1 !! k.
Proof.
  intros Hk. unfold Total.step.
  destruct (derivation f) as [[parents fm]|]; [|reflexivity].
  assert (id f <> k) as Hne by (apply Hk; eauto).
  destruct (buildContext fs cur parents).2.
  - destruct (strict_neq _ _); [|reflexivity].
    simpl. by rewrite lookup_insert_ne.
  - destruct (clears && JS.has st.1 (id f)); [|reflexivity].
    simpl. by rewrite lookup_delete_ne.
Qed.

Lemma fold_frame l st k :
  (forall f, In f l -> is_Some (derivation f) -> id f <> k) ->
  (fold_left step l st).1 !! k = st.1 !! k.
Proof.
  revert st. induction l as [|f l IH]; intros st Hl; simpl; [reflexivity|].
  rewrite IH.
  - apply step_frame. intros Hd. apply Hl; [by left|done].
  - intros g Hg. apply Hl. by right.
Qed.

(** The flag is only ever raised, and a step that leaves it down has
    changed nothing. *)
Lemma step_flag_false st f : (step st f).2 = false -> step st f = st.
Proof.
  unfold Total.step.
  destruct (derivation f) as [[parents fm]|]; [|reflexivity].
  destruct (buildContext fs cur parents).2.
  - destruct (strict_neq _ _); [discriminate|reflexivity].
  - destruct (clears && JS.has st.1 (id f)); [discriminate|reflexivity].
Qed.

Lemma step_flag_true st f : st.2 = true -> (step st f).2 = true.
Proof.
  intros Hst. unfold Total.step.
  destruct (derivation f) as [[parents fm]|]; [|done].
  destruct (buildContext fs cur parents).2.
  - destruct (strict_neq _ _); done.
  - destruct (clears && JS.has st.1 (id f)); done.
Qed.

Lemma fold_flag_true l st : st.2 = true -> (fold_left step l st).2 = true.
Proof.
  revert st. induction l as [|f l IH]; intros st Hst; simpl; [done|].
  apply IH, step_flag_true, Hst.
Qed.

Lemma fold_flag_false l st :
  (fold_left step l st).2 = false -> fold_left step l st = st.
Proof.
  revert st. induction l as [|f l IH]; intros st Hfl; simpl in *; [done|].
  destruct (step st f).2 eqn:Hs.
  - rewrite fold_flag_true in Hfl; [discriminate|done].
  - apply step_flag_false in Hs. rewrite Hs in *. by apply IH.
Qed.

Lemma step_own st f : (step st f).1 !! id f = entryAfter (st.1 !! id f) f.
Proof.
  unfold Total.step, Total.entryAfter, JS.get, JS.has.
  destruct (derivation f) as [[parents fm]|]; [|reflexivity].
  destruct (buildContext fs cur parents).2.
  - destruct (strict_neq _ _); [|reflexivity].
    simpl. by rewrite lookup_insert_eq.
  - destruct clears; simpl; [|reflexivity].
    case_bool_decide as Hin; simpl.
    + by rewrite lookup_delete_eq.
    + destruct (st.1 !! id f); [|reflexivity]. exfalso. apply Hin. eauto.
Qed.

(** With distinct ids, the entry a pass leaves for a field is the one
    that field's own step makes of the entry the pass started from. *)
Lemma fold_own l st g :
  NoDup (map id l) -> In g l ->
  (fold_left step l st).1 !! id g = entryAfter (st.1 !! id g) g.
Proof.
  intros Hnd Hin.
  apply in_split in Hin as (pre & post & ->).
  rewrite map_app in Hnd. simpl in Hnd.
  rewrite fold_left_app. simpl.
  apply NoDup_app in Hnd as (_ & Hpre & Hpost).
  apply NoDup_cons in Hpost as [Hpost _].
  rewrite fold_frame.
  - rewrite step_own. f_equal. apply fold_frame.
    intros f Hf _ Heq. apply (Hpre (id f)).
    + apply list_elem_of_In, in_map, Hf.
    + rewrite Heq. left.
  - intros f Hf _ Heq. apply Hpost. rewrite <- Heq.
    apply list_elem_of_In, in_map, Hf.
Qed.
End Pass.

(** ** The dependency resolver *)

Section Resolver.
Variable fs : list Field.
Variable cur : gmap string value.

Local Abbreviation resolve := (resolveParent fs cur).
Local Abbreviation binding := (Total.binding fs cur).

Lemma resolve_binding c b p :
  resolve (c, b) p
  = match binding p with
    | Some (x, v) => (assign c x v, b)
    | None => (c, false)
    end.
Proof.
  unfold resolveParent, Total.binding.
  destruct (findField fs p); [|reflexivity].
  destruct (JS.has cur p); reflexivity.
Qed.

(** A parent whose name is not bound afterwards keeps its entry. *)
Lemma resolve_fold_keeps ps c b x v :
  c !! x = Some v ->
  (forall q y w, In q ps -> binding q = Some (y, w) -> y <> x) ->
  (fold_left resolve ps (c, b)).1 !! x = Some v.
Proof.
  revert c b. induction ps as [|q ps IH]; intros c b Hc Hlater;
    cbn [fold_left]; [done|].
  rewrite resolve_binding.
  destruct (binding q) as [[y w]|] eqn:Hq.
  - apply IH.
    + unfold assign. destruct (String.eqb y "__proto__"); [done|].
      rewrite lookup_insert_ne; [done|]. eapply Hlater; [by left|done].
    + intros q' y' w' Hin. apply Hlater. by right.
  - apply IH; [done|]. intros q' y' w' Hin. apply Hlater. by right.
Qed.


(** Every entry of the context is the value some parent has in the map
    the reconciler was called with. *)
Lemma resolve_fold_source ps c b x v :
  (fold_left resolve ps (c, b)).1 !! x = Some v ->
  c !! x = Some v \/ exists p, In p ps /\ binding p = Some (x, v).
Proof.
  revert c b. induction ps as [|q ps IH]; intros c b; cbn [fold_left]; [by left|].
  rewrite resolve_binding.
  destruct (binding q) as [[y w]|] eqn:Hq; intros Hx.
  - apply IH in Hx as [Hx|(p & Hp & Hb)].
    + unfold assign in Hx. destruct (String.eqb y "__proto__"); [by left|].
      destruct (decide (y = x)) as [->|Hne].
      * rewrite lookup_insert_eq in Hx. injection Hx as ->.
        right. exists q. split; [by left|done].
      * rewrite lookup_insert_ne in Hx by done. by left.
    + right. exists p. split; [by right|done].
  - apply IH in Hx as [Hx|(p & Hp & Hb)]; [by left|].
    right. exists p. split; [by right|done].
Qed.

(** [hasAllParents] holds exactly when every parent contributes. *)
Lemma resolve_fold_flag ps c b :
  (fold_left resolve ps (c, b)).2
  = b && forallb (fun p => bool_decide (is_Some (binding p))) ps.
Proof.
  revert c b. induction ps as [|q ps IH]; intros c b; cbn [fold_left forallb].
  - by rewrite andb_true_r.
  - rewrite resolve_binding.
    destruct (binding q) as [[y w]|] eqn:Hq; rewrite IH.
    + reflexivity.
    + change (bool_decide (is_Some (@None (string * value)))) with false.
      simpl. by rewrite andb_false_r.
Qed.

Lemma binding_Some p x v :
  binding p = Some (x, v) <->
  exists pf, findField fs p = Some pf /\ cur !! p = Some v
             /\ x = variableName (label pf).
Proof.
  unfold Total.binding, JS.has, JS.get. split.
  - destruct (findField fs p) as [pf|]; [|done].
    case_bool_decide as Hin; [|done].
    destruct Hin as [w Hw]. rewrite Hw. simpl.
    intros [= <- <-]. eauto.
  - intros (pf & -> & Hv & ->). rewrite Hv. reflexivity.
Qed.

Lemma hasAllParents_iff ps :
  (buildContext fs cur ps).2 = true <->
  forall p, In p ps -> is_Some (findField fs p) /\ is_Some (cur !! p).
Proof.
  unfold buildContext. rewrite resolve_fold_flag. simpl.
  rewrite forallb_forall. split.
  - intros H p Hp. apply H in Hp. apply bool_decide_eq_true in Hp as [[x v] Hb].
    apply binding_Some in Hb as (pf & Hf & Hv & _). eauto.
  - intros H p Hp. apply bool_decide_eq_true.
    destruct (H p Hp) as [[pf Hf] [v Hv]].
    exists (variableName (label pf), v). apply binding_Some. eauto.
Qed.
End Resolver.

(** ** Variable names *)

(** The code's classes are the tables. *)
Lemma isWhiteSpace_table c : isWhiteSpace c = isSpace c.
Proof. by destruct c as [[] [] [] [] [] [] [] []]. Qed.





Lemma lowerChar_whitespace c : isWhiteSpace (lowerChar c) = isWhiteSpace c.
Proof.
  unfold lowerChar. destruct (isUpper c) eqn:Hu; [|done].
  destruct c as [[] [] [] [] [] [] [] []]; try done; discriminate Hu.
Qed.

Lemma lowerChar_not_upper c : isUpper (lowerChar c) = false.
Proof.
  unfold lowerChar. destruct (isUpper c) eqn:Hu; [|done].
  destruct c as [[] [] [] [] [] [] [] []]; try done; discriminate Hu.
Qed.

(** No whitespace is left in a variable name, and no upper-case letter. *)
Lemma replaceWsRuns_clean b s :
  allChars (fun c => negb (isUpper c)) s = true ->
  allChars (fun c => negb (isWhiteSpace c) && negb (isUpper c))
           (replaceWsRuns "_" b s) = true.
Proof.
  revert b. induction s as [|c r IH]; intros b; [done|].
  cbn [allChars replaceWsRuns]. intros [Hc Hr]%andb_prop.
  destruct (isWhiteSpace c) eqn:Hw.
  - destruct b; [by apply IH|]. cbn. by apply IH.
  - cbn [allChars]. rewrite Hw, Hc. by apply IH.
Qed.

Lemma toLowerCase_no_upper s :
  allChars (fun c => negb (isUpper c)) (toLowerCase s) = true.
Proof.
  induction s as [|c r IH]; [done|].
  cbn [toLowerCase allChars]. by rewrite lowerChar_not_upper, IH.
Qed.

Lemma variableName_clean lbl :
  allChars (fun c => negb (isWhiteSpace c) && negb (isUpper c))
           (variableName lbl) = true.
Proof. apply replaceWsRuns_clean, toLowerCase_no_upper. Qed.

Example variableName_first_name :
  variableName "First Name" = "first_name"
  /\ variableName "first  name" = "first_name".
Proof. split; reflexivity. Qed.

(** Beyond ASCII: the capital E with acute accent (201) becomes the
    small one (233), and a no-break space (160) is white space. *)
Example variableName_latin1 :
  variableName (String (ascii_of_nat 201) "lan") = String (ascii_of_nat 233) "lan"
  /\ variableName (String "a" (String (ascii_of_nat 160) "b")) = "a_b".
Proof. split; reflexivity. Qed.

(** A parent that contributes, whose variable name is not [__proto__]
    and is taken by no later parent, has its value in the context under
    that name. *)
Lemma context_entry (fs : list Field) (cur : gmap string value)
    (earlier later : list string) (p : string) (pf : Field) (v : value) :
  findField fs p = Some pf ->
  cur !! p = Some v ->
  variableName (label pf) <> "__proto__" ->
  (forall q qf, In q later -> findField fs q = Some qf -> is_Some (cur !! q) ->
                variableName (label qf) <> variableName (label pf)) ->
  (buildContext fs cur (earlier ++ p :: later)).1 !! variableName (label pf)
  = Some v.
Proof.
  intros Hpf Hv Hname Hlater. unfold buildContext.
  rewrite fold_left_app. cbn [fold_left].
  destruct (fold_left (resolveParent fs cur) earlier (∅, true)) as [c b].
  rewrite resolve_binding.
  assert (Total.binding fs cur p = Some (variableName (label pf), v)) as ->
    by (apply binding_Some; eauto).
  apply resolve_fold_keeps.
  { unfold assign. apply String.eqb_neq in Hname. rewrite Hname.
    apply lookup_insert_eq. }
  intros q y w Hq (qf & Hqf & Hw & ->)%binding_Some.
  eapply Hlater; eauto.
Qed.



(** A parent labelled [__PROTO__] with the value [''] and a field
    derived from it by the formula [1]: the context is empty, so the
    blank is not seen and the derived field gets [1], where a parent
    under any other name would have given the empty string. *)
Example proto_parent_is_not_seen :
  variableName "__PROTO__" = "__proto__"
  /\ buildContext (fields protoSchema) {[ "p" := VStr EmptyString ]} ["p"] = (∅, true)
  /\ exists out,
       PreviewForm.handleChange Engine.run (Some protoSchema) ∅ "p" (VStr EmptyString)
       = Returned out
       /\ out !! "d" = Some (VNum 1).
Proof.
  split; [reflexivity|]. split; [reflexivity|].
  eexists. split; vm_compute; reflexivity.
Qed.

(** ** What a pass leaves alone *)

Section Frame.
Variable run : string -> gmap string value -> outcome value.

(** The map the preview renderer returns is the map the pass built,
    and the flag is the pass's flag. *)
Lemma preview_update_pass sch cur :
  PreviewForm.updateDerivedFields run (Some sch) cur
  = Returned ((Total.pass (Total.previewValue run) true (fields sch) cur).1,
              (Total.pass (Total.previewValue run) true (fields sch) cur).2).
Proof.
  rewrite preview_update_total. cbn zeta.
  destruct (Total.pass _ _ _ _).2 eqn:Hfl; [reflexivity|].
  unfold Total.pass in *. apply fold_flag_false in Hfl. by rewrite Hfl.
Qed.

Lemma preview_update_no_schema cur :
  PreviewForm.updateDerivedFields run None cur = Returned (cur, false).
Proof. reflexivity. Qed.

(** C10. A pass of either reconciler agrees with the map it was given
    on every key that is not the id of a field passing the guard
    [field.derived && field.parentFields && field.formula]: only the
    entries of such fields are added, changed or removed. *)
Theorem reconcile_frame (sch : FormSchema) (cur : gmap string value) (k : string) :
  (forall f, In f (fields sch) -> is_Some (derivation f) -> id f <> k) ->
  (exists out changed,
      PreviewForm.updateDerivedFields run (Some sch) cur = Returned (out, changed)
      /\ out !! k = cur !! k)
  /\ (exists set,
         CreateForm.updateDerivedFields run (fields sch) cur = Returned set
         /\ forall out, set = Some out -> out !! k = cur !! k).
Proof.
  intros Hk. split.
  - eexists _, _. split; [apply preview_update_pass|].
    unfold Total.pass. by rewrite fold_frame.
  - eexists. split; [apply builder_update_total|].
    cbn zeta. intros out. destruct (Total.pass _ _ _ _).2; [|done].
    intros [= <-]. unfold Total.pass. by rewrite fold_frame.
Qed.
End Frame.

Lemma reconcile_frame_witness :
  (exists out changed,
      PreviewForm.updateDerivedFields Engine.run (Some scoreSchema)
        {[ "A" := VStr "10" ]} = Returned (out, changed)
      /\ out !! "A" = ({[ "A" := VStr "10" ]} : gmap string value) !! "A")
  /\ (exists set,
         CreateForm.updateDerivedFields Engine.run (fields scoreSchema)
           {[ "A" := VStr "10" ]} = Returned set
         /\ forall out, set = Some out ->
                        out !! "A" = ({[ "A" := VStr "10" ]} : gmap string value) !! "A").
Proof.
  apply (reconcile_frame Engine.run scoreSchema {[ "A" := VStr "10" ]} "A").
  intros f [<-|[<-|[]]].
  - intros [d Hd]. discriminate Hd.
  - intros _. discriminate.
Defined.

(** ** The evaluator *)

Section Evaluator.
Variable run : string -> gmap string value -> outcome value.

Lemma preview_reconciled_entry sch cur g :
  NoDup (map id (fields sch)) -> In g (fields sch) ->
  exists out changed,
    PreviewForm.updateDerivedFields run (Some sch) cur = Returned (out, changed)
    /\ out !! id g
       = Total.entryAfter (Total.previewValue run) true (fields sch) cur
           (cur !! id g) g.
Proof.
  intros Hnd Hin. eexists _, _. split; [apply preview_update_pass|].
  unfold Total.pass. by rewrite fold_own.
Qed.

Lemma builder_reconciled_entry fs cur g :
  NoDup (map id fs) -> In g fs ->
  exists set,
    CreateForm.updateDerivedFields run fs cur = Returned set
    /\ forall out, set = Some out ->
         out !! id g
         = Total.entryAfter (Total.builderValue run) false fs cur (cur !! id g) g.
Proof.
  intros Hnd Hin. eexists. split; [apply builder_update_total|].
  cbn zeta. intros out. destruct (Total.pass _ _ _ _).2; [|done].
  intros [= <-]. unfold Total.pass. by rewrite fold_own.
Qed.

End Evaluator.

(** The two evaluations the specification gives as examples, in both
    copies of the evaluator. *)
Example evaluate_age_plus_one :
  Engine.fragment "age + 1" {[ "age" := VNum 5 ]} = Some (Returned (VNum 6))
  /\ PreviewForm.evalFormula Engine.run "age + 1" {[ "age" := VNum 5 ]}
     = Returned (VNum 6)
  /\ CreateForm.evalFormula Engine.run "age + 1" {[ "age" := VNum 5 ]}
     = Returned (VNum 6).
Proof. repeat split; vm_compute; reflexivity. Qed.

Example evaluate_bad_formula :
  Engine.fragment "bad(((" ∅ = Some Thrown
  /\ PreviewForm.evalFormula Engine.run "bad(((" ∅ = Returned (VStr "Error")
  /\ CreateForm.evalFormula Engine.run "bad(((" ∅ = Returned (VStr "Error").
Proof. repeat split; vm_compute; reflexivity. Qed.

(** A field whose formula fails shows [Error]; the field after it is
    computed all the same. *)
Example faulty_field_does_not_stop_the_pass :
  exists out,
    PreviewForm.updateDerivedFields Engine.run (Some faultySchema)
      {[ "n" := VNum 5 ]} = Returned (out, true)
    /\ out !! "bad" = Some (VStr "Error")
    /\ out !! "good" = Some (VNum 6)
    /\ out !! "n" = Some (VNum 5).
Proof. eexists. split; [vm_compute; reflexivity|]. repeat split; vm_compute; reflexivity. Qed.


(** ** The short circuit on blank values *)

Lemma values_blank (context : gmap string value) (x : string) (v : value) :
  context !! x = Some v -> isBlank v = true ->
  existsb isBlank (JS.values context) = true.
Proof.
  intros Hx Hv. apply existsb_exists. exists v. split; [|done].
  apply list_elem_of_In. unfold JS.values.
  apply list_elem_of_fmap. exists (x, v). split; [done|].
  by apply elem_of_map_to_list.
Qed.

Lemma isBlank_iff v :
  isBlank v = true <-> v = VStr EmptyString \/ v = VUndefined \/ v = VNull.
Proof.
  split.
  - destruct v as [| |b|n| |s|r items|r]; try done; eauto.
    destruct s; [eauto|done].
  - intros [->|[->| ->]]; reflexivity.
Qed.

(** The preview renderer's evaluator returns the empty string as soon as
    one value of the context is the empty string, [undefined] or [null],
    and does so whatever the engine would have done with the formula. *)
Lemma preview_evalFormula_short_circuit
    (run : string -> gmap string value -> outcome value)
    (fm : string) (context : gmap string value) (x : string) (v : value) :
  context !! x = Some v ->
  v = VStr EmptyString \/ v = VUndefined \/ v = VNull ->
  PreviewForm.evalFormula run fm context = Returned (VStr EmptyString).
Proof.
  intros Hx Hv. unfold PreviewForm.evalFormula. cbn zeta.
  rewrite (values_blank context x v Hx); [reflexivity|].
  by apply isBlank_iff.
Qed.

(** C3, on the builder's copy. The builder's evaluator has no such
    guard: with the context [{score: ''}] it runs [score * 2], and the
    product of the empty string and [2] is [0]. The preview renderer's
    copy returns the empty string on the same input. *)
Theorem builder_evalFormula_runs_on_blank :
  Engine.fragment "score * 2" {[ "score" := VStr EmptyString ]}
  = Some (Returned (VNum 0))
  /\ CreateForm.evalFormula Engine.run "score * 2" {[ "score" := VStr EmptyString ]}
     = Returned (VNum 0)
  /\ PreviewForm.evalFormula Engine.run "score * 2" {[ "score" := VStr EmptyString ]}
     = Returned (VStr EmptyString).
Proof. repeat split; vm_compute; reflexivity. Qed.

(** In the builder's live preview, clearing the parent leaves [0] in the
    derived field. *)
Example builder_preview_after_clearing :
  exists out,
    CreateForm.handlePreviewChange Engine.run (fields scoreSchema)
      {[ "A" := VStr "10"; "B" := VNum 20 ]} "A" (VStr EmptyString) = Returned out
    /\ out !! "B" = Some (VNum 0).
Proof. eexists. split; vm_compute; reflexivity. Qed.

(** ** Incomplete and blank parents *)

Lemma strict_eq_string v s : strict_eq v (VStr s) = true -> v = VStr s.
Proof.
  destruct v as [| |b|n| |t|r items|r]; try done.
  simpl. by intros ->%String.eqb_eq.
Qed.

(** C1, as the code has it. A derived field loses its entry when one of
    its parent ids does not resolve in the schema or has no entry in the
    value map. When every parent resolves and has an entry, and the
    value of one of them is the empty string, [undefined] or [null]
    (its variable name is not [__proto__], under which the context gets
    no entry, and no later parent takes the name over), the derived
    field's entry is present after the pass and is the empty string. In
    both cases the value it held before plays no part. *)
Theorem blank_parent_gives_empty_string
    (run : string -> gmap string value -> outcome value)
    (sch : FormSchema) (cur : gmap string value) (g : Field)
    (ps : list string) (fm : string) :
  NoDup (map id (fields sch)) ->
  In g (fields sch) ->
  derivation g = Some (ps, fm) ->
  exists out changed,
    PreviewForm.updateDerivedFields run (Some sch) cur = Returned (out, changed)
    /\ ((exists p, In p ps /\ (findField (fields sch) p = None \/ cur !! p = None)) ->
        out !! id g = None)
    /\ (forall (earlier : list string) p later pf v,
          ps = (earlier ++ p :: later)%list ->
          (forall q, In q ps ->
             is_Some (findField (fields sch) q) /\ is_Some (cur !! q)) ->
          findField (fields sch) p = Some pf ->
          cur !! p = Some v ->
          v = VStr EmptyString \/ v = VUndefined \/ v = VNull ->
          variableName (label pf) <> "__proto__" ->
          (forall q qf, In q later -> findField (fields sch) q = Some qf ->
             is_Some (cur !! q) ->
             variableName (label qf) <> variableName (label pf)) ->
          out !! id g = Some (VStr EmptyString)).
Proof.
  intros Hnd Hin Hd.
  destruct (preview_reconciled_entry run sch cur g Hnd Hin) as (out & changed & Hout & Hg).
  exists out, changed. split; [done|].
  rewrite Hg. unfold Total.entryAfter. rewrite Hd. split.
  - intros (p & Hp & Hmiss).
    destruct (buildContext (fields sch) cur ps).2 eqn:Hall; [|done].
    apply hasAllParents_iff with (p := p) in Hall as [[pf Hpf] [v Hv]]; [|done].
    destruct Hmiss; congruence.
  - intros earlier p later pf v -> Hall Hpf Hv Hblank Hname Hlater.
    apply hasAllParents_iff in Hall. rewrite Hall. cbn zeta.
    assert (Total.previewValue run fm
              (buildContext (fields sch) cur (earlier ++ p :: later)).1
            = VStr EmptyString) as ->.
    { unfold Total.previewValue.
      rewrite (values_blank _ (variableName (label pf)) v); [done| |by apply isBlank_iff].
      by apply context_entry. }
    unfold strict_neq.
    destruct (strict_eq _ _) eqn:Heq; [|done]. simpl.
    apply strict_eq_string in Heq.
    destruct (cur !! id g); simpl in Heq; [by subst|done].
Qed.

Lemma blank_parent_gives_empty_string_witness :
  exists out changed,
    PreviewForm.updateDerivedFields Engine.run (Some scoreSchema)
      {[ "A" := VStr EmptyString; "B" := VNum 20 ]} = Returned (out, changed)
    /\ out !! "B" = Some (VStr EmptyString).
Proof.
  destruct (blank_parent_gives_empty_string Engine.run scoreSchema
              {[ "A" := VStr EmptyString; "B" := VNum 20 ]}
              (derivedField "B" "Double" ["A"] "score * 2" noValidation)
              ["A"] "score * 2")
    as (out & changed & Hout & _ & Hblank).
  - distinct_ids.
  - right. by left.
  - reflexivity.
  - exists out, changed. split; [exact Hout|].
    apply (Hblank [] "A" [] (inputField "A" "number" "Score" noValidation)
             (VStr EmptyString)).
    + reflexivity.
    + intros q [<-|[]]. split; eexists; reflexivity.
    + reflexivity.
    + reflexivity.
    + by left.
    + discriminate.
    + intros q qf [].
Defined.

(** The scenario of the specification: with A set to ["10"], B becomes
    [20]; when A is then cleared, B's entry is still there and holds the
    empty string. *)
Lemma cleared_parent_keeps_entry :
  exists set cleared,
    PreviewForm.handleChange Engine.run (Some scoreSchema)
      {[ "A" := VStr EmptyString ]} "A" (VStr "10") = Returned set
    /\ set !! "B" = Some (VNum 20)
    /\ PreviewForm.handleChange Engine.run (Some scoreSchema) set "A" (VStr EmptyString)
       = Returned cleared
    /\ cleared !! "A" = Some (VStr EmptyString)
    /\ cleared !! "B" = Some (VStr EmptyString)
    /\ cleared !! "B" <> None.
Proof.
  eexists _, _. split; [vm_compute; reflexivity|].
  split; [vm_compute; reflexivity|].
  split; [vm_compute; reflexivity|].
  split; [vm_compute; reflexivity|].
  split; [vm_compute; reflexivity|].
  vm_compute. discriminate.
Qed.

(** ** Schema order *)

Lemma findField_Some fs p f :
  findField fs p = Some f -> In f fs /\ id f = p.
Proof.
  unfold findField. intros [Hin Heq]%find_some.
  by apply String.eqb_eq in Heq.
Qed.

Lemma findField_unique fs p f :
  NoDup (map id fs) -> In f fs -> id f = p -> findField fs p = Some f.
Proof.
  unfold findField. induction fs as [|g fs IH]; intros Hnd Hin Hid; [done|].
  cbn [map] in Hnd. apply NoDup_cons in Hnd as [Hg Hnd].
  cbn [find]. destruct (String.eqb (id g) p) eqn:Hgp.
  - apply String.eqb_eq in Hgp. destruct Hin as [->|Hin]; [done|].
    exfalso. apply Hg. rewrite Hgp, <- Hid.
    apply list_elem_of_In, in_map, Hin.
  - destruct Hin as [->|Hin]; [|by apply IH].
    apply String.eqb_neq in Hgp. done.
Qed.

(** ** Derived parents *)

(** What the builder's preview values are after [updateDerivedFields]:
    the map handed to [setPreviewValues] when the call is made, the map
    given when it is not. *)
Lemma builder_left_entry (run : string -> gmap string value -> outcome value)
    (fs : list Field) (cur : gmap string value) (g : Field) :
  NoDup (map id fs) -> In g fs ->
  exists set,
    CreateForm.updateDerivedFields run fs cur = Returned set
    /\ default cur set !! id g
       = Total.entryAfter (Total.builderValue run) false fs cur (cur !! id g) g.
Proof.
  intros Hnd Hin. eexists. split; [apply builder_update_total|]. cbn zeta.
  pose proof (fold_own (Total.builderValue run) false fs cur fs (cur, false) g Hnd Hin)
    as Hown.
  cbn [fst] in Hown. rewrite <- Hown. unfold Total.pass.
  destruct (fold_left _ _ _).2 eqn:Hfl; [done|].
  apply fold_flag_false in Hfl. by rewrite Hfl.
Qed.

(** C2, as the code has it. The context of a derived field is built from
    the map the pass was called with: each of its entries is the value
    some parent had before the pass. So the entry a pass leaves for a
    derived field is the one its own step makes of the map the pass
    started from, wherever the schema places a derived parent: in the
    map the preview renderer returns, and in the builder's preview
    values after the call (the map handed to [setPreviewValues] when
    there is one, the map given otherwise). *)
Theorem derived_parent_read_before_pass
    (run : string -> gmap string value -> outcome value)
    (sch : FormSchema) (cur : gmap string value) (g : Field)
    (ps : list string) (fm : string) :
  NoDup (map id (fields sch)) ->
  In g (fields sch) ->
  derivation g = Some (ps, fm) ->
  (forall x v,
      (buildContext (fields sch) cur ps).1 !! x = Some v ->
      exists p pf, In p ps /\ findField (fields sch) p = Some pf
                   /\ x = variableName (label pf) /\ cur !! p = Some v)
  /\ (exists out changed,
         PreviewForm.updateDerivedFields run (Some sch) cur = Returned (out, changed)
         /\ out !! id g
            = if (buildContext (fields sch) cur ps).2 then
                let computedValue :=
                  Total.previewValue run fm (buildContext (fields sch) cur ps).1 in
                if strict_neq (JS.get cur (id g)) computedValue
                then Some computedValue else cur !! id g
              else None)
  /\ (exists set,
         CreateForm.updateDerivedFields run (fields sch) cur = Returned set
         /\ default cur set !! id g
            = if (buildContext (fields sch) cur ps).2 then
                let computedValue :=
                  Total.builderValue run fm (buildContext (fields sch) cur ps).1 in
                if strict_neq (JS.get cur (id g)) computedValue
                then Some computedValue else cur !! id g
              else cur !! id g).
Proof.
  intros Hnd Hin Hd. split; [|split].
  - intros x v Hx. unfold buildContext in Hx.
    apply resolve_fold_source in Hx as [Hx|(p & Hp & Hb)]; [done|].
    apply binding_Some in Hb as (pf & Hpf & Hv & ->). eauto 10.
  - destruct (preview_reconciled_entry run sch cur g Hnd Hin)
      as (out & changed & Hout & Hg).
    exists out, changed. split; [done|].
    rewrite Hg. unfold Total.entryAfter. by rewrite Hd.
  - destruct (builder_left_entry run (fields sch) cur g Hnd Hin) as (set & Hset & Hg).
    exists set. split; [done|].
    rewrite Hg. unfold Total.entryAfter. by rewrite Hd.
Qed.

Lemma derived_parent_read_before_pass_witness :
  exists out changed,
    PreviewForm.updateDerivedFields Engine.run (Some chainSchema)
      {[ "A" := VStr "5"; "B" := VNum 4; "C" := VNum 8 ]} = Returned (out, changed)
    /\ out !! "C" = Some (VNum 8).
Proof.
  destruct (derived_parent_read_before_pass Engine.run chainSchema
              {[ "A" := VStr "5"; "B" := VNum 4; "C" := VNum 8 ]}
              (derivedField "C" "c" ["B"] "b * 2" noValidation)
              ["B"] "b * 2")
    as (_ & (out & changed & Hout & HC) & _).
  - distinct_ids.
  - right. right. by left.
  - reflexivity.
  - exists out, changed. split; [exact Hout|]. exact HC.
Defined.

(** The derived parent B stands before C in the schema. When A goes
    from ["2"] to ["5"], the pass sets B to [10], and C is computed from
    the [4] that B held before the pass: it stays [8], not [20]. *)
Lemma earlier_derived_parent_is_read_stale :
  exists out,
    PreviewForm.handleChange Engine.run (Some chainSchema)
      {[ "A" := VStr "2"; "B" := VNum 4; "C" := VNum 8 ]} "A" (VStr "5")
    = Returned out
    /\ out !! "B" = Some (VNum 10)
    /\ out !! "C" = Some (VNum 8)
    /\ out !! "C" <> Some (VNum 20).
Proof.
  eexists. split; [vm_compute; reflexivity|].
  split; [vm_compute; reflexivity|].
  split; [vm_compute; reflexivity|].
  vm_compute. discriminate.
Qed.

(** ** A second pass *)

Section FixedPoint.
Variable ev : string -> gmap string value -> value.
Variable clears : bool.
Variable fs : list Field.

(** The context depends on the value map through the parents' entries
    only. *)
Lemma buildContext_ext (m m' : gmap string value) ps :
  (forall p, In p ps -> m !! p = m' !! p) ->
  buildContext fs m ps = buildContext fs m' ps.
Proof.
  unfold buildContext. generalize (∅ : gmap string value, true).
  induction ps as [|p ps IH]; intros st Hps; [done|].
  cbn [fold_left].
  assert (resolveParent fs m st p = resolveParent fs m' st p) as ->.
  { unfold resolveParent, JS.has, JS.get. rewrite (Hps p) by (by left). done. }
  apply IH. intros q Hq. apply Hps. by right.
Qed.

Lemma fold_still l st (m : gmap string value) :
  (forall g, In g l -> Total.step ev clears fs m st g = st) ->
  fold_left (Total.step ev clears fs m) l st = st.
Proof.
  intros Hl. induction l as [|g l IH]; [done|].
  cbn [fold_left]. rewrite Hl by (by left).
  apply IH. intros g' Hg'. apply Hl. by right.
Qed.

(** With distinct ids, no derived field among the parents of a derived
    field, and computed values that are strictly equal to themselves,
    the map a pass produces is left unchanged by the next pass. *)
Lemma pass_fixed_point (cur : gmap string value) :
  NoDup (map id fs) ->
  (forall g ps fm p f,
      In g fs -> derivation g = Some (ps, fm) -> In p ps ->
      In f fs -> is_Some (derivation f) -> id f <> p) ->
  (forall g ps fm,
      In g fs -> derivation g = Some (ps, fm) ->
      (buildContext fs cur ps).2 = true ->
      strict_eq (ev fm (buildContext fs cur ps).1)
                (ev fm (buildContext fs cur ps).1) = true) ->
  Total.pass ev clears fs (Total.pass ev clears fs cur).1
  = ((Total.pass ev clears fs cur).1, false).
Proof.
  intros Hnd Hflat Hself.
  set (m1 := (Total.pass ev clears fs cur).1).
  assert (forall g ps fm, In g fs -> derivation g = Some (ps, fm) ->
            buildContext fs m1 ps = buildContext fs cur ps) as Hctx.
  { intros g ps fm Hg Hd. apply buildContext_ext. intros p Hp.
    unfold m1, Total.pass. apply fold_frame.
    intros f Hf Hdf. by apply (Hflat g ps fm p f). }
  assert (forall g, In g fs ->
            Total.step ev clears fs m1 (m1, false) g = (m1, false)) as Hstill.
  { intros g Hg. unfold Total.step.
    destruct (derivation g) as [[ps fm]|] eqn:Hd; [|done].
    rewrite (Hctx g ps fm Hg Hd). cbn [fst snd].
    assert (m1 !! id g = Total.entryAfter ev clears fs cur (cur !! id g) g) as Hown
      by (unfold m1, Total.pass; by rewrite fold_own).
    unfold Total.entryAfter in Hown. rewrite Hd in Hown.
    destruct (buildContext fs cur ps).2 eqn:Hall.
    - cbn zeta in Hown. unfold JS.get. unfold strict_neq in *.
      destruct (strict_eq (default VUndefined (cur !! id g)) _) eqn:Heq;
        cbn [negb] in Hown; rewrite Hown.
      + rewrite Heq. reflexivity.
      + simpl. rewrite (Hself g ps fm Hg Hd Hall). reflexivity.
    - assert (clears && JS.has m1 (id g) = false) as ->; [|reflexivity].
      unfold JS.has. rewrite Hown. clear. case clears; reflexivity. }
  unfold Total.pass at 1. fold m1. by apply fold_still.
Qed.
End FixedPoint.

(** For schemas without chains whose formulas give values equal to
    themselves, the second call of the preview renderer's reconciler
    reports no change. *)
Lemma preview_second_pass_unchanged
    (run : string -> gmap string value -> outcome value)
    (sch : FormSchema) (cur : gmap string value) :
  NoDup (map id (fields sch)) ->
  (forall g ps fm p f,
      In g (fields sch) -> derivation g = Some (ps, fm) -> In p ps ->
      In f (fields sch) -> is_Some (derivation f) -> id f <> p) ->
  (forall g ps fm,
      In g (fields sch) -> derivation g = Some (ps, fm) ->
      (buildContext (fields sch) cur ps).2 = true ->
      strict_eq (Total.previewValue run fm (buildContext (fields sch) cur ps).1)
                (Total.previewValue run fm (buildContext (fields sch) cur ps).1)
      = true) ->
  exists out changed,
    PreviewForm.updateDerivedFields run (Some sch) cur = Returned (out, changed)
    /\ PreviewForm.updateDerivedFields run (Some sch) out = Returned (out, false).
Proof.
  intros Hnd Hflat Hself. eexists _, _. split; [apply preview_update_pass|].
  rewrite preview_update_pass.
  by rewrite (pass_fixed_point _ true (fields sch) cur Hnd Hflat Hself).
Qed.

(** C6, where the code falls short. The text field holds ["abc"] and the
    derived field's formula is [name * 2]: the product is [NaN]. The
    first pass stores it and reports a change; the second pass compares
    the stored [NaN] with the new one by [!==], finds them different,
    and reports a change again, on the very map the first pass
    produced. *)
Theorem nan_defeats_change_detection :
  Engine.fragment "name * 2" {[ "name" := VStr "abc" ]} = Some (Returned VNaN)
  /\ exists first second,
       PreviewForm.updateDerivedFields Engine.run (Some nameSchema)
         {[ "n" := VStr "abc" ]} = Returned (first, true)
       /\ first !! "d" = Some VNaN
       /\ PreviewForm.updateDerivedFields Engine.run (Some nameSchema) first
          = Returned (second, true).
Proof.
  split; [vm_compute; reflexivity|].
  eexists _, _. split; [vm_compute; reflexivity|].
  split; vm_compute; reflexivity.
Qed.

(** ** Validation on submit *)

Section Submit.
Variable values : gmap string value.

Local Abbreviation check := (PreviewForm.submitField values).

Lemma submit_frame l (errs : gmap string string) k :
  (forall f, In f l -> isDerived f = false -> id f <> k) ->
  fold_left check l errs !! k = errs !! k.
Proof.
  revert errs. induction l as [|f l IH]; intros errs Hl; [done|].
  cbn [fold_left]. rewrite IH by (intros g Hg; apply Hl; by right).
  unfold PreviewForm.submitField.
  destruct (isDerived f) eqn:Hf; [done|]. cbn [negb].
  destruct (negb _); [|done].
  rewrite lookup_insert_ne; [done|]. apply Hl; [by left|done].
Qed.

(** Every error recorded comes from validating a field that is not
    derived. *)
Lemma submit_source l (errs : gmap string string) k e :
  fold_left check l errs !! k = Some e ->
  errs !! k = Some e
  \/ exists f, In f l /\ isDerived f = false /\ id f = k
               /\ e = PreviewForm.validateField f (JS.get values k)
               /\ e <> EmptyString.
Proof.
  revert errs. induction l as [|f l IH]; intros errs; [by left|].
  cbn [fold_left]. intros [He|(g & Hg & Hrest)]%IH.
  - unfold PreviewForm.submitField in He.
    destruct (isDerived f) eqn:Hf; [by left|]. cbn [negb] in He.
    destruct (String.eqb _ _) eqn:Herr; cbn [negb] in He; [by left|].
    destruct (decide (id f = k)) as [<-|Hne].
    + rewrite lookup_insert_eq in He. injection He as <-.
      right. exists f. split; [by left|]. repeat split; try done.
      by apply String.eqb_neq.
    + rewrite lookup_insert_ne in He by done. by left.
  - right. exists g. split; [by right|done].
Qed.

Lemma submit_own l (errs : gmap string string) f :
  NoDup (map id l) -> In f l -> isDerived f = false ->
  PreviewForm.validateField f (JS.get values (id f)) <> EmptyString ->
  fold_left check l errs !! id f
  = Some (PreviewForm.validateField f (JS.get values (id f))).
Proof.
  intros Hnd Hin Hf Herr.
  apply in_split in Hin as (pre & post & ->).
  rewrite map_app in Hnd. cbn [map] in Hnd.
  apply NoDup_app in Hnd as (_ & _ & Hpost).
  apply NoDup_cons in Hpost as [Hpost _].
  rewrite fold_left_app. cbn [fold_left].
  rewrite submit_frame.
  - unfold PreviewForm.submitField. rewrite Hf. cbn [negb].
    apply String.eqb_neq in Herr. rewrite Herr. cbn [negb].
    apply lookup_insert_eq.
  - intros g Hg _ Heq. apply Hpost. rewrite <- Heq.
    apply list_elem_of_In, in_map, Hg.
Qed.
End Submit.

(** C9. On submit, a field that is not derived, is required and holds
    the empty string gets the required-field message; a field marked as
    derived gets no message, whatever its own validation block and
    value (ids being distinct); and every message recorded comes from
    validating a field that is not derived. *)
Theorem submit_validates_inputs_only (sch : FormSchema)
    (values : gmap string value) (f : Field) :
  NoDup (map id (fields sch)) ->
  In f (fields sch) ->
  (isDerived f = false -> required (validation f) = true ->
   values !! id f = Some (VStr EmptyString) ->
   PreviewForm.submitErrors (Some sch) values !! id f
   = Some "This field is required.")
  /\ (isDerived f = true ->
      PreviewForm.submitErrors (Some sch) values !! id f = None)
  /\ (forall k e,
        PreviewForm.submitErrors (Some sch) values !! k = Some e ->
        exists g, In g (fields sch) /\ isDerived g = false /\ id g = k
                  /\ e = PreviewForm.validateField g (JS.get values k)).
Proof.
  intros Hnd Hin. unfold PreviewForm.submitErrors. split; [|split].
  - intros Hf Hreq Hv.
    assert (PreviewForm.validateField f (JS.get values (id f))
            = "This field is required.") as Hmsg.
    { unfold PreviewForm.validateField, JS.get. by rewrite Hreq, Hv. }
    rewrite submit_own; try done; by rewrite Hmsg.
  - intros Hf.
    destruct (fold_left _ _ _ !! id f) as [e|] eqn:He; [|done].
    apply submit_source in He as [He|(g & Hg & Hgd & Heq & _)]; [done|].
    exfalso. apply in_split in Hin as (pre & post & Hsplit).
    rewrite Hsplit in Hnd, Hg. rewrite map_app in Hnd. cbn [map] in Hnd.
    apply NoDup_app in Hnd as (_ & Hpre & Hpost).
    apply NoDup_cons in Hpost as [Hpost _].
    apply in_app_or in Hg as [Hg|[Hg|Hg]].
    + apply (Hpre (id g)); [apply list_elem_of_In, in_map, Hg|rewrite Heq; left].
    + subst g. congruence.
    + apply Hpost. rewrite <- Heq. apply list_elem_of_In, in_map, Hg.
  - intros k e [He|(g & Hg & Hgd & Heq & Hmsg & _)]%submit_source; [done|eauto].
Qed.

Lemma submit_validates_inputs_only_witness :
  PreviewForm.submitErrors (Some requiredSchema)
    {[ "t" := VStr EmptyString ]} !! "t" = Some "This field is required."
  /\ PreviewForm.submitErrors (Some requiredSchema)
       {[ "t" := VStr EmptyString ]} !! "d" = None.
Proof.
  split.
  - apply (submit_validates_inputs_only requiredSchema {[ "t" := VStr EmptyString ]}
             (inputField "t" "text" "Name" requiredOnly));
      [distinct_ids | by left | reflexivity | reflexivity | reflexivity].
  - apply (submit_validates_inputs_only requiredSchema {[ "t" := VStr EmptyString ]}
             (derivedField "d" "Copy" ["t"] "name" requiredOnly));
      [distinct_ids | right; by left | reflexivity].
Defined.

(** ** Ages *)

Section Age.
Variable newDate : value -> option LocalDate.
Variable today : LocalDate.

Local Abbreviation calculateAge := (Helpers.calculateAge newDate today).




End Age.




(** ** Stored records that do not parse *)

Section Records.
Variable JSON_parse : string -> outcome FormSchema.

Lemma mapArray_total {A B : Type} (f : A -> outcome B) (g : A -> B) (l : list A) :
  (forall a, f a = Returned (g a)) ->
  mapArray f l = Returned (map g l).
Proof.
  intros Hf. induction l as [|a l IH]; [done|].
  cbn [mapArray map]. rewrite Hf, IH. reflexivity.
Qed.

Lemma loadForm_total store key :
  MyForms.loadForm JSON_parse store key
  = Returned (Total.listed JSON_parse store key).
Proof.
  unfold MyForms.loadForm, Total.listed.
  destruct (Storage.getItem store key) as [raw|]; [|done].
  destruct (String.eqb raw EmptyString); [done|].
  by destruct (JSON_parse raw).
Qed.

(** Listing never throws: it keeps, in key order, the form keys whose
    record parses. *)
Lemma loadedForms_total store :
  MyForms.loadedForms JSON_parse store
  = Returned
      (omap (Total.listed JSON_parse store)
            (List.filter (String.prefix "form_") (Storage.keys store))).
Proof.
  unfold MyForms.loadedForms. cbn zeta.
  rewrite (mapArray_total _ _ _ (loadForm_total store)). cbn [bind].
  f_equal. induction (List.filter _ _) as [|k l IH]; [done|].
  cbn. destruct (Total.listed JSON_parse store k); cbn; by rewrite IH.
Qed.

Lemma listed_Some store key k data :
  Total.listed JSON_parse store key = Some (k, data) <->
  k = key /\ exists raw, Storage.getItem store key = Some raw
                         /\ raw <> EmptyString
                         /\ JSON_parse raw = Returned data.
Proof.
  unfold Total.listed. split.
  - destruct (Storage.getItem store key) as [raw|]; [|done].
    destruct (String.eqb raw EmptyString) eqn:He; [done|].
    destruct (JSON_parse raw) as [d|] eqn:Hp; [|done].
    intros [= <- <-]. split; [done|]. exists raw.
    by apply String.eqb_neq in He.
  - intros (-> & raw & -> & He%String.eqb_neq & ->). by rewrite He.
Qed.

(** C4, both halves on a record that does not parse. Listing the saved
    forms returns: the record is left out, and every form key whose
    record parses is listed. The preview renderer's load effect has no
    handler around [JSON.parse]: on the same record the exception
    leaves the effect, where the claim has the component stay in its
    loading state. *)
Theorem malformed_record_handling (store : list (string * string))
    (key raw : string) (next : nat) (st : PreviewForm.State) :
  key <> EmptyString ->
  Storage.getItem store key = Some raw ->
  raw <> EmptyString ->
  JSON_parse raw = Thrown ->
  (exists forms,
      MyForms.loadedForms JSON_parse store = Returned forms
      /\ (forall data, ~ In (key, data) forms)
      /\ (forall k r data,
            In k (Storage.keys store) -> String.prefix "form_" k = true ->
            Storage.getItem store k = Some r -> r <> EmptyString ->
            JSON_parse r = Returned data -> In (k, data) forms))
  /\ PreviewForm.loadEffect JSON_parse store next (Some key) st = Thrown.
Proof.
  intros Hkey Hraw Hne Hthrow. split.
  - eexists. split; [apply loadedForms_total|]. split.
    + intros data Hin. apply list_elem_of_In, list_elem_of_omap in Hin.
      destruct Hin as (k & _ & Hl).
      apply listed_Some in Hl as (-> & r & Hr & _ & Hp). congruence.
    + intros k r data Hk Hpre Hr Hr0 Hp.
      apply list_elem_of_In, list_elem_of_omap. exists k. split.
      * apply list_elem_of_In, filter_In. done.
      * apply listed_Some. eauto.
  - unfold PreviewForm.loadEffect.
    apply String.eqb_neq in Hkey, Hne.
    by rewrite Hkey, Hraw, Hne, Hthrow.
Qed.
End Records.

Lemma malformed_record_handling_witness :
  PreviewForm.loadEffect parseSaved savedStore 0 (Some "form_broken")
    PreviewForm.initialState = Thrown.
Proof.
  apply (malformed_record_handling parseSaved savedStore "form_broken"
           "{not json" 0 PreviewForm.initialState).
  - discriminate.
  - reflexivity.
  - discriminate.
  - reflexivity.
Defined.

(** The two saved forms are listed although a record between them is
    not JSON; opening a key that is not stored leaves the loading state,
    and opening the record that is not JSON throws. *)
Example saved_forms_scenario :
  MyForms.loadedForms parseSaved savedStore
  = Returned [ ("form_A", mkFormSchema "A" []); ("form_B", mkFormSchema "B" []) ]
  /\ (exists st,
         PreviewForm.loadEffect parseSaved savedStore 0 (Some "form_gone")
           PreviewForm.initialState = Returned st
         /\ PreviewForm.showsLoading st = true)
  /\ (exists st,
         PreviewForm.loadEffect parseSaved savedStore 0 (Some "form_A")
           PreviewForm.initialState = Returned st
         /\ PreviewForm.showsLoading st = false)
  /\ PreviewForm.loadEffect parseSaved savedStore 0 (Some "form_broken")
       PreviewForm.initialState = Thrown.
Proof.
  split; [reflexivity|].
  split; [eexists; split; reflexivity|].
  split; [eexists; split; reflexivity|].
  reflexivity.
Qed.

(** * Further properties of the components *)

(** ** Strings *)

Lemma append_cons c (s t : string) : String c s +:+ t = String c (s +:+ t).
Proof. reflexivity. Qed.

Lemma append_nil_l (s : string) : EmptyString +:+ s = s.
Proof. reflexivity. Qed.

Lemma append_nil_r (s : string) : s +:+ EmptyString = s.
Proof. induction s as [|c s IH]; [done|]. rewrite append_cons. by f_equal. Qed.

Lemma append_assoc (a b c : string) : (a +:+ b) +:+ c = a +:+ (b +:+ c).
Proof. induction a as [|x a IH]; [done|]. rewrite !append_cons. by f_equal. Qed.

Lemma append_nil_inv (a b : string) :
  a +:+ b = EmptyString -> a = EmptyString /\ b = EmptyString.
Proof. destruct a; [done|discriminate]. Qed.

Lemma append_length (a b : string) :
  String.length (a +:+ b) = (String.length a + String.length b)%nat.
Proof.
  induction a as [|x a IH]; [done|]. rewrite append_cons. simpl. by f_equal.
Qed.

Lemma allChars_app p (a b : string) :
  allChars p (a +:+ b) = allChars p a && allChars p b.
Proof.
  induction a as [|x a IH]; [done|]. rewrite append_cons. simpl.
  rewrite IH. by rewrite andb_assoc.
Qed.

(** ** Matching by derivatives *)

Lemma nullable_matches r : nullable r = true <-> matches r EmptyString.
Proof.
  split.
  - induction r as [| |p|r1 IH1 r2 IH2|r1 IH1 r2 IH2|r IH]; cbn; try done.
    + intros _. constructor.
    + intros [H1 H2]%andb_prop.
      change EmptyString with (EmptyString +:+ EmptyString).
      constructor; eauto.
    + intros [H|H]%orb_prop; [apply MAltL|apply MAltR]; eauto.
    + intros _. constructor.
  - intros H. remember EmptyString as s eqn:Hs.
    induction H as [|p c Hp|r1 r2 s1 s2 H1 IH1 H2 IH2|r1 r2 s H IH|r1 r2 s H IH
                   |r|r s1 s2 H1 IH1 H2 IH2]; cbn; try done.
    + apply append_nil_inv in Hs as [-> ->]. by rewrite IH1, IH2.
    + by rewrite IH.
    + rewrite IH by done. apply orb_true_r.
Qed.

Lemma matches_star_cons_inv r c s :
  matches (RStar r) (String c s) ->
  exists s1 s2, s = s1 +:+ s2 /\ matches r (String c s1) /\ matches (RStar r) s2.
Proof.
  intros H. remember (RStar r) as r' eqn:Hr. remember (String c s) as t eqn:Ht.
  revert c s Ht.
  induction H as [|p c' Hp|r1 r2 s1 s2 H1 IH1 H2 IH2|r1 r2 s' H IH|r1 r2 s' H IH
                 |r0|r0 s1 s2 H1 IH1 H2 IH2]; try done.
  injection Hr as ->. intros c s Ht.
  destruct s1 as [|c1 s1]; [rewrite append_nil_l in Ht|rewrite append_cons in Ht].
  - by apply IH2.
  - injection Ht as -> <-. eauto.
Qed.

Lemma matches_none_inv s : ~ matches RNone s.
Proof. inversion 1. Qed.

Lemma matches_eps_inv s : matches REps s -> s = EmptyString.
Proof. by inversion 1. Qed.

Lemma matches_class_inv p s :
  matches (RClass p) s -> exists c, s = String c EmptyString /\ p c = true.
Proof. inversion 1; subst; eauto. Qed.

Lemma matches_seq_inv r1 r2 s :
  matches (RSeq r1 r2) s ->
  exists s1 s2, s = s1 +:+ s2 /\ matches r1 s1 /\ matches r2 s2.
Proof. inversion 1; subst; eauto. Qed.

Lemma matches_alt_inv r1 r2 s :
  matches (RAlt r1 r2) s -> matches r1 s \/ matches r2 s.
Proof. inversion 1; subst; eauto. Qed.

Lemma deriv_matches c r s : matches (deriv c r) s <-> matches r (String c s).
Proof.
  revert s. induction r as [| |p|r1 IH1 r2 IH2|r1 IH1 r2 IH2|r IH]; intros s; cbn.
  - split; intros H; by apply matches_none_inv in H.
  - split; intros H; [by apply matches_none_inv in H|by apply matches_eps_inv in H].
  - split.
    + destruct (p c) eqn:Hp; intros H;
        [apply matches_eps_inv in H as ->; by constructor
        |by apply matches_none_inv in H].
    + intros (c' & [= <- ->] & Hp)%matches_class_inv. rewrite Hp. constructor.
  - split.
    + destruct (nullable r1) eqn:Hn.
      * intros [H|H]%matches_alt_inv.
        -- apply matches_seq_inv in H as (s1 & s2 & -> & Ha & Hb).
           rewrite <- append_cons. constructor; [by apply IH1|done].
        -- rewrite <- (append_nil_l (String c s)).
           constructor; [by apply nullable_matches|by apply IH2].
      * intros (s1 & s2 & -> & Ha & Hb)%matches_seq_inv.
        rewrite <- append_cons. constructor; [by apply IH1|done].
    + intros (s1 & s2 & Heq & Ha & Hb)%matches_seq_inv.
      destruct s1 as [|c1 s1]; [rewrite append_nil_l in Heq|rewrite append_cons in Heq].
      * subst s2. apply nullable_matches in Ha. rewrite Ha.
        apply MAltR. by apply IH2.
      * injection Heq as <- ->.
        destruct (nullable r1); [apply MAltL|]; constructor; try done; by apply IH1.
  - split.
    + intros [H|H]%matches_alt_inv; [apply MAltL; by apply IH1|apply MAltR; by apply IH2].
    + intros [H|H]%matches_alt_inv; [apply MAltL; by apply IH1|apply MAltR; by apply IH2].
  - split.
    + intros (s1 & s2 & -> & Ha & Hb)%matches_seq_inv.
      rewrite <- append_cons. constructor; [by apply IH|done].
    + intros (s1 & s2 & -> & H1 & H2)%matches_star_cons_inv.
      constructor; [by apply IH|done].
Qed.

(** [test_anchored] decides the language of the expression. *)
Lemma test_anchored_matches r s : test_anchored r s = true <-> matches r s.
Proof.
  revert r. induction s as [|c s IH]; intros r; cbn.
  - apply nullable_matches.
  - rewrite IH. apply deriv_matches.
Qed.

(** ** The patterns of the validator *)

Lemma matches_star_class p s :
  matches (RStar (RClass p)) s <-> allChars p s = true.
Proof.
  split.
  - intros H. remember (RStar (RClass p)) as r eqn:Hr.
    induction H as [|q c Hq|r1 r2 s1 s2 H1 IH1 H2 IH2|r1 r2 s H IH|r1 r2 s H IH
                   |r0|r0 s1 s2 H1 IH1 H2 IH2]; try done.
    injection Hr as ->.
    apply matches_class_inv in H1 as (c & -> & Hc).
    rewrite append_cons, append_nil_l. simpl. rewrite Hc. by apply IH2.
  - induction s as [|c s IH]; [constructor|].
    simpl. intros [Hc Hs]%andb_prop.
    rewrite <- (append_nil_l s), <- append_cons.
    constructor; [by constructor|by apply IH].
Qed.

Lemma matches_plus_class p s :
  matches (RPlus (RClass p)) s <-> s <> EmptyString /\ allChars p s = true.
Proof.
  unfold RPlus. split.
  - intros (s1 & s2 & -> & (c & -> & Hc)%matches_class_inv & H2)%matches_seq_inv.
    rewrite append_cons, append_nil_l. split; [done|].
    simpl. rewrite Hc. by apply matches_star_class.
  - destruct s as [|c s]; [by intros [? _]|].
    simpl. intros [_ [Hc Hs]%andb_prop].
    rewrite <- (append_nil_l s), <- append_cons.
    constructor; [by constructor|by apply matches_star_class].
Qed.

Lemma matches_char c s : matches (RChar c) s <-> s = String c EmptyString.
Proof.
  unfold RChar. split.
  - intros (c' & -> & ->%Ascii.eqb_eq)%matches_class_inv. done.
  - intros ->. constructor. apply Ascii.eqb_refl.
Qed.

Lemma allChars_nonspace s :
  allChars (fun x => negb (isSpace x)) s
  = allChars (fun c => negb (isWhiteSpace c)) s.
Proof.
  induction s as [|c r IH]; [done|]. cbn [allChars].
  by rewrite isWhiteSpace_table, IH.
Qed.

Lemma emailPattern_matches s :
  matches PreviewForm.emailPattern s <-> emailShape s.
Proof.
  unfold PreviewForm.emailPattern, emailShape, RNonSpace. split.
  - intros (a & t1 & -> & [Ha Ha']%matches_plus_class & H1)%matches_seq_inv.
    apply matches_seq_inv in H1 as (at_ & t2 & -> & ->%matches_char & H2).
    apply matches_seq_inv in H2 as (b & t3 & -> & [Hb Hb']%matches_plus_class & H3).
    apply matches_seq_inv in H3 as (dot & c & -> & ->%matches_char
                                   & [Hc Hc']%matches_plus_class).
    exists a, b, c. repeat split; try done.
    rewrite allChars_nonspace, !allChars_app, Ha', Hb', Hc'. reflexivity.
  - intros (a & b & c & -> & Ha & Hb & Hc & Hall).
    rewrite allChars_nonspace, !allChars_app in Hall.
    apply andb_prop in Hall as [Ha' Hall].
    apply andb_prop in Hall as [_ Hall].
    apply andb_prop in Hall as [Hb' Hall].
    apply andb_prop in Hall as [_ Hc'].
    constructor; [by apply matches_plus_class|].
    constructor; [by apply matches_char|].
    constructor; [by apply matches_plus_class|].
    constructor; [by apply matches_char|by apply matches_plus_class].
Qed.

Lemma eightOrMore_matches n s :
  matches (RSeq (RRepeat n RDot) (RStar RDot)) s
  <-> (n <= String.length s)%nat
      /\ allChars (fun c => negb (isLineEnd c)) s = true.
Proof.
  revert s. induction n as [|n IH]; intros s; cbn [RRepeat].
  - split.
    + intros (s1 & s2 & -> & ->%matches_eps_inv & H)%matches_seq_inv.
      rewrite append_nil_l. split; [lia|]. by apply matches_star_class in H.
    + intros [_ H]. rewrite <- (append_nil_l s).
      constructor; [constructor|by apply matches_star_class].
  - split.
    + intros (s1 & s2 & -> & H1 & H2)%matches_seq_inv.
      apply matches_seq_inv in H1 as (d & s3 & -> & (c & -> & Hc)%matches_class_inv & H3).
      assert (matches (RSeq (RRepeat n RDot) (RStar RDot)) (s3 +:+ s2)) as H
        by (by constructor).
      apply IH in H as [Hlen Hall].
      rewrite !append_cons, append_nil_l. simpl. split; [lia|].
      unfold isLineEnd in *. by rewrite Hc.
    + destruct s as [|c s]; [simpl; intros [? _]; lia|].
      simpl. intros [Hlen [Hc Hs]%andb_prop].
      assert (matches (RSeq (RRepeat n RDot) (RStar RDot)) s) as H
        by (apply IH; split; [lia|done]).
      apply matches_seq_inv in H as (s1 & s2 & -> & H1 & H2).
      rewrite <- append_cons. constructor; [|done].
      rewrite <- (append_nil_l s1), <- append_cons.
      constructor; [by constructor|done].
Qed.

Lemma anyChar_split p s :
  anyChar p s = true <-> exists a c b, s = a +:+ String c b /\ p c = true.
Proof.
  unfold anyChar. split.
  - induction s as [|c s IH]; [done|]. simpl.
    destruct (p c) eqn:Hc; simpl.
    + intros _. exists EmptyString, c, s. done.
    + intros (a & c' & b & -> & Hc')%IH.
      exists (String c a), c', b. done.
  - intros (a & c & b & -> & Hc). rewrite allChars_app. simpl.
    rewrite Hc. simpl. by rewrite andb_false_r.
Qed.

Lemma test_anywhere_class p s :
  test_anywhere (RClass p) s = anyChar p s.
Proof.
  apply eq_true_iff_eq. unfold test_anywhere.
  rewrite test_anchored_matches, anyChar_split. unfold RAny. split.
  - intros (a & t & -> & _ & H)%matches_seq_inv.
    apply matches_seq_inv in H as (d & b & -> & (c & -> & Hc)%matches_class_inv & _).
    exists a, c, b. by rewrite append_cons, append_nil_l.
  - intros (a & c & b & -> & Hc).
    constructor; [by apply matches_star_class; induction a|].
    rewrite <- (append_nil_l b), <- append_cons.
    constructor; [by constructor|]. apply matches_star_class. by induction b.
Qed.

(** ** What the validator accepts *)

Lemma append_not_empty (a b : string) : a <> EmptyString -> a +:+ b <> EmptyString.
Proof. destruct a; [done|]. intros _. rewrite append_cons. discriminate. Qed.

Lemma whenSet_below_false (o : option Z) (len : Z) :
  PreviewForm.whenSet o (fun n => len <? n) = false
  <-> forall n, o = Some n -> n <> 0 -> n <= len.
Proof.
  unfold PreviewForm.whenSet. destruct o as [n|]; [|by split].
  destruct (n =? 0) eqn:Hn; destruct (len <? n) eqn:Hl; cbn; split; try done.
  - intros _ m [= <-]. lia.
  - intros _ m [= <-]. lia.
  - intros H. specialize (H n eq_refl). lia.
  - intros _ m [= <-]. lia.
Qed.

Lemma whenSet_above_false (o : option Z) (len : Z) :
  PreviewForm.whenSet o (fun n => n <? len) = false
  <-> forall n, o = Some n -> n <> 0 -> len <= n.
Proof.
  unfold PreviewForm.whenSet. destruct o as [n|]; [|by split].
  destruct (n =? 0) eqn:Hn; destruct (n <? len) eqn:Hl; cbn; split; try done.
  - intros _ m [= <-]. lia.
  - intros _ m [= <-]. lia.
  - intros H. specialize (H n eq_refl). lia.
  - intros _ m [= <-]. lia.
Qed.

Lemma email_rule_false (o : option bool) (s : string) :
  PreviewForm.flag o && truthy (VStr s)
    && negb (test_anchored PreviewForm.emailPattern s) = false
  <-> (o = Some true -> s <> EmptyString -> emailShape s).
Proof.
  unfold PreviewForm.flag. cbn [truthy].
  destruct (test_anchored PreviewForm.emailPattern s) eqn:Ht.
  - apply test_anchored_matches, emailPattern_matches in Ht.
    rewrite andb_false_r. by split.
  - assert (~ emailShape s) as Hn.
    { intros H%emailPattern_matches%test_anchored_matches. congruence. }
    rewrite andb_true_r.
    destruct o as [[]|]; cbn; destruct (String.eqb s EmptyString) eqn:Hs;
      [apply String.eqb_eq in Hs|apply String.eqb_neq in Hs| | | |];
      cbn; split; try done.
    intros H. exfalso. by apply Hn, H.
Qed.

Lemma password_rule_false (o : option bool) (s : string) :
  PreviewForm.flag o && truthy (VStr s)
    && (negb (test_anchored PreviewForm.eightOrMore s)
        || negb (test_anywhere RDigit s)) = false
  <-> (o = Some true -> s <> EmptyString -> passwordShape s).
Proof.
  unfold PreviewForm.flag, RDigit, passwordShape. cbn [truthy].
  rewrite test_anywhere_class.
  assert (test_anchored PreviewForm.eightOrMore s = true
          <-> (8 <= String.length s)%nat
              /\ allChars (fun c => negb (isLineEnd c)) s = true) as Hlen.
  { rewrite test_anchored_matches. apply eightOrMore_matches. }
  destruct (test_anchored PreviewForm.eightOrMore s) eqn:Ht;
    destruct (anyChar isDigit s) eqn:Hd; cbn [negb orb];
    rewrite ?andb_false_r, ?andb_true_r.
  - split; [|done]. intros _ _ _. destruct (proj1 Hlen eq_refl). done.
  - destruct o as [[]|]; cbn; destruct (String.eqb s EmptyString) eqn:Hs;
      [apply String.eqb_eq in Hs|apply String.eqb_neq in Hs| | | |];
      cbn; split; try done.
    intros H. by destruct (H eq_refl Hs) as (_ & _ & ?).
  - destruct o as [[]|]; cbn; destruct (String.eqb s EmptyString) eqn:Hs;
      [apply String.eqb_eq in Hs|apply String.eqb_neq in Hs| | | |];
      cbn; split; try done.
    intros H. destruct (H eq_refl Hs) as (? & ? & _).
    assert (false = true) by (apply Hlen; done). done.
  - destruct o as [[]|]; cbn; destruct (String.eqb s EmptyString) eqn:Hs;
      [apply String.eqb_eq in Hs|apply String.eqb_neq in Hs| | | |];
      cbn; split; try done.
    intros H. by destruct (H eq_refl Hs) as (_ & _ & ?).
Qed.

(** X1. [validateField] returns the empty string, that is, accepts the
    value, exactly when: if the field is required, the value is truthy
    and is not an empty array; and if the value is a string, its length
    is not below a set minimum nor above a set maximum (a bound of [0]
    counts as not set), and, when it is not empty, it has the shape of
    an e-mail address if the e-mail rule is on (three non-empty parts
    joined by an at sign and a dot, with no white space, the no-break
    space included, anywhere) and has eight characters or more, none
    ending a line, with a digit among them, if the password rule is on.
    Values that are not strings are subject to the required rule only.
    Strings are Latin-1 text, as everywhere here. *)
Theorem validateField_accepts (field : Field) (v : value) :
  PreviewForm.validateField field v = EmptyString <->
  (required (validation field) = true ->
     truthy v = true /\ (forall r, v <> VArr r []))
  /\ (forall s, v = VStr s ->
        (forall n, minLength (validation field) = Some n -> n <> 0 ->
                   n <= Z.of_nat (String.length s))
        /\ (forall n, maxLength (validation field) = Some n -> n <> 0 ->
                      Z.of_nat (String.length s) <= n)
        /\ (email (validation field) = Some true -> s <> EmptyString ->
            emailShape s)
        /\ (password (validation field) = Some true -> s <> EmptyString ->
            passwordShape s)).
Proof.
  unfold PreviewForm.validateField. cbn zeta.
  set (vd := validation field).
  destruct (required vd && (negb (truthy v) || isArray v && Nat.eqb (arrayLength v) 0))
    eqn:Hreq.
  - split; [discriminate|]. intros [Hr _]. exfalso.
    apply andb_prop in Hreq as [Hreq1 Hreq]. destruct (Hr Hreq1) as [Ht Ha].
    rewrite Ht in Hreq. cbn in Hreq.
    destruct v as [| |b|n| |s|r items|r]; try done.
    destruct items; [by apply (Ha r)|done].
  - assert (required vd = true -> truthy v = true /\ (forall r, v <> VArr r []))
      as Hok.
    { intros Hr. rewrite Hr in Hreq. cbn in Hreq.
      apply orb_false_elim in Hreq as [Ht Ha].
      apply negb_false_iff in Ht. split; [done|]. intros r ->. done. }
    destruct v as [| |b|n| |s|r items|r];
      try (split; [intros _; split; [done|intros s; discriminate]|done]).
    pose proof (whenSet_below_false (minLength vd) (Z.of_nat (String.length s))) as Hmin.
    pose proof (whenSet_above_false (maxLength vd) (Z.of_nat (String.length s))) as Hmax.
    pose proof (email_rule_false (email vd) s) as Hem.
    pose proof (password_rule_false (password vd) s) as Hpw.
    destruct (PreviewForm.whenSet (minLength vd) _).
    { split; [intros H; by apply append_not_empty in H|].
      intros [_ H]. destruct (H s eq_refl) as (H0 & _).
      apply Hmin in H0. discriminate. }
    destruct (PreviewForm.whenSet (maxLength vd) _).
    { split; [intros H; by apply append_not_empty in H|].
      intros [_ H]. destruct (H s eq_refl) as (_ & H0 & _).
      apply Hmax in H0. discriminate. }
    destruct (PreviewForm.flag (email vd) && _ && _).
    { split; [discriminate|].
      intros [_ H]. destruct (H s eq_refl) as (_ & _ & H0 & _).
      apply Hem in H0. discriminate. }
    destruct (PreviewForm.flag (password vd) && _ && _).
    { split; [discriminate|].
      intros [_ H]. destruct (H s eq_refl) as (_ & _ & _ & H0).
      apply Hpw in H0. discriminate. }
    split; [intros _|done]. split; [done|].
    intros s' [= <-].
    split; [by apply Hmin|]. split; [by apply Hmax|].
    split; [by apply Hem|by apply Hpw].
Qed.

Example validator_examples :
  test_anchored PreviewForm.emailPattern "ada@example.org" = true
  /\ test_anchored PreviewForm.emailPattern "ada@localhost" = false
  /\ test_anchored PreviewForm.emailPattern "ada lovelace@example.org" = false
  /\ test_anchored PreviewForm.eightOrMore "pass1234" = true
  /\ test_anchored PreviewForm.eightOrMore "pass123" = false
  /\ test_anywhere RDigit "password" = false.
Proof. repeat split; vm_compute; reflexivity. Qed.

(** ** Submitting *)

Section SubmitMore.
Variable values : gmap string value.

Lemma submit_fold_empty l (errs : gmap string string) :
  fold_left (PreviewForm.submitField values) l errs = ∅
  <-> errs = ∅
      /\ forall f, In f l -> isDerived f = false ->
           PreviewForm.validateField f (JS.get values (id f)) = EmptyString.
Proof.
  revert errs. induction l as [|f l IH]; intros errs; cbn [fold_left].
  - split; [intros ->; split; [done|intros f []]|by intros [-> _]].
  - rewrite IH. unfold PreviewForm.submitField.
    destruct (isDerived f) eqn:Hd; cbn [negb].
    + split; intros [He Hl]; (split; [done|]).
      * intros g [<-|Hg]; [congruence|by apply Hl].
      * intros g Hg. apply Hl. by right.
    + destruct (String.eqb _ _) eqn:Hv; cbn [negb].
      * apply String.eqb_eq in Hv. split; intros [He Hl]; (split; [done|]).
        -- intros g [<-|Hg]; [done|by apply Hl].
        -- intros g Hg. apply Hl. by right.
      * apply String.eqb_neq in Hv. split.
        -- intros [He _]. by apply insert_non_empty in He.
        -- intros [_ Hl]. exfalso. apply Hv, Hl; [by left|done].
Qed.
End SubmitMore.

(** X2. [handleSubmit] accepts the form (the success alert) exactly when
    every field that is not derived passes [validateField] on its
    current value; derived fields and the scoring of the answers play no
    part. *)
Theorem submit_accepted_iff (sch : FormSchema) (values : gmap string value) :
  PreviewForm.submitAccepted (Some sch) values = true
  <-> forall f, In f (fields sch) -> isDerived f = false ->
        PreviewForm.validateField f (JS.get values (id f)) = EmptyString.
Proof.
  unfold PreviewForm.submitAccepted, PreviewForm.submitErrors.
  rewrite Nat.eqb_eq, map_size_empty_iff, submit_fold_empty.
  split; [by intros [_ H]|by intros H].
Qed.

(** ** Scoring *)

Section Scoring.
Variable values : gmap string value.

Lemma scoreField_wrong st f :
  PreviewForm.scoreField values st f
  = if answeredWrong values f
    then (false, st.2 +:+ PreviewForm.incorrectLine f)
    else st.
Proof.
  unfold PreviewForm.scoreField, answeredWrong. cbn zeta.
  destruct (String.eqb (type f) "radio") eqn:Hr;
    [apply String.eqb_eq in Hr; rewrite Hr; cbn [orb String.eqb Ascii.eqb Bool.eqb]
    |destruct (String.eqb (type f) "select") eqn:Hs;
     [apply String.eqb_eq in Hs; rewrite Hs; cbn [orb String.eqb Ascii.eqb Bool.eqb]
     |cbn [orb]]].
  - destruct (correctAnswer (validation f)) as [a|];
      destruct (correctAnswers (validation f)); try done;
      cbn [andb]; destruct (negb (String.eqb a EmptyString));
      cbn [andb]; try done; by destruct (strict_neq _ _).
  - destruct (correctAnswer (validation f)) as [a|];
      destruct (correctAnswers (validation f)); try done;
      cbn [andb]; destruct (negb (String.eqb a EmptyString));
      cbn [andb]; try done; by destruct (strict_neq _ _).
  - destruct (correctAnswer (validation f)) as [a|];
      destruct (correctAnswers (validation f)) as [cs|];
      destruct (String.eqb (type f) "checkbox"); try done;
      by destruct (_ || _).
Qed.

Lemma score_fold l c fb :
  fold_left (PreviewForm.scoreField values) l (c, fb)
  = (c && forallb (fun f => negb (answeredWrong values f)) l,
     fb +:+ feedbackLines (List.filter (answeredWrong values) l)).
Proof.
  revert c fb. induction l as [|f l IH]; intros c fb; cbn [fold_left forallb List.filter].
  - by rewrite andb_true_r, append_nil_r.
  - rewrite scoreField_wrong. destruct (answeredWrong values f); cbn [negb andb fst snd].
    + rewrite IH. cbn [andb feedbackLines]. rewrite andb_false_r.
      by rewrite append_assoc.
    + by rewrite IH.
Qed.
End Scoring.

Lemma incorrectLine_newline f :
  allChars (fun c => negb (Ascii.eqb c (ascii_of_nat 10)))
           (PreviewForm.incorrectLine f) = false.
Proof.
  unfold PreviewForm.incorrectLine, PreviewForm.newline.
  rewrite !allChars_app. cbn. by rewrite !andb_false_r.
Qed.

(** X3. The result [handleSubmit] shows is [All answers are correct!]
    when no field is answered wrongly, and otherwise the feedback made of
    one line per wrongly answered field, in schema order (every field is
    scored, derived or not). The fallback text [Some answers are
    incorrect.] is never shown. *)
Theorem score_result (sch : FormSchema) (values : gmap string value) :
  PreviewForm.scoreResult (Some sch) values
  = (if forallb (fun f => negb (answeredWrong values f)) (fields sch)
     then "All answers are correct!"
     else feedbackLines (List.filter (answeredWrong values) (fields sch)))
  /\ PreviewForm.scoreResult (Some sch) values <> "Some answers are incorrect.".
Proof.
  unfold PreviewForm.scoreResult. rewrite score_fold. cbn [andb].
  rewrite append_nil_l.
  destruct (forallb _ _) eqn:Hall; [split; [done|discriminate]|].
  assert (allChars (fun c => negb (Ascii.eqb c (ascii_of_nat 10)))
            (feedbackLines (List.filter (answeredWrong values) (fields sch)))
          = false) as Hnl.
  { clear -Hall. induction (fields sch) as [|f l IH]; [done|].
    cbn [forallb List.filter] in *.
    destruct (answeredWrong values f); cbn [negb andb] in *.
    - cbn [feedbackLines]. by rewrite allChars_app, incorrectLine_newline.
    - by apply IH. }
  destruct (String.eqb _ EmptyString) eqn:He.
  - apply String.eqb_eq in He. rewrite He in Hnl. discriminate.
  - cbn [negb]. split; [done|]. intros Heq. rewrite Heq in Hnl. discriminate.
Qed.

(** X4. For a checkbox field whose correct answers are set and listed
    without repetition, the answer is accepted exactly when the checked
    options are the correct answers up to order; a value that is not an
    array counts as no option checked. *)
Theorem checkbox_answer_right_iff (values : gmap string value) (field : Field)
    (correct : list string) :
  type field = "checkbox" ->
  correctAnswers (validation field) = Some correct ->
  NoDup correct ->
  PreviewForm.scoreField values (true, EmptyString) field = (true, EmptyString)
  <-> arrayOr (JS.get values (id field)) ≡ₚ correct.
Proof.
  intros Hty Hca Hnd. rewrite scoreField_wrong. unfold answeredWrong.
  rewrite Hty, Hca. cbn [String.eqb Ascii.eqb Bool.eqb orb]. cbn zeta.
  set (user := arrayOr _).
  assert (forallb (fun ans => includes ans user) correct = true
          <-> forall x, x ∈ correct -> x ∈ user) as Hincl.
  { rewrite forallb_forall. unfold includes. split.
    - intros H x Hx%list_elem_of_In. apply H in Hx.
      apply existsb_exists in Hx as (y & Hy & ->%String.eqb_eq).
      by apply list_elem_of_In.
    - intros H x Hx%list_elem_of_In. apply existsb_exists.
      exists x. split; [by apply list_elem_of_In, H|apply String.eqb_refl]. }
  destruct (Nat.eqb (List.length user) (List.length correct)) eqn:Hlen;
    destruct (forallb _ correct) eqn:Hall; cbn [negb orb].
  - split; [intros _|done]. apply Nat.eqb_eq in Hlen.
    symmetry. apply submseteq_length_Permutation; [|lia].
    apply NoDup_submseteq; [done|]. by apply Hincl.
  - split; [discriminate|]. intros Hp.
    assert (false = true) as Habs; [|done].
    apply Hincl. intros x Hx. by rewrite Hp.
  - split; [discriminate|]. intros Hp. apply Nat.eqb_neq in Hlen.
    by rewrite Hp in Hlen.
  - split; [discriminate|]. intros Hp. apply Nat.eqb_neq in Hlen.
    by rewrite Hp in Hlen.
Qed.

Lemma checkbox_answer_right_iff_witness :
  PreviewForm.scoreField {[ "q" := VArr 0 ["b"; "a"] ]} (true, EmptyString) quizField
  = (true, EmptyString).
Proof.
  apply (checkbox_answer_right_iff {[ "q" := VArr 0 ["b"; "a"] ]} quizField ["a"; "b"]).
  - reflexivity.
  - reflexivity.
  - distinct_ids.
  - apply perm_swap.
Defined.

(** ** Loading a form *)

Lemma seed_frame l (st : gmap string value * nat) k :
  (forall f, In f l -> isDerived f = false -> id f <> k) ->
  (fold_left PreviewForm.seedField l st).1 !! k = st.1 !! k.
Proof.
  revert st. induction l as [|f l IH]; intros st Hl; [done|].
  cbn [fold_left]. rewrite IH by (intros g Hg; apply Hl; by right).
  unfold PreviewForm.seedField. destruct st as [m n].
  destruct (isDerived f) eqn:Hd; [done|]. cbn [negb].
  assert (id f <> k) as Hne by (apply Hl; [by left|done]).
  destruct (defaultValue f) as [d|]; [destruct (negb (String.eqb d EmptyString))|];
    try destruct (String.eqb (type f) "checkbox"); cbn [fst];
    by rewrite lookup_insert_ne.
Qed.

Lemma seed_step_own (st : gmap string value * nat) f :
  isDerived f = false ->
  exists v, (PreviewForm.seedField st f).1 !! id f = Some v /\ isDefaultOf f v.
Proof.
  intros Hd. unfold PreviewForm.seedField, isDefaultOf. destruct st as [m n].
  rewrite Hd. cbn [negb].
  destruct (defaultValue f) as [d|]; [destruct (String.eqb d EmptyString)|];
    cbn [negb]; try destruct (String.eqb (type f) "checkbox"); cbn [fst];
    rewrite lookup_insert_eq; eauto.
Qed.

Lemma seed_keys l (st : gmap string value * nat) k :
  is_Some ((fold_left PreviewForm.seedField l st).1 !! k)
  <-> is_Some (st.1 !! k)
      \/ exists f, In f l /\ isDerived f = false /\ id f = k.
Proof.
  revert st. induction l as [|f l IH]; intros st; cbn [fold_left].
  - split; [by left|]. intros [H|(f & [] & _)]. done.
  - rewrite IH. split.
    + intros [H|(g & Hg & Hd & Hk)]; [|right; exists g; split; [by right|done]].
      destruct (isDerived f) eqn:Hd.
      * left. unfold PreviewForm.seedField in H. destruct st as [m n].
        by rewrite Hd in H.
      * destruct (decide (id f = k)) as [Hk|Hk].
        -- right. exists f. split; [by left|done].
        -- left. rewrite <- (seed_frame [f] st k); [done|].
           intros g [<-|[]] _. done.
    + intros [H|(g & [<-|Hg] & Hd & Hk)].
      * left. destruct (isDerived f) eqn:Hd.
        -- unfold PreviewForm.seedField. destruct st as [m n]. by rewrite Hd.
        -- destruct (decide (id f = k)) as [<-|Hk].
           ++ destruct (seed_step_own st f Hd) as (v & -> & _). eauto.
           ++ rewrite <- (seed_frame [f] st k) in H; [done|].
              intros g [<-|[]] _. done.
      * left. subst k. destruct (seed_step_own st f Hd) as (v & -> & _). eauto.
      * right. exists g. done.
Qed.

Lemma seed_own l (st : gmap string value * nat) f :
  NoDup (map id l) -> In f l -> isDerived f = false ->
  exists v, (fold_left PreviewForm.seedField l st).1 !! id f = Some v
            /\ isDefaultOf f v.
Proof.
  intros Hnd Hin Hd.
  apply in_split in Hin as (pre & post & ->).
  rewrite map_app in Hnd. cbn [map] in Hnd.
  apply NoDup_app in Hnd as (_ & _ & Hpost).
  apply NoDup_cons in Hpost as [Hpost _].
  rewrite fold_left_app. cbn [fold_left].
  rewrite seed_frame.
  - by apply seed_step_own.
  - intros g Hg _ Heq. apply Hpost. rewrite <- Heq.
    apply list_elem_of_In, in_map, Hg.
Qed.

(** X5. When the stored record parses, the load effect sets the schema
    and seeds the value map: its keys are exactly the ids of the fields
    that are not derived, and (ids being distinct) each of them holds
    the field's default value if it has a non-empty one, otherwise an
    empty array for a checkbox and the empty string for any other type.
    Derived fields are left without an entry. *)
Theorem load_seeds_inputs (JSON_parse : string -> outcome FormSchema)
    (store : list (string * string)) (next : nat) (formId raw : string)
    (parsed : FormSchema) (st : PreviewForm.State) :
  formId <> EmptyString ->
  Storage.getItem store formId = Some raw ->
  raw <> EmptyString ->
  JSON_parse raw = Returned parsed ->
  exists st',
    PreviewForm.loadEffect JSON_parse store next (Some formId) st = Returned st'
    /\ PreviewForm.st_schema st' = Some parsed
    /\ (forall k, is_Some (PreviewForm.st_values st' !! k)
                  <-> exists f, In f (fields parsed) /\ isDerived f = false
                                /\ id f = k)
    /\ (NoDup (map id (fields parsed)) ->
        forall f, In f (fields parsed) ->
          if isDerived f then PreviewForm.st_values st' !! id f = None
          else exists v, PreviewForm.st_values st' !! id f = Some v
                         /\ isDefaultOf f v).
Proof.
  intros Hid Hraw Hne Hparse. unfold PreviewForm.loadEffect.
  apply String.eqb_neq in Hid, Hne. rewrite Hid, Hraw, Hne, Hparse.
  cbn [bind]. eexists. split; [reflexivity|]. cbn [PreviewForm.st_schema
    PreviewForm.st_values]. split; [done|]. split.
  - intros k. rewrite seed_keys. cbn [fst]. rewrite lookup_empty. split.
    + intros [[? ?]|H]; done.
    + intros H. by right.
  - intros Hnd f Hf. destruct (isDerived f) eqn:Hd; [|by apply seed_own].
    destruct (_ !! id f) as [v|] eqn:Hv; [|done]. exfalso.
    assert (is_Some ((fold_left PreviewForm.seedField (fields parsed) (∅, next)).1
                       !! id f)) as Hs by eauto.
    apply seed_keys in Hs as [[? Hs]|(g & Hg & Hgd & Hk)];
      [cbn [fst] in Hs; by rewrite lookup_empty in Hs|].
    assert (findField (fields parsed) (id f) = Some f) as H1
      by (by apply findField_unique).
    assert (findField (fields parsed) (id f) = Some g) as H2
      by (by apply findField_unique).
    congruence.
Qed.

Lemma load_seeds_inputs_witness :
  exists st',
    PreviewForm.loadEffect parseStored storedStore 0 (Some "form_stored")
      PreviewForm.initialState = Returned st'
    /\ PreviewForm.st_schema st' = Some storedSchema.
Proof.
  destruct (load_seeds_inputs parseStored storedStore 0 "form_stored" "stored"
              storedSchema PreviewForm.initialState)
    as (st' & Hload & Hschema & _).
  - discriminate.
  - reflexivity.
  - discriminate.
  - reflexivity.
  - exists st'. split; [exact Hload|exact Hschema].
Defined.

Lemma seed_derived_none l next g :
  NoDup (map id l) -> In g l -> isDerived g = true ->
  (fold_left PreviewForm.seedField l (∅, next)).1 !! id g = None.
Proof.
  intros Hnd Hg Hd.
  destruct (_ !! id g) as [v|] eqn:Hv; [|done]. exfalso.
  assert (is_Some ((fold_left PreviewForm.seedField l (∅, next)).1 !! id g))
    as Hs by eauto.
  apply seed_keys in Hs as [[? Hs]|(f & Hf & Hfd & Hk)];
    [cbn [fst] in Hs; by rewrite lookup_empty in Hs|].
  assert (findField l (id g) = Some g) as H1 by (by apply findField_unique).
  assert (findField l (id g) = Some f) as H2 by (by apply findField_unique).
  congruence.
Qed.

Lemma seededBlank_default f v : seededBlank f -> isDefaultOf f v -> v = VStr EmptyString.
Proof.
  intros (_ & Hty & Hdef). unfold isDefaultOf.
  apply String.eqb_neq in Hty.
  destruct Hdef as [-> | ->]; cbn; by rewrite Hty.
Qed.

Lemma derivation_isDerived g ps fm : derivation g = Some (ps, fm) -> isDerived g = true.
Proof. unfold derivation. by destruct (isDerived g). Qed.

(** X6. Right after a form is loaded, a derived field whose parents are
    all ids of fields that are not derived has every parent present, so
    the first pass of the reconciler computes it rather than clearing
    it; and if those parents are inputs seeded with the empty string
    (no default value, not checkboxes) and none of their labels gives
    the variable name [__proto__], under which the context gets no
    entry, the pass gives the derived field the empty string, whatever
    its formula. *)
Theorem first_pass_after_load
    (run : string -> gmap string value -> outcome value)
    (JSON_parse : string -> outcome FormSchema)
    (store : list (string * string)) (next : nat) (formId raw : string)
    (parsed : FormSchema) (st : PreviewForm.State) (g : Field)
    (ps : list string) (fm : string) :
  formId <> EmptyString ->
  Storage.getItem store formId = Some raw ->
  raw <> EmptyString ->
  JSON_parse raw = Returned parsed ->
  NoDup (map id (fields parsed)) ->
  In g (fields parsed) ->
  derivation g = Some (ps, fm) ->
  (forall p, In p ps ->
     exists f, In f (fields parsed) /\ id f = p /\ isDerived f = false) ->
  exists st' out changed,
    PreviewForm.loadEffect JSON_parse store next (Some formId) st = Returned st'
    /\ (buildContext (fields parsed) (PreviewForm.st_values st') ps).2 = true
    /\ PreviewForm.updateDerivedFields run (Some parsed) (PreviewForm.st_values st')
       = Returned (out, changed)
    /\ (ps <> [] ->
        (forall f, In f (fields parsed) -> In (id f) ps ->
           seededBlank f /\ variableName (label f) <> "__proto__") ->
        out !! id g = Some (VStr EmptyString)).
Proof.
  intros Hid Hraw Hne Hparse Hnd Hg Hd Hparents.
  unfold PreviewForm.loadEffect.
  apply String.eqb_neq in Hid, Hne. rewrite Hid, Hraw, Hne, Hparse. cbn [bind].
  set (seeded := (fold_left PreviewForm.seedField (fields parsed) (∅, next)).1).
  destruct (preview_reconciled_entry run parsed seeded g Hnd Hg)
    as (out & changed & Hout & Hentry).
  eexists _, out, changed. split; [reflexivity|].
  cbn [PreviewForm.st_values].
  assert ((buildContext (fields parsed) seeded ps).2 = true) as Hall.
  { apply hasAllParents_iff. intros p Hp.
    destruct (Hparents p Hp) as (f & Hf & <- & Hfd). split.
    - exists f. by apply findField_unique.
    - apply seed_keys. right. eauto. }
  split; [done|]. split; [done|].
  intros Hps Hblank. rewrite Hentry. unfold Total.entryAfter.
  rewrite Hd, Hall. cbn zeta.
  assert (seeded !! id g = None) as ->
    by (apply seed_derived_none; [done|done|by eapply derivation_isDerived]).
  destruct (exists_last Hps) as (earlier & p & ->).
  destruct (Hparents p) as (f & Hf & <- & Hfd); [apply in_or_app; right; by left|].
  destruct (seed_own (fields parsed) (∅, next) f Hnd Hf Hfd) as (v & Hv & Hdef).
  destruct (Hblank f Hf) as [Hseeded Hname]; [apply in_or_app; right; by left|].
  assert (v = VStr EmptyString) as ->
    by (eapply seededBlank_default; [exact Hseeded|exact Hdef]).
  assert (Total.previewValue run fm
            (buildContext (fields parsed) seeded (earlier ++ [id f])).1
          = VStr EmptyString) as ->; [|done].
  unfold Total.previewValue.
  rewrite (values_blank _ (variableName (label f)) (VStr EmptyString)); [done| |done].
  apply context_entry; [by apply findField_unique|done|done|intros q qf []].
Qed.

Lemma first_pass_after_load_witness :
  exists st' out changed,
    PreviewForm.loadEffect parseStored storedStore 0 (Some "form_stored")
      PreviewForm.initialState = Returned st'
    /\ PreviewForm.updateDerivedFields Engine.run (Some storedSchema)
         (PreviewForm.st_values st') = Returned (out, changed)
    /\ out !! "B" = Some (VStr EmptyString).
Proof.
  destruct (first_pass_after_load Engine.run parseStored storedStore 0
              "form_stored" "stored" storedSchema PreviewForm.initialState
              (derivedField "B" "Double" ["A"] "score * 2" noValidation)
              ["A"] "score * 2")
    as (st' & out & changed & Hload & _ & Hout & Hblank).
  - discriminate.
  - reflexivity.
  - discriminate.
  - reflexivity.
  - distinct_ids.
  - right. by left.
  - reflexivity.
  - intros p [<-|[]]. eexists. split; [by left|]. split; reflexivity.
  - exists st', out, changed. split; [exact Hload|]. split; [exact Hout|].
    apply Hblank; [discriminate|].
    intros f [<-|[<-|[]]] Hin.
    + split; [|discriminate].
      split; [reflexivity|]. split; [discriminate|by left].
    + destruct Hin as [Hin|[]]. discriminate Hin.
Defined.

(** ** Typing into a field *)

Lemma preview_handleChange_pass
    (run : string -> gmap string value -> outcome value) sch values fid v :
  PreviewForm.handleChange run (Some sch) values fid v
  = Returned (Total.pass (Total.previewValue run) true (fields sch)
                (<[fid := v]> values)).1.
Proof.
  unfold PreviewForm.handleChange. cbn zeta. by rewrite preview_update_pass.
Qed.

Lemma builder_handlePreviewChange_pass
    (run : string -> gmap string value -> outcome value) fs values fid v :
  CreateForm.handlePreviewChange run fs values fid v
  = Returned (Total.pass (Total.builderValue run) false fs (<[fid := v]> values)).1.
Proof.
  unfold CreateForm.handlePreviewChange. cbn zeta. rewrite builder_update_total.
  cbn [bind]. cbn zeta.
  destruct (Total.pass _ _ _ _).2 eqn:Hfl; [done|].
  unfold Total.pass in *. apply fold_flag_false in Hfl. by rewrite Hfl.
Qed.

(** X7. When the field typed into is not the id of a derived field with
    parents and formula, [handleChange] (and the builder's
    [handlePreviewChange]) leaves the typed value under that id, and
    every other key that is not such an id keeps the value it had:
    reconciliation never overwrites what the user entered. *)
Theorem typed_value_is_kept
    (run : string -> gmap string value -> outcome value)
    (sch : FormSchema) (values : gmap string value) (fid : string) (v : value) :
  (forall f, In f (fields sch) -> is_Some (derivation f) -> id f <> fid) ->
  (exists out,
      PreviewForm.handleChange run (Some sch) values fid v = Returned out
      /\ out !! fid = Some v
      /\ forall k, k <> fid ->
           (forall f, In f (fields sch) -> is_Some (derivation f) -> id f <> k) ->
           out !! k = values !! k)
  /\ (exists out,
         CreateForm.handlePreviewChange run (fields sch) values fid v = Returned out
         /\ out !! fid = Some v
         /\ forall k, k <> fid ->
              (forall f, In f (fields sch) -> is_Some (derivation f) -> id f <> k) ->
              out !! k = values !! k).
Proof.
  intros Hfid. split.
  - eexists. split; [apply preview_handleChange_pass|]. unfold Total.pass. split.
    + rewrite fold_frame by done. apply lookup_insert_eq.
    + intros k Hk Hkd. rewrite fold_frame by done. by apply lookup_insert_ne.
  - eexists. split; [apply builder_handlePreviewChange_pass|]. unfold Total.pass. split.
    + rewrite fold_frame by done. apply lookup_insert_eq.
    + intros k Hk Hkd. rewrite fold_frame by done. by apply lookup_insert_ne.
Qed.

Lemma typed_value_is_kept_witness :
  exists out,
    PreviewForm.handleChange Engine.run (Some scoreSchema) ∅ "A" (VStr "10")
    = Returned out
    /\ out !! "A" = Some (VStr "10").
Proof.
  destruct (typed_value_is_kept Engine.run scoreSchema ∅ "A" (VStr "10"))
    as [(out & Hout & HA & _) _].
  - intros f [<-|[<-|[]]]; [intros [? Hd]; discriminate Hd|discriminate].
  - exists out. split; [exact Hout|exact HA].
Defined.

(** ** Checkbox options *)

Lemma includes_In x (l : list string) : includes x l = true <-> In x l.
Proof.
  unfold includes. rewrite existsb_exists. split.
  - by intros (y & Hy & ->%String.eqb_eq).
  - intros H. exists x. split; [done|apply String.eqb_refl].
Qed.

Lemma NoDup_list_filter {A : Type} (f : A -> bool) (l : list A) :
  NoDup l -> NoDup (List.filter f l).
Proof.
  induction 1 as [|x l Hx Hl IH]; cbn; [constructor|].
  destruct (f x); [|done]. constructor; [|done].
  intros Hin%list_elem_of_In%filter_In. apply Hx, list_elem_of_In. tauto.
Qed.

(** X8. Toggling a checkbox option gives the array the state asked for:
    afterwards the option is shown checked exactly when it was being
    checked, every other option is shown as before, and the items that
    were there stay in their order; a value that is not an array counts
    as no option checked. *)
Theorem option_toggle_state (v : value) (opt : string) (checked : bool)
    (r : nat) (other : string) :
  PreviewForm.optionChecked
    (VArr r (PreviewForm.optionToggled v opt checked)) opt = checked
  /\ (other <> opt ->
      PreviewForm.optionChecked
        (VArr r (PreviewForm.optionToggled v opt checked)) other
      = includes other (arrayOr v))
  /\ List.filter (fun x => negb (String.eqb x opt))
       (PreviewForm.optionToggled v opt checked)
     = List.filter (fun x => negb (String.eqb x opt)) (arrayOr v).
Proof.
  unfold PreviewForm.optionChecked, PreviewForm.optionToggled.
  cbn [isArray arrayOr andb]. cbn zeta. split; [|split].
  - apply eq_true_iff_eq. rewrite includes_In. destruct checked.
    + split; [done|]. intros _. apply in_or_app. right. by left.
    + rewrite filter_In, String.eqb_refl. by split; [intros [_ ?]|].
  - intros Hne. apply eq_true_iff_eq. rewrite !includes_In. destruct checked.
    + rewrite in_app_iff. split; [intros [H|[H|[]]]; [done|congruence]|by left].
    + rewrite filter_In. apply String.eqb_neq in Hne. rewrite Hne. tauto.
  - destruct checked.
    + rewrite List.filter_app. cbn. rewrite String.eqb_refl. cbn. apply app_nil_r.
    + induction (arrayOr v) as [|x l IH]; [done|]. cbn.
      destruct (negb (String.eqb x opt)) eqn:Hx; cbn; rewrite ?Hx; by rewrite IH.
Qed.

(** X9. When a checkbox option is toggled from the state it is shown in
    (checked when it is absent, unchecked when it is present), an array
    without repetition stays without repetition; and unchecking an
    option that has just been checked gives back the items there were
    before. *)
Theorem option_toggle_round_trip (v : value) (opt : string) (r : nat) :
  NoDup (arrayOr v) ->
  NoDup (PreviewForm.optionToggled v opt (negb (PreviewForm.optionChecked v opt)))
  /\ (PreviewForm.optionChecked v opt = false ->
      PreviewForm.optionToggled
        (VArr r (PreviewForm.optionToggled v opt true)) opt false
      = arrayOr v).
Proof.
  intros Hnd. unfold PreviewForm.optionToggled, PreviewForm.optionChecked.
  cbn [arrayOr]. cbn zeta. split.
  - destruct (isArray v && includes opt (arrayOr v)) eqn:Hc; cbn [negb].
    + by apply NoDup_list_filter.
    + apply NoDup_app. split; [done|]. split; [|apply NoDup_singleton].
      intros x Hx ->%list_elem_of_singleton.
      assert (includes opt (arrayOr v) = true) as Hi
        by (by apply includes_In, list_elem_of_In).
      rewrite Hi, andb_true_r in Hc.
      destruct v; cbn in *; try done.
  - intros Hc. rewrite List.filter_app. cbn. rewrite String.eqb_refl. cbn.
    rewrite app_nil_r.
    assert (~ In opt (arrayOr v)) as Hnot.
    { intros Hi%includes_In. rewrite Hi, andb_true_r in Hc.
      destruct v; cbn in *; done. }
    clear -Hnot. induction (arrayOr v) as [|x l IH]; [done|]. cbn.
    destruct (String.eqb x opt) eqn:Hx.
    + apply String.eqb_eq in Hx. subst. exfalso. apply Hnot. by left.
    + cbn. f_equal. apply IH. intros H. apply Hnot. by right.
Qed.

Lemma option_toggle_round_trip_witness :
  PreviewForm.optionToggled
    (VArr 1 (PreviewForm.optionToggled (VArr 0 ["a"]) "b" true)) "b" false
  = ["a"].
Proof.
  apply (option_toggle_round_trip (VArr 0 ["a"]) "b" 1).
  - cbn. distinct_ids.
  - reflexivity.
Defined.

(** ** The builder's field list *)

(** X10. [addField] keeps the fields there are and adds one at the end,
    with the identifier it was given, the type selected, an empty label,
    not derived (no [derived], [parentFields] or [formula] key), without
    default value, not required and with no other rule; its options are [Option 1] and
    [Option 2] exactly when the type is select, radio or checkbox (the
    empty list first given to a select does not survive) and absent
    otherwise. With an identifier not yet in use, ids stay distinct. *)
Theorem addField_appends (uuid : string) (t : CreateForm.FieldType)
    (fs : list Field) :
  exists f,
    CreateForm.addField uuid t fs = (fs ++ [f])%list
    /\ id f = uuid
    /\ type f = CreateForm.typeName t
    /\ label f = EmptyString
    /\ isDerived f = false
    /\ derived f = None /\ parentFields f = None /\ formula f = None
    /\ defaultValue f = None
    /\ validation f = mkValidation false None None None None None None
    /\ options f
       = match t with
         | CreateForm.TSelect | CreateForm.TRadio | CreateForm.TCheckbox =>
             Some ["Option 1"; "Option 2"]
         | _ => None
         end
    /\ (NoDup (map id fs) -> ~ In uuid (map id fs) ->
        NoDup (map id (CreateForm.addField uuid t fs))).
Proof.
  unfold CreateForm.addField.
  destruct t; cbn; (eexists; split; [reflexivity|]); cbn; repeat split; try done.
  all: intros Hnd Hfresh; rewrite map_app; cbn; apply NoDup_app;
    (split; [done|]); (split; [|apply NoDup_singleton]);
    intros x Hx ->%list_elem_of_singleton; by apply Hfresh, list_elem_of_In.
Qed.

Lemma addField_appends_witness :
  NoDup (map id (CreateForm.addField "u2" CreateForm.TSelect
                   [inputField "u1" "text" "Name" noValidation])).
Proof.
  destruct (addField_appends "u2" CreateForm.TSelect
              [inputField "u1" "text" "Name" noValidation])
    as (f & _ & _ & _ & _ & _ & _ & _ & _ & _ & _ & _ & Hnd).
  apply Hnd.
  - distinct_ids.
  - intros [Heq|[]]. discriminate Heq.
Defined.

Lemma merge_merge f u : CreateForm.merge (CreateForm.merge f u) u = CreateForm.merge f u.
Proof.
  unfold CreateForm.merge. destruct u as [i t l d o v dr p fm]. cbn.
  destruct i, t, l, d, o, v, dr, p, fm; reflexivity.
Qed.

Lemma merge_noUpdate f : CreateForm.merge f CreateForm.noUpdate = f.
Proof. by destruct f. Qed.

Lemma merge_id f u : CreateForm.p_id u = None -> id (CreateForm.merge f u) = id f.
Proof. intros H. unfold CreateForm.merge. cbn. by rewrite H. Qed.

(** X11. [updateField] touches only the fields that bear the id: with no
    such field the list is unchanged; an update that does not set [id]
    leaves the ids, their order and so their distinctness as they were;
    applying the same update twice is applying it once; an update with
    no key changes nothing; and updates of two different ids that do not
    set [id] can be applied in either order. *)
Theorem updateField_laws (fid : string) (u : CreateForm.PartialField)
    (fs : list Field) :
  ((forall f, In f fs -> id f <> fid) -> CreateForm.updateField fid u fs = fs)
  /\ (CreateForm.p_id u = None ->
      map id (CreateForm.updateField fid u fs) = map id fs)
  /\ CreateForm.updateField fid u (CreateForm.updateField fid u fs)
     = CreateForm.updateField fid u fs
  /\ CreateForm.updateField fid CreateForm.noUpdate fs = fs
  /\ (forall fid' u',
        fid' <> fid -> CreateForm.p_id u = None -> CreateForm.p_id u' = None ->
        CreateForm.updateField fid u (CreateForm.updateField fid' u' fs)
        = CreateForm.updateField fid' u' (CreateForm.updateField fid u fs)).
Proof.
  unfold CreateForm.updateField. repeat split.
  - intros Hno. induction fs as [|f fs IH]; [done|]. cbn.
    assert (String.eqb (id f) fid = false) as ->
      by (apply String.eqb_neq, Hno; by left).
    f_equal. apply IH. intros g Hg. apply Hno. by right.
  - intros Hid. rewrite map_map. apply map_ext. intros f.
    destruct (String.eqb (id f) fid); [by apply merge_id|done].
  - rewrite map_map. apply map_ext. intros f.
    destruct (String.eqb (id f) fid) eqn:Hf; [|by rewrite Hf].
    destruct (String.eqb (id (CreateForm.merge f u)) fid); [apply merge_merge|done].
  - rewrite <- (map_id fs) at 2. apply map_ext. intros f.
    destruct (String.eqb (id f) fid); [apply merge_noUpdate|done].
  - intros fid' u' Hne Hu Hu'. rewrite !map_map. apply map_ext. intros f.
    destruct (String.eqb (id f) fid') eqn:H1; destruct (String.eqb (id f) fid) eqn:H2;
      rewrite ?merge_id, ?H1, ?H2 by done; try done.
    apply String.eqb_eq in H1, H2. congruence.
Qed.

Lemma updateField_laws_witness :
  map id (CreateForm.updateField "A"
            (CreateForm.mkPartial None None (Some "Points") None None None None None None)
            (fields scoreSchema))
  = ["A"; "B"].
Proof.
  apply (updateField_laws "A"
           (CreateForm.mkPartial None None (Some "Points") None None None None None None)
           (fields scoreSchema)).
  reflexivity.
Defined.

Lemma findField_filter fid fs k :
  findField (List.filter (fun field => negb (String.eqb (id field) fid)) fs) k
  = if String.eqb k fid then None else findField fs k.
Proof.
  unfold findField. induction fs as [|f fs IH]; cbn.
  - by destruct (String.eqb k fid).
  - destruct (String.eqb (id f) fid) eqn:Hf; cbn.
    + rewrite IH. destruct (String.eqb k fid) eqn:Hk; [done|].
      assert (String.eqb (id f) k = false) as ->; [|done].
      apply String.eqb_eq in Hf. apply String.eqb_neq in Hk.
      apply String.eqb_neq. congruence.
    + destruct (String.eqb (id f) k) eqn:Hfk; [|apply IH].
      assert (String.eqb k fid = false) as ->; [|done].
      apply String.eqb_eq in Hfk. apply String.eqb_neq in Hf.
      apply String.eqb_neq. congruence.
Qed.

Lemma filter_ids_NoDup (p : Field -> bool) fs :
  NoDup (map id fs) -> NoDup (map id (List.filter p fs)).
Proof.
  induction fs as [|f fs IH]; cbn; [done|].
  intros [Hf Hnd]%NoDup_cons. destruct (p f); cbn; [|by apply IH].
  apply NoDup_cons. split; [|by apply IH].
  intros Hin. apply Hf. apply list_elem_of_In in Hin. apply list_elem_of_In.
  apply in_map_iff in Hin as (g & Hg & Hin). apply in_map_iff.
  exists g. split; [done|]. by apply filter_In in Hin as [Hin _].
Qed.

(** X12. [deleteField] removes the fields that bear the id and that
    key of the preview values, and nothing else: afterwards no field is
    found under the id, every other id finds the field it found before,
    the other fields keep their order, the preview values have no entry
    for the id and their other entries are unchanged; distinct ids stay
    distinct, and deleting an id no field bears changes no field. *)
Theorem deleteField_removes (fid : string) (fs : list Field)
    (previewValues : gmap string value) :
  let after := CreateForm.deleteField fid fs previewValues in
  findField after.1 fid = None
  /\ (forall k, k <> fid -> findField after.1 k = findField fs k)
  /\ (forall f, In f after.1 <-> In f fs /\ id f <> fid)
  /\ sublist after.1 fs
  /\ after.2 !! fid = None
  /\ (forall k, k <> fid -> after.2 !! k = previewValues !! k)
  /\ (NoDup (map id fs) -> NoDup (map id after.1))
  /\ (findField fs fid = None -> after.1 = fs).
Proof.
  intros after. subst after. unfold CreateForm.deleteField. cbn [fst snd].
  repeat split.
  - rewrite findField_filter. by rewrite String.eqb_refl.
  - intros k Hk. rewrite findField_filter.
    by apply String.eqb_neq in Hk as ->.
  - by apply filter_In in H as [H _].
  - apply filter_In in H as [_ H]. apply negb_true_iff in H.
    by apply String.eqb_neq in H.
  - intros [Hin Hne]. apply filter_In. split; [done|].
    apply negb_true_iff. by apply String.eqb_neq.
  - induction fs as [|f fs IH]; cbn; [constructor|].
    destruct (negb _); [by apply sublist_skip|by apply sublist_cons].
  - apply lookup_delete_eq.
  - intros k Hk. by apply lookup_delete_ne.
  - apply filter_ids_NoDup.
  - unfold findField. induction fs as [|f fs IH]; cbn; [done|].
    destruct (String.eqb (id f) fid); [done|]. cbn. intros H. f_equal. by apply IH.
Qed.

(** X13. Deleting a parent leaves its derived field behind in the
    builder: after [deleteField] of an id that a derived field lists
    among its parents, a pass of the builder's [updateDerivedFields]
    over the fields and preview values that remain does not touch the
    derived field's entry, so the preview goes on showing the value
    computed from the deleted parent; the form renderer, given the same
    fields and values, leaves no entry for it. *)
Theorem deleted_parent_value_survives
    (run : string -> gmap string value -> outcome value)
    (fid name : string) (fs : list Field) (previewValues : gmap string value)
    (g : Field) (parents : list string) (fm : string) :
  NoDup (map id fs) -> In g fs -> id g <> fid ->
  derivation g = Some (parents, fm) -> In fid parents ->
  let after := CreateForm.deleteField fid fs previewValues in
  (exists set,
      CreateForm.updateDerivedFields run after.1 after.2 = Returned set
      /\ forall out, set = Some out -> out !! id g = previewValues !! id g)
  /\ (exists out changed,
         PreviewForm.updateDerivedFields run (Some (mkFormSchema name after.1)) after.2
         = Returned (out, changed)
         /\ out !! id g = None).
Proof.
  intros Hnd Hg Hne Hd Hp after.
  assert (NoDup (map id after.1)) as Hnd' by by apply filter_ids_NoDup.
  assert (In g after.1) as Hg'.
  { apply filter_In. split; [done|]. apply negb_true_iff. by apply String.eqb_neq. }
  assert ((buildContext after.1 after.2 parents).2 = false) as Hmiss.
  { apply not_true_is_false. intros Hall.
    destruct (proj1 (hasAllParents_iff _ _ _) Hall fid Hp) as [[pf Hpf] _].
    subst after. unfold CreateForm.deleteField in Hpf. cbn [fst snd] in Hpf.
    rewrite findField_filter, String.eqb_refl in Hpf. done. }
  split.
  - destruct (builder_reconciled_entry run _ after.2 g Hnd' Hg') as (set & Hset & Hout).
    exists set. split; [done|]. intros out Hs. rewrite (Hout out Hs).
    unfold Total.entryAfter. rewrite Hd, Hmiss. cbn. by apply lookup_delete_ne.
  - destruct (preview_reconciled_entry run (mkFormSchema name after.1) after.2 g Hnd' Hg')
      as (out & changed & Hrun & Hout).
    exists out, changed. split; [done|]. rewrite Hout.
    unfold Total.entryAfter. cbn [fields]. by rewrite Hd, Hmiss.
Qed.

Lemma deleted_parent_value_survives_witness :
  let after := CreateForm.deleteField "A" (fields scoreSchema)
                 {[ "A" := VStr "10"; "B" := VNum 20 ]} in
  (exists set,
      CreateForm.updateDerivedFields Engine.run after.1 after.2 = Returned set
      /\ forall out, set = Some out ->
           out !! "B" = ({[ "A" := VStr "10"; "B" := VNum 20 ]} : gmap string value) !! "B")
  /\ (exists out changed,
         PreviewForm.updateDerivedFields Engine.run
           (Some (mkFormSchema "scores" after.1)) after.2
         = Returned (out, changed)
         /\ out !! "B" = None).
Proof.
  apply (deleted_parent_value_survives Engine.run "A" "scores" (fields scoreSchema)
           {[ "A" := VStr "10"; "B" := VNum 20 ]}
           (derivedField "B" "Double" ["A"] "score * 2" noValidation)
           ["A"] "score * 2").
  - distinct_ids.
  - right. left. reflexivity.
  - discriminate.
  - reflexivity.
  - left. reflexivity.
Defined.

(** ** Parents on offer *)

Lemma trimLeft_blank s : allChars isWhiteSpace (trimLeft s) = allChars isWhiteSpace s.
Proof.
  induction s as [|c r IH]; [done|]. cbn [trimLeft].
  destruct (isWhiteSpace c) eqn:Hc; [|done]. cbn [allChars]. by rewrite Hc, IH.
Qed.

Lemma trimRight_empty s :
  trimRight s = EmptyString <-> allChars isWhiteSpace s = true.
Proof.
  induction s as [|c r IH]; [done|]. cbn [trimRight allChars].
  destruct (trimRight r) eqn:Hr.
  - rewrite (proj1 IH eq_refl), andb_true_r. by destruct (isWhiteSpace c).
  - split; [done|]. intros [_ H]%andb_true_iff. by apply IH in H.
Qed.

Lemma trim_empty s : trim s = EmptyString <-> allChars isWhiteSpace s = true.
Proof. unfold trim. by rewrite trimRight_empty, trimLeft_blank. Qed.

(** X14. The parents the editor offers for a field are the fields of
    the builder, in their order, other than the field itself, not
    marked as derived, and whose label has a character that is not
    white space (tab, line feed, vertical tab, form feed, carriage
    return, space or no-break space). *)
Theorem available_parents (fs : list Field) (currentFieldId : string) (f : Field) :
  (In f (CreateForm.getAvailableParentFields fs currentFieldId)
   <-> In f fs /\ id f <> currentFieldId /\ isDerived f = false
       /\ anyChar (fun c => negb (isSpace c)) (label f) = true)
  /\ sublist (CreateForm.getAvailableParentFields fs currentFieldId) fs.
Proof.
  unfold CreateForm.getAvailableParentFields. split.
  - rewrite filter_In, !andb_true_iff, !negb_true_iff.
    assert (String.eqb (trim (label f)) EmptyString = false
            <-> anyChar (fun c => negb (isSpace c)) (label f) = true) as ->.
    { unfold anyChar. rewrite negb_true_iff.
      assert (allChars (fun c => negb (negb (isSpace c))) (label f)
              = allChars isWhiteSpace (label f)) as ->.
      { induction (label f) as [|c r IH]; [done|]. cbn [allChars].
        by rewrite negb_involutive, isWhiteSpace_table, IH. }
      rewrite String.eqb_neq, trim_empty. by destruct (allChars _ _). }
    rewrite String.eqb_neq. tauto.
  - induction fs as [|g fs IH]; cbn [List.filter]; [constructor|].
    destruct (_ && _); [by apply sublist_skip|by apply sublist_cons].
Qed.

(** X15. Ticking a parent's checkbox adds its id at the end of the
    derived field's parents and unticking removes every occurrence of it;
    either way the field keeps its id and every key other than
    [parentFields], the other parents stay listed in their order, and
    unticking a parent that has just been ticked (it is offered unticked
    only when it is not yet listed) gives back the parents there were. *)
Theorem parent_toggle_state (field : Field) (parentId : string) (checked : bool) :
  let after := CreateForm.merge field (CreateForm.parentToggled field parentId checked) in
  (exists ps, parentFields after = Some ps
     /\ (checked = true ->
         ps = (default [] (parentFields field) ++ [parentId])%list)
     /\ (In parentId ps <-> checked = true)
     /\ List.filter (fun x => negb (String.eqb x parentId)) ps
        = List.filter (fun x => negb (String.eqb x parentId))
            (default [] (parentFields field)))
  /\ after = mkField (derived field) (parentFields after) (formula field) (id field)
               (type field) (label field) (defaultValue field) (options field)
               (validation field)
  /\ (~ In parentId (default [] (parentFields field)) ->
      parentFields
        (CreateForm.merge (CreateForm.merge field (CreateForm.parentToggled field parentId true))
           (CreateForm.parentToggled
              (CreateForm.merge field (CreateForm.parentToggled field parentId true))
              parentId false))
      = Some (default [] (parentFields field))).
Proof.
  cbn. split; [|split; [done|]].
  - eexists. split; [done|]. split; [by intros ->|]. destruct checked; split.
    + split; [done|]. intros _. apply in_or_app. right. by left.
    + rewrite List.filter_app. cbn. rewrite String.eqb_refl. cbn. apply app_nil_r.
    + split; [|done]. intros [_ H]%filter_In. by rewrite String.eqb_refl in H.
    + induction (default [] (parentFields field)) as [|x l IH]; [done|]. cbn.
      destruct (negb (String.eqb x parentId)) eqn:Hx; cbn; rewrite ?Hx; by rewrite IH.
  - intros Hnot. f_equal. rewrite List.filter_app. cbn. rewrite String.eqb_refl. cbn.
    rewrite app_nil_r.
    induction (default [] (parentFields field)) as [|x l IH]; [done|]. cbn.
    destruct (String.eqb x parentId) eqn:Hx.
    + apply String.eqb_eq in Hx. subst. exfalso. apply Hnot. by left.
    + cbn. f_equal. apply IH. intros H. apply Hnot. by right.
Qed.

(** ** The option editor *)

(** X16. A choice field never drops below two options in the editor.
    Given a field with at least two options and the index of one of
    them: editing the option's text changes that option and no other;
    the delete button, shown only while there are more than two options,
    removes that option, keeps the others in order and leaves at least
    two; [Add Option] returns and appends one option. Each of the three
    leaves a field with at least two options. *)
Theorem option_editor_keeps_two (field : Field) (opts : list string)
    (optIdx : nat) (text : string) :
  options field = Some opts -> (2 <= List.length opts)%nat ->
  (optIdx < List.length opts)%nat ->
  (hasTwoOptions (CreateForm.merge field (CreateForm.optionEdited field optIdx text))
   /\ exists opts',
        options (CreateForm.merge field (CreateForm.optionEdited field optIdx text))
        = Some opts'
        /\ opts' !! optIdx = Some text
        /\ forall j, j <> optIdx -> opts' !! j = opts !! j)
  /\ (CreateForm.deleteShown field = true ->
      hasTwoOptions (CreateForm.merge field (CreateForm.optionDeleted field optIdx))
      /\ options (CreateForm.merge field (CreateForm.optionDeleted field optIdx))
         = Some (take optIdx opts ++ drop (S optIdx) opts)%list)
  /\ (exists u added,
        CreateForm.optionAdded field = Returned u
        /\ options (CreateForm.merge field u) = Some (opts ++ [added])%list
        /\ hasTwoOptions (CreateForm.merge field u)).
Proof.
  intros Ho Hlen Hi. unfold hasTwoOptions, CreateForm.deleteShown,
    CreateForm.optionEdited, CreateForm.optionDeleted, CreateForm.optionAdded.
  rewrite Ho. cbn. repeat split.
  - eexists. split; [done|]. by rewrite length_insert.
  - eexists. split; [done|]. split.
    + by apply list_lookup_insert_eq.
    + intros j Hj. by apply list_lookup_insert_ne.
  - eexists. split; [done|].
    assert (2 < List.length opts)%nat
      by (destruct opts as [|? [|? [|? ?]]]; cbn in *; try done; lia).
    rewrite length_delete; [lia|]. by apply lookup_lt_is_Some.
  - by rewrite delete_take_drop.
  - eexists _, _. cbn. split; [done|]. split; [done|].
    eexists. split; [done|]. rewrite length_app. lia.
Qed.

Lemma option_editor_keeps_two_witness :
  hasTwoOptions
    (CreateForm.merge quizField (CreateForm.optionEdited quizField 1 "c")).
Proof.
  refine (proj1 (proj1 (option_editor_keeps_two quizField
                          (default [] (options quizField)) 1 "c" _ _ _))).
  - reflexivity.
  - vm_compute. lia.
  - vm_compute. lia.
Defined.

(** X17. [Add Option] names the new option after the count of options,
    so after a deletion it can repeat a name: when the last option still
    bears the number of its position and an option before it is deleted,
    the option added next is put last, is named [Option] followed by the
    number of options left plus one, and has the same text as the option
    that was last, so the options are no longer distinct. *)
Theorem add_after_delete_repeats (field : Field) (opts : list string) (optIdx : nat) :
  options field = Some opts ->
  (optIdx < List.length opts - 1)%nat ->
  opts !! (List.length opts - 1)%nat
  = Some ("Option " +:+ pretty (Z.of_nat (List.length opts))) ->
  let deleted := CreateForm.merge field (CreateForm.optionDeleted field optIdx) in
  exists u left added,
    options deleted = Some left
    /\ CreateForm.optionAdded deleted = Returned u
    /\ options (CreateForm.merge deleted u) = Some (left ++ [added])%list
    /\ added = "Option " +:+ pretty (Z.of_nat (List.length left) + 1)
    /\ last left = Some added
    /\ ~ NoDup (left ++ [added])%list.
Proof.
  intros Ho Hi Hlast deleted. subst deleted.
  unfold CreateForm.optionAdded, CreateForm.optionDeleted. rewrite Ho. cbn.
  eexists _, _, _. split; [done|]. split; [done|]. cbn. split; [done|].
  assert (List.length (delete optIdx opts) = (List.length opts - 1)%nat) as Hlen.
  { apply length_delete, lookup_lt_is_Some. lia. }
  rewrite Hlen.
  replace (Z.of_nat (List.length opts - 1) + 1)%Z with (Z.of_nat (List.length opts)) by lia.
  split; [done|].
  assert (delete optIdx opts !! (List.length opts - 2)%nat
          = Some ("Option " +:+ pretty (Z.of_nat (List.length opts)))) as Hkept.
  { rewrite list_lookup_delete_ge by lia.
    replace (S (List.length opts - 2)) with (List.length opts - 1)%nat by lia. done. }
  split.
  - rewrite last_lookup, Hlen.
    replace (Nat.pred (List.length opts - 1)) with (List.length opts - 2)%nat by lia.
    done.
  - intros Hnd. apply NoDup_app in Hnd as (_ & Hsep & _).
    apply (Hsep ("Option " +:+ pretty (Z.of_nat (List.length opts)))); [|left].
    apply list_elem_of_lookup. by exists (List.length opts - 2)%nat.
Qed.

Lemma add_after_delete_repeats_witness :
  let deleted :=
    CreateForm.merge
      (mkField None None None "r" "radio" "Pick" None
         (Some ["Option 1"; "Option 2"; "Option 3"]) noValidation)
      (CreateForm.optionDeleted
         (mkField None None None "r" "radio" "Pick" None
            (Some ["Option 1"; "Option 2"; "Option 3"]) noValidation) 1) in
  exists u left added,
    options deleted = Some left
    /\ CreateForm.optionAdded deleted = Returned u
    /\ options (CreateForm.merge deleted u) = Some (left ++ [added])%list
    /\ added = "Option " +:+ pretty (Z.of_nat (List.length left) + 1)
    /\ last left = Some added
    /\ ~ NoDup (left ++ [added])%list.
Proof.
  apply (add_after_delete_repeats
           (mkField None None None "r" "radio" "Pick" None
              (Some ["Option 1"; "Option 2"; "Option 3"]) noValidation)
           ["Option 1"; "Option 2"; "Option 3"] 1).
  - reflexivity.
  - cbn. lia.
  - reflexivity.
Defined.

(** X18. Deleting the option marked as correct leaves the mark behind.
    When the builder deletes, from a radio or select field with distinct
    options, the option that [correctAnswer] names, the field keeps that
    [correctAnswer]; in the form as saved, whichever remaining option is
    chosen, [handleSubmit] scores the field as answered incorrectly. *)
Theorem deleted_correct_option_unanswerable (values : gmap string value)
    (field : Field) (opts : list string) (optIdx : nat) (answer chosen : string)
    (st : bool * string) :
  type field = "radio" \/ type field = "select" ->
  options field = Some opts -> NoDup opts -> opts !! optIdx = Some answer ->
  correctAnswer (validation field) = Some answer -> answer <> EmptyString ->
  let saved := CreateForm.merge field (CreateForm.optionDeleted field optIdx) in
  In chosen (default [] (options saved)) ->
  values !! id saved = Some (VStr chosen) ->
  correctAnswer (validation saved) = Some answer
  /\ PreviewForm.scoreField values st saved
     = (false, st.2 +:+ PreviewForm.incorrectLine saved).
Proof.
  intros Hty Ho Hnd Hi Hca Hne saved Hin Hv. split; [done|].
  rewrite scoreField_wrong.
  assert (answeredWrong values saved = true) as ->; [|done].
  assert (chosen <> answer) as Hdiff.
  { subst saved. unfold CreateForm.optionDeleted in Hin. rewrite Ho in Hin.
    cbn in Hin. intros ->.
    apply list_elem_of_In, list_elem_of_lookup in Hin as [j Hj].
    rewrite list_lookup_delete in Hj.
    destruct (decide (j < optIdx)%nat) as [Hlt|Hge];
      pose proof (NoDup_lookup _ _ _ _ Hnd Hi Hj); lia. }
  unfold answeredWrong, JS.get.
  assert (type saved = type field) as -> by done.
  assert (correctAnswer (validation saved) = Some answer) as -> by done.
  rewrite Hv. cbn [default from_option]. unfold Datatypes.id.
  assert (strict_neq (VStr chosen) (VStr answer) = true) as Hneq.
  { unfold strict_neq. cbn. apply negb_true_iff. by apply String.eqb_neq. }
  rewrite Hneq, andb_true_r.
  assert (String.eqb answer EmptyString = false) as -> by by apply String.eqb_neq.
  by destruct Hty as [-> | ->].
Qed.

Lemma deleted_correct_option_unanswerable_witness :
  PreviewForm.scoreField {[ "r" := VStr "a" ]} (true, EmptyString)
    (mkField None None None "r" "radio" "Pick" None (Some ["a"; "c"])
       (mkValidation false None None None None None (Some "b")))
  = (false,
     EmptyString +:+
     PreviewForm.incorrectLine
       (mkField None None None "r" "radio" "Pick" None (Some ["a"; "c"])
          (mkValidation false None None None None None (Some "b")))).
Proof.
  refine (proj2 (deleted_correct_option_unanswerable {[ "r" := VStr "a" ]}
           (mkField None None None "r" "radio" "Pick" None (Some ["a"; "b"; "c"])
              (mkValidation false None None None None None (Some "b")))
           ["a"; "b"; "c"] 1 "b" "a" (true, EmptyString) _ _ _ _ _ _ _ _)).
  - by left.
  - reflexivity.
  - distinct_ids.
  - reflexivity.
  - reflexivity.
  - discriminate.
  - left. reflexivity.
  - reflexivity.
Defined.

(** ** The store *)

Lemma getItem_setItem_eq store k t :
  Storage.getItem (Storage.setItem store k t) k = Some t.
Proof.
  unfold Storage.getItem, Storage.setItem.
  destruct (existsb _ store) eqn:Hex.
  - induction store as [|[k' t'] store IH]; [done|]. cbn in *.
    destruct (String.eqb k' k) eqn:Hk; cbn.
    + by rewrite String.eqb_refl.
    + rewrite Hk. by apply IH.
  - induction store as [|[k' t'] store IH]; cbn in *.
    + by rewrite String.eqb_refl.
    + apply orb_false_iff in Hex as [Hk Hex]. rewrite Hk. by apply IH.
Qed.

Lemma getItem_setItem_ne store k t k' :
  k' <> k -> Storage.getItem (Storage.setItem store k t) k' = Storage.getItem store k'.
Proof.
  intros Hne. unfold Storage.getItem, Storage.setItem.
  assert (String.eqb k k' = false) as Hkk by (apply String.eqb_neq; congruence).
  destruct (existsb _ store).
  - induction store as [|[k0 t0] store IH]; [done|]. cbn.
    destruct (String.eqb k0 k) eqn:Hk; cbn.
    + apply String.eqb_eq in Hk. subst k0. by rewrite Hkk.
    + destruct (String.eqb k0 k'); [done|apply IH].
  - induction store as [|[k0 t0] store IH]; cbn.
    + by rewrite Hkk.
    + destruct (String.eqb k0 k'); [done|apply IH].
Qed.

Lemma keys_setItem store k t :
  Storage.keys (Storage.setItem store k t)
  = if bool_decide (k ∈ Storage.keys store) then Storage.keys store
    else (Storage.keys store ++ [k])%list.
Proof.
  unfold Storage.keys, Storage.setItem.
  destruct (existsb _ store) eqn:Hex.
  - rewrite bool_decide_eq_true_2.
    + clear Hex. induction store as [|[k0 t0] store IH]; [done|]. cbn.
      destruct (String.eqb k0 k) eqn:Hk; cbn; [|by rewrite <- IH].
      apply String.eqb_eq in Hk. subst. by rewrite <- IH.
    + apply existsb_exists in Hex as ([k0 t0] & Hin & Hk%String.eqb_eq).
      cbn in Hk. subst. apply list_elem_of_In, in_map_iff. by exists (k, t0).
  - rewrite bool_decide_eq_false_2.
    + by rewrite fmap_app.
    + intros Hin. apply list_elem_of_In, in_map_iff in Hin as ([k0 t0] & Hk & Hin). cbn in Hk. subst.
      assert (existsb (fun kv => String.eqb kv.1 k) store = true) as Ht; [|congruence].
      apply existsb_exists. exists (k, t0). split; [done|apply String.eqb_refl].
Qed.

Lemma getItem_removeItem_eq store k :
  Storage.getItem (Storage.removeItem store k) k = None.
Proof.
  unfold Storage.getItem, Storage.removeItem.
  induction store as [|[k0 t0] store IH]; [done|]. cbn.
  destruct (String.eqb k0 k) eqn:Hk; cbn; [done|]. by rewrite Hk.
Qed.

Lemma getItem_removeItem_ne store k k' :
  k' <> k -> Storage.getItem (Storage.removeItem store k) k' = Storage.getItem store k'.
Proof.
  intros Hne. unfold Storage.getItem, Storage.removeItem.
  induction store as [|[k0 t0] store IH]; [done|]. cbn.
  destruct (String.eqb k0 k) eqn:Hk; cbn.
  - apply String.eqb_eq in Hk. subst k0.
    assert (String.eqb k k' = false) as -> by (apply String.eqb_neq; congruence).
    done.
  - destruct (String.eqb k0 k'); [done|apply IH].
Qed.

Lemma prefix_append (p s : string) : String.prefix p (p +:+ s) = true.
Proof.
  induction p as [|c p IH]; cbn.
  - by destruct s.
  - rewrite append_cons. cbn. by destruct (ascii_dec c c).
Qed.

Lemma listed_in_loaded (JSON_parse : string -> outcome FormSchema) store k data :
  In (k, data)
     (omap (Total.listed JSON_parse store)
        (List.filter (String.prefix "form_") (Storage.keys store)))
  <-> In k (Storage.keys store) /\ String.prefix "form_" k = true
      /\ exists raw, Storage.getItem store k = Some raw /\ raw <> EmptyString
                     /\ JSON_parse raw = Returned data.
Proof.
  rewrite <- list_elem_of_In, list_elem_of_omap. split.
  - intros (k' & Hk'%list_elem_of_In%filter_In & Hl).
    apply listed_Some in Hl as (-> & Hraw). tauto.
  - intros (Hk & Hp & Hraw). exists k. split.
    + by apply list_elem_of_In, filter_In.
    + by apply listed_Some.
Qed.

(** ** Saving and opening a form *)

(** X19. A form saved in the builder is listed and opens. When the text
    [JSON.stringify] gives for the schema is not empty and [JSON.parse]
    reads it back as that schema, then after [saveForm]: the builder is
    reset (no fields, no name, dialog closed, no preview values);
    [MyForms] lists the form under the key [form_] followed by its name;
    the renderer's load effect, opened under that key, returns with the
    schema set and leaves the loading state; and every other record of
    the store reads as before. *)
Theorem saved_form_is_listed_and_opens
    (JSON_stringify : FormSchema -> string -> string)
    (JSON_parse : string -> outcome FormSchema)
    (createdAt : string) (st : CreateForm.State) (store : list (string * string))
    (next : nat) (pst : PreviewForm.State) :
  let sch := mkFormSchema (CreateForm.st_formName st) (CreateForm.st_fields st) in
  let key := "form_" +:+ CreateForm.st_formName st in
  JSON_stringify sch createdAt <> EmptyString ->
  JSON_parse (JSON_stringify sch createdAt) = Returned sch ->
  let after := CreateForm.saveForm JSON_stringify createdAt st store in
  after.1 = CreateForm.mkState [] EmptyString false ∅
  /\ (exists forms,
         MyForms.loadedForms JSON_parse after.2 = Returned forms
         /\ In (key, sch) forms)
  /\ (exists pst',
         PreviewForm.loadEffect JSON_parse after.2 next (Some key) pst = Returned pst'
         /\ PreviewForm.st_schema pst' = Some sch
         /\ PreviewForm.showsLoading pst' = false)
  /\ (forall k, k <> key -> Storage.getItem after.2 k = Storage.getItem store k).
Proof.
  intros sch key Hne Hparse after. subst after. unfold CreateForm.saveForm.
  cbn [fst snd]. fold sch. fold key.
  split; [done|]. split; [|split].
  - eexists. split; [apply loadedForms_total|].
    apply listed_in_loaded. split; [|split].
    + rewrite keys_setItem. case_bool_decide; [by apply list_elem_of_In|].
      apply in_or_app. right. by left.
    + apply prefix_append.
    + exists (JSON_stringify sch createdAt). by rewrite getItem_setItem_eq.
  - unfold PreviewForm.loadEffect. rewrite getItem_setItem_eq.
    assert (String.eqb key EmptyString = false) as -> by done.
    apply String.eqb_neq in Hne. rewrite Hne, Hparse. cbn.
    eexists. split; [done|]. done.
  - intros k Hk. by apply getItem_setItem_ne.
Qed.

Lemma saved_form_is_listed_and_opens_witness :
  exists forms,
    MyForms.loadedForms parseStored
      (CreateForm.saveForm stringifyStored "2024-01-01T00:00:00.000Z"
         (CreateForm.mkState (fields storedSchema) "stored" true ∅) []).2
    = Returned forms
    /\ In ("form_stored", storedSchema) forms.
Proof.
  refine (proj1 (proj2 (saved_form_is_listed_and_opens stringifyStored parseStored
                          "2024-01-01T00:00:00.000Z"
                          (CreateForm.mkState (fields storedSchema) "stored" true ∅)
                          [] 0 PreviewForm.initialState _ _))).
  - discriminate.
  - reflexivity.
Defined.

(** X20. Saving under a name already used replaces the earlier form
    without asking. When a second form is saved under the name of a
    first, the store keeps the keys it had after the first save, in
    their order; the record under the key is the text of the second
    form; and every other record reads as it did before the two
    saves. *)
Theorem save_replaces_same_name
    (JSON_stringify : FormSchema -> string -> string)
    (created1 created2 : string) (st1 st2 : CreateForm.State)
    (store : list (string * string)) :
  CreateForm.st_formName st1 = CreateForm.st_formName st2 ->
  let key := "form_" +:+ CreateForm.st_formName st2 in
  let first := (CreateForm.saveForm JSON_stringify created1 st1 store).2 in
  let second := (CreateForm.saveForm JSON_stringify created2 st2 first).2 in
  Storage.keys second = Storage.keys first
  /\ Storage.getItem second key
     = Some (JSON_stringify
               (mkFormSchema (CreateForm.st_formName st2) (CreateForm.st_fields st2))
               created2)
  /\ (forall k, k <> key -> Storage.getItem second k = Storage.getItem store k).
Proof.
  intros Hname key first second. subst first second.
  unfold CreateForm.saveForm. cbn [fst snd]. rewrite Hname. fold key.
  split; [|split].
  - rewrite (keys_setItem (Storage.setItem _ _ _)).
    rewrite bool_decide_eq_true_2; [done|].
    rewrite keys_setItem. case_bool_decide; [done|].
    apply elem_of_app. right. by apply list_elem_of_singleton.
  - apply getItem_setItem_eq.
  - intros k Hk. by rewrite !getItem_setItem_ne.
Qed.

Lemma save_replaces_same_name_witness :
  Storage.getItem
    (CreateForm.saveForm stringifyStored "2024-01-02T00:00:00.000Z"
       (CreateForm.mkState (fields storedSchema) "stored" true ∅)
       (CreateForm.saveForm stringifyStored "2024-01-01T00:00:00.000Z"
          (CreateForm.mkState [] "stored" true ∅) []).2).2
    "form_stored"
  = Some "stored".
Proof.
  refine (proj1 (proj2 (save_replaces_same_name stringifyStored
                          "2024-01-01T00:00:00.000Z" "2024-01-02T00:00:00.000Z"
                          (CreateForm.mkState [] "stored" true ∅)
                          (CreateForm.mkState (fields storedSchema) "stored" true ∅)
                          [] _))).
  reflexivity.
Defined.

(** ** The storage helpers *)

Section StorageHelpers.
Variable A : Type.
Variable JSON_parse : string -> outcome A.

Local Abbreviation body := (collectKey JSON_parse).

Lemma getAllForms_keys store :
  StorageUtils.getAllForms A JSON_parse store
  = forEach (body store) (Storage.keys store) ∅.
Proof.
  unfold StorageUtils.getAllForms, Storage.length, Storage.keys.
  generalize (∅ : gmap string A).
  assert (forall (pre l : list string) (m : gmap string A),
            (forall i, nth_error (store.*1) (List.length pre + i) = nth_error l i) ->
            forEach (StorageUtils.collectForm A JSON_parse store)
              (seq (List.length pre) (List.length l)) m
            = forEach (body store) l m) as Hgen.
  { intros pre l. revert pre. induction l as [|k l IH]; intros pre m Hnth; [done|].
    cbn [List.length seq forEach].
    assert (StorageUtils.collectForm A JSON_parse store m (List.length pre)
            = body store m k) as ->.
    { unfold StorageUtils.collectForm, Storage.key, collectKey, recordText.
      specialize (Hnth 0%nat). rewrite Nat.add_0_r in Hnth. rewrite Hnth.
      cbn [nth_error]. reflexivity. }
    destruct (body store m k) as [m'|]; [|done]. cbn [bind].
    specialize (IH (pre ++ [k])%list m').
    rewrite length_app, Nat.add_1_r in IH. apply IH.
    intros i. specialize (Hnth (S i)). by rewrite Nat.add_succ_r in Hnth. }
  intros m. specialize (Hgen [] (store.*1) m).
  rewrite length_fmap in Hgen. by apply Hgen.
Qed.

Lemma body_fold_thrown store l m :
  forEach (body store) l m = Thrown
  <-> exists k, In k l /\ k <> EmptyString /\ JSON_parse (recordText store k) = Thrown.
Proof.
  revert m. induction l as [|k l IH]; intros m; cbn [forEach].
  - split; [done|]. by intros (k & [] & _).
  - unfold collectKey at 1. destruct (String.eqb k EmptyString) eqn:Hk; cbn [negb].
    + cbn [bind]. rewrite IH. apply String.eqb_eq in Hk.
      split; intros (k' & Hin & Hne & Hp); exists k'.
      * split; [by right|done].
      * destruct Hin as [<-|Hin]; [done|]. done.
    + apply String.eqb_neq in Hk.
      destruct (JSON_parse (recordText store k)) as [c|] eqn:Hp; cbn [bind].
      * rewrite IH. split; intros (k' & Hin & Hne & Hp'); exists k'.
        -- split; [by right|done].
        -- destruct Hin as [<-|Hin]; [congruence|done].
      * split; [|done]. intros _. exists k. split; [by left|done].
Qed.

Lemma body_fold_returned store l m forms k :
  forEach (body store) l m = Returned forms ->
  forms !! k
  = if bool_decide (k ∈ l /\ k <> EmptyString /\ k <> "__proto__")
    then match JSON_parse (recordText store k) with
         | Returned c => Some c
         | Thrown => None
         end
    else m !! k.
Proof.
  revert m. induction l as [|k0 l IH]; intros m; cbn [forEach].
  - intros [= <-]. rewrite bool_decide_eq_false_2; [done|].
    intros [H%elem_of_nil _]. done.
  - unfold collectKey at 1. destruct (String.eqb k0 EmptyString) eqn:Hk; cbn [negb].
    + cbn [bind]. intros H. rewrite (IH _ H). apply String.eqb_eq in Hk. subst k0.
      rewrite (bool_decide_ext
                 (k ∈ EmptyString :: l /\ k <> EmptyString /\ k <> "__proto__")
                 (k ∈ l /\ k <> EmptyString /\ k <> "__proto__")); [done|].
      rewrite elem_of_cons. tauto.
    + apply String.eqb_neq in Hk.
      destruct (JSON_parse (recordText store k0)) as [c|] eqn:Hp; cbn [bind]; [|done].
      intros H. rewrite (IH _ H). unfold assign.
      destruct (String.eqb k0 "__proto__") eqn:Hproto.
      * apply String.eqb_eq in Hproto. subst k0.
        rewrite (bool_decide_ext
                   (k ∈ "__proto__" :: l /\ k <> EmptyString /\ k <> "__proto__")
                   (k ∈ l /\ k <> EmptyString /\ k <> "__proto__")); [done|].
        rewrite elem_of_cons. tauto.
      * apply String.eqb_neq in Hproto.
        destruct (decide (k = k0)) as [->|Hne].
        -- rewrite lookup_insert_eq, Hp.
           rewrite (bool_decide_eq_true_2 (k0 ∈ k0 :: l /\ _))
             by (split; [left|done]).
           by case_bool_decide.
        -- rewrite lookup_insert_ne by done.
           rewrite (bool_decide_ext
                      (k ∈ k0 :: l /\ k <> EmptyString /\ k <> "__proto__")
                      (k ∈ l /\ k <> EmptyString /\ k <> "__proto__")); [done|].
           rewrite elem_of_cons. tauto.
Qed.
End StorageHelpers.

(** X21. The storage helpers round-trip. When the text [JSON.stringify]
    gives for a configuration is not empty and [JSON.parse] reads it
    back, [getForm] after [saveForm] under the same id returns the
    configuration, and after [deleteForm] it returns [null]; neither
    [saveForm] nor [deleteForm] changes what [getForm] returns for
    another id. [getForm] throws exactly when the record is a non-empty
    text that [JSON.parse] rejects. *)
Theorem storage_helpers_round_trip (A : Type) (JSON_stringify : A -> string)
    (JSON_parse : string -> outcome A) (store : list (string * string))
    (formId : string) (formConfig : A) :
  JSON_stringify formConfig <> EmptyString ->
  JSON_parse (JSON_stringify formConfig) = Returned formConfig ->
  StorageUtils.getForm A JSON_parse
    (StorageUtils.saveForm A JSON_stringify store formId formConfig) formId
  = Returned (Some formConfig)
  /\ StorageUtils.getForm A JSON_parse
       (StorageUtils.deleteForm
          (StorageUtils.saveForm A JSON_stringify store formId formConfig) formId)
       formId
     = Returned None
  /\ (forall k, k <> formId ->
        StorageUtils.getForm A JSON_parse
          (StorageUtils.saveForm A JSON_stringify store formId formConfig) k
        = StorageUtils.getForm A JSON_parse store k
        /\ StorageUtils.getForm A JSON_parse (StorageUtils.deleteForm store formId) k
           = StorageUtils.getForm A JSON_parse store k)
  /\ (forall k,
        StorageUtils.getForm A JSON_parse store k = Thrown
        <-> exists raw, Storage.getItem store k = Some raw /\ raw <> EmptyString
                        /\ JSON_parse raw = Thrown).
Proof.
  intros Hne Hparse.
  unfold StorageUtils.getForm, StorageUtils.saveForm, StorageUtils.deleteForm.
  split; [|split; [|split]].
  - rewrite getItem_setItem_eq. apply String.eqb_neq in Hne. by rewrite Hne, Hparse.
  - by rewrite getItem_removeItem_eq.
  - intros k Hk. by rewrite getItem_setItem_ne, getItem_removeItem_ne.
  - intros k. destruct (Storage.getItem store k) as [raw|].
    + destruct (String.eqb raw EmptyString) eqn:He; cbn [negb].
      * apply String.eqb_eq in He. split; [done|]. intros (r & [= <-] & Hr & _). done.
      * apply String.eqb_neq in He.
        destruct (JSON_parse raw) eqn:Hp; cbn [bind].
        -- split; [done|]. intros (r & [= <-] & _ & Hr). congruence.
        -- split; [|done]. intros _. by exists raw.
    + split; [done|]. by intros (r & Hr & _).
Qed.

Lemma storage_helpers_round_trip_witness :
  StorageUtils.getForm FormSchema parseStored
    (StorageUtils.saveForm FormSchema (fun c => stringifyStored c EmptyString)
       storedStore "mine" storedSchema) "mine"
  = Returned (Some storedSchema).
Proof.
  apply (storage_helpers_round_trip FormSchema (fun c => stringifyStored c EmptyString)
           parseStored storedStore "mine" storedSchema).
  - discriminate.
  - reflexivity.
Defined.

(** X22. [getAllForms] parses the record of every key of the store but
    the empty one, whatever its prefix, and an empty record as [{}]. It
    throws exactly when [JSON.parse] rejects the text of one of these
    keys. When it returns, the object has an entry for exactly these
    keys other than [__proto__], each with what [JSON.parse] gave, and
    none under [__proto__], for which the assignment creates no entry;
    so it agrees with [getForm] on every such key whose record
    [getForm] returns. *)
Theorem getAllForms_reads_every_key (A : Type) (JSON_parse : string -> outcome A)
    (store : list (string * string)) :
  (StorageUtils.getAllForms A JSON_parse store = Thrown
   <-> exists k, In k (Storage.keys store) /\ k <> EmptyString
                 /\ JSON_parse (recordText store k) = Thrown)
  /\ (forall forms,
        StorageUtils.getAllForms A JSON_parse store = Returned forms ->
        (forall k c,
            forms !! k = Some c
            <-> In k (Storage.keys store) /\ k <> EmptyString /\ k <> "__proto__"
                /\ JSON_parse (recordText store k) = Returned c)
        /\ forms !! "__proto__" = None
        /\ (forall k c,
              k <> EmptyString -> k <> "__proto__" ->
              StorageUtils.getForm A JSON_parse store k = Returned (Some c) ->
              forms !! k = Some c)).
Proof.
  rewrite getAllForms_keys. split; [apply body_fold_thrown|].
  intros forms Hret.
  assert (forall k c,
            forms !! k = Some c
            <-> In k (Storage.keys store) /\ k <> EmptyString /\ k <> "__proto__"
                /\ JSON_parse (recordText store k) = Returned c) as Hspec.
  { intros k c. rewrite (body_fold_returned A JSON_parse store _ _ forms k Hret).
    case_bool_decide as Hk.
    - destruct Hk as (Hin%list_elem_of_In & Hne & Hproto).
      destruct (JSON_parse (recordText store k)) as [c'|].
      + split; [intros [= ->]; done|]. by intros (_ & _ & _ & [= ->]).
      + split; [done|]. by intros (_ & _ & _ & ?).
    - rewrite lookup_empty. split; [done|]. intros (Hin & Hne & Hproto & _).
      exfalso. apply Hk. split; [by apply list_elem_of_In|done]. }
  split; [done|]. split.
  { destruct (forms !! "__proto__") as [c|] eqn:Hc; [|done].
    apply Hspec in Hc as (_ & _ & Hproto & _). done. }
  intros k c Hne Hproto Hget. apply Hspec. unfold StorageUtils.getForm in Hget.
  destruct (Storage.getItem store k) as [raw|] eqn:Hraw; [|done].
  destruct (String.eqb raw EmptyString) eqn:He; [done|]. cbn [negb] in Hget.
  split; [|split; [done|split; [done|]]].
  - unfold Storage.getItem in Hraw.
    destruct (List.find _ store) as [[k' t']|] eqn:Hf; [|done].
    apply find_some in Hf as [Hin Hk%String.eqb_eq]. cbn in Hk. subst k'.
    apply in_map_iff. by exists (k, t').
  - unfold recordText. rewrite Hraw, He.
    destruct (JSON_parse raw); [|done]. cbn [bind] in Hget. congruence.
Qed.

Lemma listed_keys_sublist (JSON_parse : string -> outcome FormSchema) store
    (l : list string) :
  sublist (omap (Total.listed JSON_parse store) l).*1 l.
Proof.
  induction l as [|k l IH]; [constructor|]. cbn [omap list_omap].
  destruct (Total.listed JSON_parse store k) as [[k' d]|] eqn:Hl.
  - apply listed_Some in Hl as (-> & _). cbn. by apply sublist_skip.
  - by apply sublist_cons.
Qed.

Lemma filter_sublist {A : Type} (p : A -> bool) (l : list A) :
  sublist (List.filter p l) l.
Proof.
  induction l as [|x l IH]; [constructor|]. cbn.
  destruct (p x); [by apply sublist_skip|by apply sublist_cons].
Qed.

(** X23. [MyForms] always returns, and lists exactly the stored keys that
    begin with [form_] and whose record is a non-empty text that
    [JSON.parse] accepts, each with the parsed form, in the order of the
    store's keys. *)
Theorem my_forms_lists_exactly (JSON_parse : string -> outcome FormSchema)
    (store : list (string * string)) :
  exists forms,
    MyForms.loadedForms JSON_parse store = Returned forms
    /\ (forall k data,
          In (k, data) forms
          <-> In k (Storage.keys store) /\ String.prefix "form_" k = true
              /\ exists raw, Storage.getItem store k = Some raw
                             /\ raw <> EmptyString
                             /\ JSON_parse raw = Returned data)
    /\ sublist forms.*1 (Storage.keys store).
Proof.
  eexists. split; [apply loadedForms_total|]. split.
  - intros k data. apply listed_in_loaded.
  - etrans; [apply listed_keys_sublist|apply filter_sublist].
Qed.

(** ** The effect that keeps derived values up to date *)

Lemma strict_eq_refl v : v <> VNaN -> strict_eq v v = true.
Proof.
  destruct v; cbn; try done.
  - intros _. by destruct b.
  - intros _. apply Z.eqb_refl.
  - intros _. apply String.eqb_refl.
  - intros _. apply Nat.eqb_refl.
  - intros _. apply Nat.eqb_refl.
Qed.

Lemma strict_neq_nan v : strict_neq v VNaN = true.
Proof. by destruct v. Qed.

Lemma previewValue_not_nan run fm ctx :
  run fm ctx <> Returned VNaN -> Total.previewValue run fm ctx <> VNaN.
Proof.
  unfold Total.previewValue, Total.orError.
  destruct (existsb isBlank (JS.values ctx)); [done|].
  destruct (run fm ctx) as [v|]; [congruence|done].
Qed.

Lemma deriveEffect_pass run sch cur :
  PreviewForm.deriveEffect run (Some sch) cur
  = Returned
      (if Nat.eqb (size cur) 0 then None
       else if (Total.pass (Total.previewValue run) true (fields sch) cur).2
            then Some (Total.pass (Total.previewValue run) true (fields sch) cur).1
            else None).
Proof.
  unfold PreviewForm.deriveEffect. destruct (Nat.eqb (size cur) 0); [done|].
  rewrite preview_update_pass. cbn [bind].
  by destruct (Total.pass _ _ _ _).2.
Qed.

Lemma fold_left_ext_in {S A : Type} (f g : S -> A -> S) (l : list A) (s : S) :
  (forall s' a, In a l -> f s' a = g s' a) ->
  fold_left f l s = fold_left g l s.
Proof.
  revert s. induction l as [|a l IH]; intros s Hfg; [done|].
  cbn [fold_left]. rewrite Hfg by (by left). apply IH.
  intros s' b Hb. apply Hfg. by right.
Qed.

Lemma context_after_pass ev clears fs cur g ps fm :
  In g fs -> derivation g = Some (ps, fm) ->
  (forall p f, In p ps -> In f fs -> is_Some (derivation f) -> id f <> p) ->
  buildContext fs (Total.pass ev clears fs cur).1 ps = buildContext fs cur ps.
Proof.
  intros Hg Hd Hflat. apply buildContext_ext. intros p Hp.
  unfold Total.pass. apply fold_frame. intros f Hf Hdf. by apply Hflat.
Qed.

(** X24. The effect comes to rest after one change, for formulas whose
    value is settled by formula and context. With distinct ids and no
    derived field among the parents of a derived field, when every run
    of the effect gets from the engine, for each derived field on its
    context, the value the first run got, and that value is a primitive
    other than [NaN] (not an array or object, which would be a new one
    each time), the effect calls [setValues] at most once: from the
    second run on the component rests on one map, which is the map it
    started from when that is empty and otherwise the map
    [updateDerivedFields] returns for it, and a run of the effect on
    that map sets nothing. *)
Theorem effect_settles
    (runs : nat -> string -> gmap string value -> outcome value)
    (sch : FormSchema) (cur : gmap string value) :
  NoDup (map id (fields sch)) ->
  (forall g ps fm p f,
      In g (fields sch) -> derivation g = Some (ps, fm) -> In p ps ->
      In f (fields sch) -> is_Some (derivation f) -> id f <> p) ->
  (forall k g ps fm,
      In g (fields sch) -> derivation g = Some (ps, fm) ->
      runs k fm (buildContext (fields sch) cur ps).1
      = runs 0%nat fm (buildContext (fields sch) cur ps).1) ->
  (forall g ps fm v,
      In g (fields sch) -> derivation g = Some (ps, fm) ->
      runs 0%nat fm (buildContext (fields sch) cur ps).1 = Returned v ->
      isPlain v = true) ->
  exists out,
    (forall fuel, (2 <= fuel)%nat ->
       PreviewForm.settleEach runs 0 fuel (Some sch) cur = Returned (Some out))
    /\ (size cur = 0%nat -> out = cur)
    /\ (size cur <> 0%nat ->
        exists isNew,
          PreviewForm.updateDerivedFields (runs 0%nat) (Some sch) cur
          = Returned (out, isNew))
    /\ (forall k, PreviewForm.deriveEffect (runs k) (Some sch) out = Returned None).
Proof.
  intros Hnd Hflat Hsame Hplain.
  set (first := Total.pass (Total.previewValue (runs 0%nat)) true (fields sch) cur).
  assert (Total.pass (Total.previewValue (runs 0%nat)) true (fields sch) first.1
          = (first.1, false)) as Hsecond.
  { apply pass_fixed_point; [done|done|]. intros g ps fm Hg Hd _.
    apply strict_eq_refl, previewValue_not_nan. intros Hnan.
    by specialize (Hplain g ps fm VNaN Hg Hd Hnan). }
  assert (forall k m,
            (forall g ps fm, In g (fields sch) -> derivation g = Some (ps, fm) ->
               buildContext (fields sch) m ps = buildContext (fields sch) cur ps) ->
            Total.pass (Total.previewValue (runs k)) true (fields sch) m
            = Total.pass (Total.previewValue (runs 0%nat)) true (fields sch) m) as Hruns.
  { intros k m Hctx. unfold Total.pass. apply fold_left_ext_in. intros st g Hg.
    unfold Total.step. destruct (derivation g) as [[ps fm]|] eqn:Hd; [|done].
    rewrite (Hctx g ps fm Hg Hd). unfold Total.previewValue.
    by rewrite (Hsame k g ps fm Hg Hd). }
  assert (forall k, PreviewForm.deriveEffect (runs k) (Some sch) first.1 = Returned None)
    as Hrest.
  { intros k. rewrite deriveEffect_pass, Hruns, Hsecond.
    - by destruct (Nat.eqb (size first.1) 0).
    - intros g ps fm Hg Hd. apply (context_after_pass _ _ _ _ g ps fm); [done|done|].
      intros p f. by apply (Hflat g ps fm). }
  destruct (Nat.eqb (size cur) 0) eqn:Hsize.
  - exists cur. split; [|split; [done|split]].
    + intros [|fuel] Hfuel; [lia|]. cbn [PreviewForm.settleEach].
      rewrite deriveEffect_pass. by rewrite Hsize.
    + intros H. apply Nat.eqb_eq in Hsize. done.
    + intros k. rewrite deriveEffect_pass. by rewrite Hsize.
  - destruct first.2 eqn:Hfl.
    + exists first.1. split; [|split; [|split; [|done]]].
      * intros [|[|fuel]] Hfuel; [lia|lia|].
        cbn [PreviewForm.settleEach]. rewrite deriveEffect_pass, Hsize.
        fold first. rewrite Hfl. cbn [bind]. by rewrite Hrest.
      * intros H0. apply Nat.eqb_neq in Hsize. done.
      * intros _. eexists. apply preview_update_pass.
    + assert (first = (cur, false)) as Hfirst
        by (unfold first, Total.pass in *; by apply fold_flag_false).
      assert (first.1 = cur) as Hcur by by rewrite Hfirst.
      exists cur. split; [|split; [|split]].
      * intros [|fuel] Hfuel; [lia|].
        cbn [PreviewForm.settleEach]. rewrite deriveEffect_pass, Hsize.
        fold first. by rewrite Hfl.
      * done.
      * intros _. eexists. rewrite preview_update_pass. fold first.
        by rewrite Hcur.
      * intros k. rewrite <- Hcur. apply Hrest.
Qed.

Lemma effect_settles_witness :
  exists out,
    (forall fuel, (2 <= fuel)%nat ->
       PreviewForm.settleEach (fun _ => Engine.run) 0 fuel (Some scoreSchema)
         {[ "A" := VStr "10" ]}
       = Returned (Some out))
    /\ (size ({[ "A" := VStr "10" ]} : gmap string value) = 0%nat
        -> out = {[ "A" := VStr "10" ]})
    /\ (size ({[ "A" := VStr "10" ]} : gmap string value) <> 0%nat ->
        exists isNew,
          PreviewForm.updateDerivedFields Engine.run (Some scoreSchema)
            {[ "A" := VStr "10" ]} = Returned (out, isNew))
    /\ (forall k : nat,
          PreviewForm.deriveEffect Engine.run (Some scoreSchema) out = Returned None).
Proof.
  apply (effect_settles (fun _ => Engine.run) scoreSchema {[ "A" := VStr "10" ]}).
  - distinct_ids.
  - intros g ps fm p f [<-|[<-|[]]]; [discriminate|].
    intros [= <- <-] [<-|[]] [<-|[<-|[]]]; [intros [? Hd]; discriminate Hd|discriminate].
  - reflexivity.
  - intros g ps fm v [<-|[<-|[]]]; [discriminate|].
    intros [= <- <-]. vm_compute. by intros [= <-].
Defined.

Lemma pass_flag_nan ev clears fs cur l g ps fm st :
  In g l -> derivation g = Some (ps, fm) ->
  (buildContext fs cur ps).2 = true ->
  ev fm (buildContext fs cur ps).1 = VNaN ->
  (fold_left (Total.step ev clears fs cur) l st).2 = true.
Proof.
  intros (pre & post & ->)%in_split Hd Hall Hnan.
  rewrite fold_left_app. cbn [fold_left]. apply fold_flag_true.
  unfold Total.step. by rewrite Hd, Hall, Hnan, strict_neq_nan.
Qed.

(** X25. A formula that gives [NaN] keeps the effect running. With
    distinct ids, when some derived field has all its parents, none of
    them a derived field, and its formula gives [NaN] on the context
    they make, every run of the effect on a non-empty map calls
    [setValues] again: however many runs are followed, the component
    has not come to rest. *)
Theorem nan_never_settles (run : string -> gmap string value -> outcome value)
    (sch : FormSchema) (cur : gmap string value)
    (g : Field) (ps : list string) (fm : string) (fuel : nat) :
  NoDup (map id (fields sch)) ->
  In g (fields sch) -> derivation g = Some (ps, fm) ->
  (forall p f, In p ps -> In f (fields sch) -> is_Some (derivation f) -> id f <> p) ->
  (buildContext (fields sch) cur ps).2 = true ->
  Total.previewValue run fm (buildContext (fields sch) cur ps).1 = VNaN ->
  size cur <> 0%nat ->
  PreviewForm.settle run fuel (Some sch) cur = Returned None.
Proof.
  intros Hnd Hg Hd Hflat Hall Hnan Hsize.
  set (ctx := buildContext (fields sch) cur ps) in *.
  assert (buildContext (fields sch) cur ps = ctx) as Hctx by done.
  clearbody ctx. revert cur Hctx Hsize.
  induction fuel as [|fuel IH]; intros cur Hctx Hsize; [done|].
  cbn [PreviewForm.settle]. rewrite deriveEffect_pass.
  apply Nat.eqb_neq in Hsize. rewrite Hsize.
  set (st := Total.pass (Total.previewValue run) true (fields sch) cur).
  assert (st.1 !! id g = Some VNaN) as Hown.
  { unfold st, Total.pass. rewrite fold_own by done.
    unfold Total.entryAfter. rewrite Hd, Hctx, Hall. cbn zeta.
    by rewrite Hnan, strict_neq_nan. }
  assert (st.2 = true) as Hfl.
  { unfold st, Total.pass.
    apply (pass_flag_nan _ _ _ _ _ g ps fm); [done|done|by rewrite Hctx..]. }
  rewrite Hfl. cbn [bind]. apply IH.
  - rewrite <- Hctx. apply buildContext_ext. intros p Hp.
    unfold st, Total.pass. apply fold_frame. intros f Hf Hdf. by apply Hflat.
  - intros Hz. apply map_size_empty_iff in Hz. rewrite Hz in Hown.
    by rewrite lookup_empty in Hown.
Qed.

Lemma nan_never_settles_witness :
  PreviewForm.settle Engine.run 5 (Some nameSchema) {[ "n" := VStr "abc" ]}
  = Returned None.
Proof.
  apply (nan_never_settles Engine.run nameSchema {[ "n" := VStr "abc" ]}
           (derivedField "d" "Twice" ["n"] "name * 2" noValidation)
           ["n"] "name * 2" 5).
  - distinct_ids.
  - right. left. reflexivity.
  - reflexivity.
  - intros p f [<-|[]] [<-|[<-|[]]]; [intros [? Hd]; discriminate Hd|discriminate].
  - vm_compute. reflexivity.
  - vm_compute. reflexivity.
  - vm_compute. discriminate.
Defined.

(** ** The two reconcilers side by side *)

Lemma builder_step_keeps ev fs cur st f k :
  is_Some (st.1 !! k) -> is_Some ((Total.step ev false fs cur st f).1 !! k).
Proof.
  intros Hk. unfold Total.step.
  destruct (derivation f) as [[ps fm]|]; [|done].
  destruct (buildContext fs cur ps).2; cbn [andb]; [|done].
  destruct (strict_neq _ _); [|done]. cbn [fst].
  destruct (decide (id f = k)) as [->|Hne].
  - rewrite lookup_insert_eq. eauto.
  - by rewrite lookup_insert_ne.
Qed.

Lemma builder_fold_keeps ev fs cur l st k :
  is_Some (st.1 !! k) ->
  is_Some ((fold_left (Total.step ev false fs cur) l st).1 !! k).
Proof.
  revert st. induction l as [|f l IH]; intros st Hk; [done|].
  cbn [fold_left]. by apply IH, builder_step_keeps.
Qed.

(** X26. The builder's reconciler never removes an entry: every key of
    the map it is given is still a key of the map it hands to
    [setPreviewValues], and so of the preview values
    [handlePreviewChange] leaves, the key typed into among them. *)
Theorem builder_never_clears (run : string -> gmap string value -> outcome value)
    (fs : list Field) (cur : gmap string value) (fieldId : string) (v : value) :
  (exists set,
      CreateForm.updateDerivedFields run fs cur = Returned set
      /\ forall out k, set = Some out -> is_Some (cur !! k) -> is_Some (out !! k))
  /\ (exists out,
         CreateForm.handlePreviewChange run fs cur fieldId v = Returned out
         /\ is_Some (out !! fieldId)
         /\ forall k, is_Some (cur !! k) -> is_Some (out !! k)).
Proof.
  split.
  - eexists. split; [apply builder_update_total|]. cbn zeta.
    intros out k. destruct (Total.pass _ _ _ _).2; [|done].
    intros [= <-] Hk. unfold Total.pass. by apply builder_fold_keeps.
  - eexists. split; [apply builder_handlePreviewChange_pass|].
    unfold Total.pass. split.
    + apply builder_fold_keeps. cbn [fst]. rewrite lookup_insert_eq. eauto.
    + intros k Hk. apply builder_fold_keeps. cbn [fst].
      destruct (decide (fieldId = k)) as [->|Hne].
      * rewrite lookup_insert_eq. eauto.
      * by rewrite lookup_insert_ne.
Qed.

(** X27. Where every derived field has all its parents and no value in
    its context is blank, the two copies of the reconciler agree: the
    map the builder hands to [setPreviewValues] is the map the form
    renderer returns, and it makes that call exactly when the form
    renderer returns a new object. *)
Theorem reconcilers_agree (run : string -> gmap string value -> outcome value)
    (sch : FormSchema) (cur : gmap string value) :
  (forall g ps fm,
      In g (fields sch) -> derivation g = Some (ps, fm) ->
      (buildContext (fields sch) cur ps).2 = true
      /\ existsb isBlank (JS.values (buildContext (fields sch) cur ps).1) = false) ->
  exists out isNew,
    PreviewForm.updateDerivedFields run (Some sch) cur = Returned (out, isNew)
    /\ CreateForm.updateDerivedFields run (fields sch) cur
       = Returned (if isNew then Some out else None).
Proof.
  intros Hfilled. eexists _, _. split; [apply preview_update_pass|].
  rewrite builder_update_total. cbn zeta.
  assert (Total.pass (Total.builderValue run) false (fields sch) cur
          = Total.pass (Total.previewValue run) true (fields sch) cur) as ->; [|done].
  unfold Total.pass. apply fold_left_ext_in. intros st g Hg.
  unfold Total.step. destruct (derivation g) as [[ps fm]|] eqn:Hd; [|done].
  destruct (Hfilled g ps fm Hg Hd) as [Hall Hblank].
  rewrite Hall. unfold Total.previewValue, Total.builderValue. by rewrite Hblank.
Qed.

Lemma reconcilers_agree_witness :
  exists out isNew,
    PreviewForm.updateDerivedFields Engine.run (Some scoreSchema)
      {[ "A" := VStr "10" ]} = Returned (out, isNew)
    /\ CreateForm.updateDerivedFields Engine.run (fields scoreSchema)
         {[ "A" := VStr "10" ]}
       = Returned (if isNew then Some out else None).
Proof.
  apply (reconcilers_agree Engine.run scoreSchema {[ "A" := VStr "10" ]}).
  intros g ps fm [<-|[<-|[]]]; [discriminate|].
  intros [= <- <-]. split; vm_compute; reflexivity.
Defined.

(** ** Ages in order *)

(** X28. For a birth date the platform reads, [calculateAge] is negative
    exactly when the birth date is after today (the age is not clamped
    at zero), and it does not decrease as days pass. *)
Theorem calculateAge_order (newDate : value -> option LocalDate)
    (today later : LocalDate) (birthDate : value) (birth : LocalDate) :
  truthy birthDate = true -> newDate birthDate = Some birth ->
  (Helpers.calculateAge newDate today birthDate < 0 <-> dateLt today birth)
  /\ (~ dateLt later today ->
      Helpers.calculateAge newDate today birthDate
      <= Helpers.calculateAge newDate later birthDate).
Proof.
  intros Ht Hb. unfold Helpers.calculateAge, dateLt. rewrite Ht, Hb. cbn [negb].
  destruct (getMonth today - getMonth birth <? 0) eqn:H1;
    destruct (getMonth today - getMonth birth =? 0) eqn:H2;
    destruct (getDate today <? getDate birth) eqn:H3;
    destruct (getMonth later - getMonth birth <? 0) eqn:H4;
    destruct (getMonth later - getMonth birth =? 0) eqn:H5;
    destruct (getDate later <? getDate birth) eqn:H6;
    cbn [orb andb]; lia.
Qed.

Lemma calculateAge_order_witness :
  Helpers.calculateAge (readBirthDate false) (mkLocalDate 2024 5 14) (VStr "2000-06-15")
  <= Helpers.calculateAge (readBirthDate false) (mkLocalDate 2024 5 15) (VStr "2000-06-15").
Proof.
  refine (proj2 (calculateAge_order (readBirthDate false) (mkLocalDate 2024 5 14)
                   (mkLocalDate 2024 5 15) (VStr "2000-06-15")
                   (mkLocalDate 2000 5 15) _ _) _).
  - reflexivity.
  - reflexivity.
  - unfold dateLt. cbn. lia.
Defined.

(** ** Errors while typing *)

(** X29. An error shown while typing blocks the submission. When the
    value typed into a field that is not derived fails [validateField],
    [handleChange] records that message under the field's id, and
    [handleSubmit] on the values [handleChange] leaves does not accept
    the form. *)
Theorem typed_error_blocks_submit
    (run : string -> gmap string value -> outcome value)
    (sch : FormSchema) (values : gmap string value) (errors : gmap string string)
    (fid : string) (v : value) (field : Field) :
  findField (fields sch) fid = Some field -> isDerived field = false ->
  (forall f, In f (fields sch) -> is_Some (derivation f) -> id f <> fid) ->
  PreviewForm.validateField field v <> EmptyString ->
  PreviewForm.changeErrors (Some sch) errors fid v !! fid
  = Some (PreviewForm.validateField field v)
  /\ exists out,
       PreviewForm.handleChange run (Some sch) values fid v = Returned out
       /\ PreviewForm.submitAccepted (Some sch) out = false.
Proof.
  intros Hfind Hinput Hfid Herr. split.
  - unfold PreviewForm.changeErrors. rewrite Hfind, Hinput. cbn [negb].
    apply lookup_insert_eq.
  - eexists. split; [apply preview_handleChange_pass|].
    apply not_true_is_false. unfold PreviewForm.submitAccepted, PreviewForm.submitErrors.
    rewrite Nat.eqb_eq, map_size_empty_iff, submit_fold_empty.
    intros [_ Hall]. apply findField_Some in Hfind as [Hin Hid].
    apply Herr. rewrite <- (Hall field Hin Hinput). f_equal.
    unfold JS.get, Total.pass. rewrite fold_frame by (rewrite Hid; done).
    cbn [fst]. by rewrite Hid, lookup_insert_eq.
Qed.

Lemma typed_error_blocks_submit_witness :
  exists out,
    PreviewForm.handleChange Engine.run (Some requiredSchema) ∅ "t" (VStr EmptyString)
    = Returned out
    /\ PreviewForm.submitAccepted (Some requiredSchema) out = false.
Proof.
  refine (proj2 (typed_error_blocks_submit Engine.run requiredSchema ∅ ∅ "t"
                   (VStr EmptyString) (inputField "t" "text" "Name" requiredOnly)
                   _ _ _ _)).
  - reflexivity.
  - reflexivity.
  - intros f [<-|[<-|[]]]; [intros [? Hd]; discriminate Hd|discriminate].
  - vm_compute. discriminate.
Defined.
